(** * alpha-DS-mixture calibration: a shallow embedding of
      [alpha_DS_calibration.py] and the properties of its components.

    Numbers.  The program computes with Python floats.  They are modelled
    here as exact rationals ([Q]); numeric equality is [Qeq] ([==]), the
    comparisons [<] and [>] of the source are the boolean [Qltb].  Rounding
    to a number of decimals ([round(x, d)]) is round-half-to-even on the
    exact value.  Binary rounding error of float arithmetic is outside the
    model: a sum, product or quotient is the exact one, where the program
    holds the nearest double.  The two agree on lengths, keys, exceptions
    and the shape of the optimization program, on comparisons and results
    of monotone operations, and where the arithmetic is exact in doubles
    (integers, halves, the factors 0 and 1).  They can differ in the last
    decimal of a lattice value or of a mixed coefficient, when the exact
    value sits on a rounding tie that the double misses, or the reverse.

    Exceptions.  Python code that can raise is modelled in the [result]
    monad: [Ok v] for a returned value, [Raise e] for an exception. *)

From Stdlib Require Import QArith Qround Lqa.
From stdpp Require Import gmap list sorting.

(** ** Exceptions and the [result] monad *)

(** The built-in exceptions the program can raise, followed by the three
    error kinds named by the design document.  No statement of the source
    raises one of the latter three. *)
Inductive exn : Type :=
  | ValueError
  | IndexError
  | KeyError
  | ZeroDivisionError
  | RuntimeError
  | InputDataError
  | DegenerateRangeError
  | OptimizationFailure.

Inductive result (A : Type) : Type :=
  | Ok (a : A)
  | Raise (e : exn).

Arguments Ok {A} a.
Arguments Raise {A} e.

#[global] Instance result_ret : MRet result := λ A a, Ok a.
#[global] Instance result_bind : MBind result := λ A B f r,
  match r with
  | Ok a => f a
  | Raise e => Raise e
  end.

Definition is_Ok {A} (r : result A) : Prop := ∃ a, r = Ok a.

(** [for x in l: acc = f(acc, x)] where the body may raise. *)
Fixpoint foldM {A B} (f : B → A → result B) (l : list A) (b : B) : result B :=
  match l with
  | [] => Ok b
  | x :: l' => b' ← f b x; foldM f l' b'
  end.

(** [[f(x) for x in l]] where [f] may raise. *)
Fixpoint mapM_result {A B} (f : A → result B) (l : list A) : result (list B) :=
  match l with
  | [] => Ok []
  | x :: l' => y ← f x; ys ← mapM_result f l'; Ok (y :: ys)
  end.

(** [l[i]] for a list and a non-negative index. *)
Definition getitem {A} (l : list A) (i : nat) : result A :=
  match l !! i with
  | Some x => Ok x
  | None => Raise IndexError
  end.

(** [d[k]] for a dict. *)
Definition getkey `{Countable K} {A} (d : gmap K A) (k : K) : result A :=
  match d !! k with
  | Some x => Ok x
  | None => Raise KeyError
  end.

(** ** Numbers *)

(** [x < y] on numbers, as a boolean. *)
Definition Qltb (x y : Q) : bool := negb (Qle_bool y x).

(** The built-in [max(a, b)]: the first argument unless the second is
    strictly greater. *)
Definition py_max2 (a b : Q) : Q := if Qltb a b then b else a.

(** The built-in [max(l)] and [min(l)] of a list: [ValueError] on the empty
    list, otherwise a left-to-right scan keeping the first extremal item. *)
Fixpoint py_max_from (m : Q) (l : list Q) : Q :=
  match l with
  | [] => m
  | x :: l' => py_max_from (if Qltb m x then x else m) l'
  end.

Fixpoint py_min_from (m : Q) (l : list Q) : Q :=
  match l with
  | [] => m
  | x :: l' => py_min_from (if Qltb x m then x else m) l'
  end.

Definition py_max (l : list Q) : result Q :=
  match l with
  | [] => Raise ValueError
  | x :: l' => Ok (py_max_from x l')
  end.

Definition py_min (l : list Q) : result Q :=
  match l with
  | [] => Raise ValueError
  | x :: l' => Ok (py_min_from x l')
  end.

(** Round half to even, to an integer. *)
Definition round_half_even (x : Q) : Z :=
  let f := Qfloor x in
  let r := (x - inject_Z f)%Q in
  if Qltb r (1 # 2) then f
  else if Qltb (1 # 2) r then (f + 1)%Z
  else if Z.even f then f else (f + 1)%Z.

(** [round(x, d)] for [d] decimal digits. *)
Definition py_round (x : Q) (d : nat) : Q :=
  (inject_Z (round_half_even (x * inject_Z (10 ^ Z.of_nat d)))
   / inject_Z (10 ^ Z.of_nat d))%Q.

(** [a / b] on floats. *)
Definition py_div (a b : Q) : result Q :=
  if Qeq_bool b 0 then Raise ZeroDivisionError else Ok (a / b)%Q.

(** ** Payoff evaluator (source lines 27-59) *)

Definition call_payoff (i : nat) (K : Q) (S1 : list Q) : result Q :=
  x ← getitem S1 i; Ok (py_max2 (x - K) 0).

Definition put_payoff (i : nat) (K : Q) (S1 : list Q) : result Q :=
  x ← getitem S1 i; Ok (py_max2 (K - x) 0).

(** The loop shared by the four scans:
    [for i in S: if payoff(i) ? val: val = payoff(i)], where [better p val]
    is the test of the [if].  The payoff is evaluated a second time in the
    assignment, as in the source. *)
Definition scan_step (payoff : nat → result Q) (better : Q → Q → bool)
    (val : Q) (i : nat) : result Q :=
  p ← payoff i;
  if better p val then payoff i else Ok val.

Definition scan (payoff : nat → result Q) (better : Q → Q → bool)
    (S : list nat) (init : Q) : result Q :=
  foldM (scan_step payoff better) S init.

Definition min_call (S : list nat) (K : Q) (S1 : list Q) : result Q :=
  min_val ← py_max S1;
  scan (λ i, call_payoff i K S1) (λ p val, Qltb p val) S min_val.

Definition max_call (S : list nat) (K : Q) (S1 : list Q) : result Q :=
  scan (λ i, call_payoff i K S1) (λ p val, Qltb val p) S 0%Q.

Definition min_put (S : list nat) (K : Q) (S1 : list Q) : result Q :=
  min_val ← py_max S1;
  scan (λ i, put_payoff i K S1) (λ p val, Qltb p val) S min_val.

Definition max_put (S : list nat) (K : Q) (S1 : list Q) : result Q :=
  scan (λ i, put_payoff i K S1) (λ p val, Qltb val p) S 0%Q.

(** ** State-space discretizer (source lines 87-91) *)

(** [numpy.arange(start, stop, step)]: [ceil((stop - start) / step)] values
    [start + i * step]; the length is obtained by dividing the span by
    [step], which raises on a zero step.  The values are the exact ones: the
    library fills doubles, [start + i * ((start + step) - start)]. *)
Definition np_arange (start stop step : Q) : result (list Q) :=
  span_steps ← py_div (stop - start) step;
  Ok (map (λ i : nat, (start + inject_Z (Z.of_nat i) * step)%Q)
          (seq 0 (Z.to_nat (Qceiling span_steps)))).

Definition S1_min_of (STOCK_stock : list Q) : result Q :=
  lo ← py_min STOCK_stock; Ok (py_round lo 0).

Definition S1_max_of (STOCK_stock : list Q) : result Q :=
  hi ← py_max STOCK_stock; Ok (py_round hi 0).

(** The bin boundaries [S1_range]. *)
Definition S1_range_of (STOCK_stock : list Q) (n : nat) : result (list Q) :=
  S1_min ← S1_min_of STOCK_stock;
  S1_max ← S1_max_of STOCK_stock;
  step ← py_div (S1_max - S1_min) (inject_Z (Z.of_nat n));
  np_arange S1_min (S1_max + 1) step.

(** The representative values [S1]: the midpoints of adjacent boundaries,
    rounded to one decimal.  An exact midpoint on a tie of the first decimal
    (140.45) is rounded half to even here; the double the program holds is
    off the tie and can round the other way. *)
Definition S1_of (STOCK_stock : list Q) (n : nat) : result (list Q) :=
  S1_range ← S1_range_of STOCK_stock n;
  mapM_result
    (λ i, hi ← getitem S1_range (i + 1);
          lo ← getitem S1_range i;
          Ok (py_round ((hi + lo) / 2) 1))
    (seq 0 n).

(** ** Subset enumerator (source lines 94-101) *)

(** [itertools.combinations(l, r)]: the [r]-element subsequences of [l], in
    lexicographic order of their positions. *)
Fixpoint combinations {A} (l : list A) (r : nat) : list (list A) :=
  match r, l with
  | 0, _ => [[]]
  | S _, [] => []
  | S r', x :: l' => map (cons x) (combinations l' r') ++ combinations l' r
  end.

(** [more_itertools.powerset(l)]:
    [chain.from_iterable(combinations(s, r) for r in range(len(s) + 1))]. *)
Definition powerset {A} (l : list A) : list (list A) :=
  concat (map (combinations l) (seq 0 (length l + 1))).

(** [l.pop(0)], keeping the remaining list. *)
Definition pop0 {A} (l : list A) : result (list A) :=
  match l with
  | [] => Raise IndexError
  | _ :: l' => Ok l'
  end.

(** [dict(pairs)]: later pairs overwrite earlier ones. *)
Definition py_dict `{Countable K} {A} (pairs : list (K * A)) : gmap K A :=
  fold_left (λ d kv, <[kv.1 := kv.2]> d) pairs ∅.

Definition I_singletons_of (n : nat) : list nat := seq 0 n.

Definition pw_of (n : nat) : result (list (list nat)) :=
  pop0 (powerset (I_singletons_of n)).

Definition I_vars_of (pw : list (list nat)) : list nat := seq 0 (length pw).

Definition d_pw_of (pw : list (list nat)) : gmap nat (list nat) :=
  py_dict (zip (I_vars_of pw) pw).

(** ** Option quotes and gamble builder (source lines 104-128) *)

(** One row of a quote table, columns [strike], [bid], [ask]. *)
Record quote : Type := { strike : Q; bid : Q; ask : Q }.

(** The derived column [alpha_p], as the exact mixture; it is the
    program's double for [alpha = 0] and [alpha = 1]. *)
Definition alpha_p (alpha : Q) (q : quote) : Q :=
  (alpha * bid q + (1 - alpha) * ask q)%Q.

(** One coefficient of the nested loops that fill a coefficient dict.
    [min_f] and [max_f] are [min_call], [max_call] for the calls and
    [min_put], [max_put] for the puts.  The mixture is the exact one before
    it is rounded. *)
Definition alpha_gamble_entry (min_f max_f : list nat → Q → list Q → result Q)
    (alpha : Q) (d_pw : gmap nat (list nat)) (S1 : list Q) (K : Q) (j : nat)
    : result Q :=
  s_lo ← getkey d_pw j;
  lo ← min_f s_lo K S1;
  s_hi ← getkey d_pw j;
  hi ← max_f s_hi K S1;
  Ok (py_round (alpha * lo + (1 - alpha) * hi) 6).

(** The inner loop, over the subset indices, for row [i] with strike [K]. *)
Definition fill_row (min_f max_f : list nat → Q → list Q → result Q)
    (alpha : Q) (d_pw : gmap nat (list nat)) (S1 : list Q)
    (i : nat) (K : Q) (I_vars : list nat) (g : gmap (nat * nat) Q)
    : result (gmap (nat * nat) Q) :=
  foldM (λ g j,
    c ← alpha_gamble_entry min_f max_f alpha d_pw S1 K j;
    Ok (<[(i, j) := c]> g)) I_vars g.

(** The outer loop, over the quote rows. *)
Definition alpha_gamble_of (min_f max_f : list nat → Q → list Q → result Q)
    (alpha : Q) (d_pw : gmap nat (list nat)) (S1 : list Q)
    (STOCK : list quote) (I_rows I_vars : list nat)
    : result (gmap (nat * nat) Q) :=
  foldM (λ g i,
    q ← getitem STOCK i;
    fill_row min_f max_f alpha d_pw S1 i (strike q) I_vars g) I_rows ∅.

Definition alpha_gamble_calls_of := alpha_gamble_of min_call max_call.
Definition alpha_gamble_puts_of := alpha_gamble_of min_put max_put.

(** ** The optimization model (source lines 130-178)

    The modelling objects of the optimization library are modelled by what
    they hold: index sets, parameter tables, variable declarations (domain
    and bounds), constraint expressions and the objective. *)

Inductive var : Type :=
  | Var_m (j : nat)
  | Var_ec (i : nat)
  | Var_ep (i : nat)
  | Var_err.

Inductive expr : Type :=
  | Const (c : Q)
  | Var (v : var)
  | Add (a b : expr)
  | Sub (a b : expr)
  | Mul (a b : expr)
  | Div (a b : expr)
  | Pow (a : expr) (k : Z).

(** An equality constraint [lhs == rhs]. *)
Record constraint : Type := { lhs : expr; rhs : expr }.

Inductive Domain : Type := Reals | NonNegativeReals.

Record VarData : Type :=
  { within : Domain; lower : option Q; upper : option Q }.

Inductive Sense : Type := minimize | maximize.

Record ConcreteModel : Type := {
  model_I_vars : list nat;
  model_I_calls : list nat;
  model_I_puts : list nat;
  model_alpha_price_calls : list Q;
  model_alpha_price_puts : list Q;
  model_alpha_gamble_calls : gmap (nat * nat) Q;
  model_alpha_gamble_puts : gmap (nat * nat) Q;
  model_m : list (nat * VarData);
  model_ec : list (nat * VarData);
  model_ep : list (nat * VarData);
  model_err : VarData;
  model_o : expr * Sense;
  model_c_norm : constraint;
  model_c_calls : list constraint;
  model_c_puts : list constraint;
  model_c_err : constraint
}.

(** The built-in [sum] over expressions: it starts from [0] and adds the
    items from left to right. *)
Definition py_sum (terms : list expr) : expr :=
  fold_left Add terms (Const 0).

Definition epsilon : Q := 1 # 10000.

(** [BoundsIntializer]: [i] is the index of the weight variable. *)
Definition BoundsIntializer (I_singletons : list nat) (i : nat)
    : Q * option Q :=
  (if Nat.eqb (count_occ Nat.eq_dec I_singletons i) 0 then 0%Q else epsilon,
   None).

Definition declare_m (I_singletons : list nat) (i : nat) : nat * VarData :=
  let b := BoundsIntializer I_singletons i in
  (i, {| within := NonNegativeReals; lower := Some b.1; upper := b.2 |}).

Definition declare_free (i : nat) : nat * VarData :=
  (i, {| within := NonNegativeReals; lower := None; upper := None |}).

(** [sum(gamble[i, j] * model.m[j] for j in model.I_vars)]. *)
Definition priced_gamble (gamble : gmap (nat * nat) Q) (I_vars : list nat)
    (i : nat) : result expr :=
  terms ← mapM_result
    (λ j, c ← getkey gamble (i, j); Ok (Mul (Const c) (Var (Var_m j))))
    I_vars;
  Ok (py_sum terms).

(** [e / c] for an expression and a number: the library refuses a zero
    divisor when it builds the quotient. *)
Definition expr_div (e : expr) (c : Q) : result expr :=
  if Qeq_bool c 0 then Raise ZeroDivisionError else Ok (Div e (Const c)).

(** [ConstrRuleCall] and [ConstrRulePut]. *)
Definition ConstrRuleCall (gamble : gmap (nat * nat) Q) (price : list Q)
    (I_vars : list nat) (R : Q) (i : nat) : result constraint :=
  g ← priced_gamble gamble I_vars i;
  discounted ← expr_div g R;
  p ← getitem price i;
  Ok {| lhs := Var (Var_ec i);
        rhs := Pow (Sub discounted (Const p)) 2 |}.

Definition ConstrRulePut (gamble : gmap (nat * nat) Q) (price : list Q)
    (I_vars : list nat) (R : Q) (i : nat) : result constraint :=
  g ← priced_gamble gamble I_vars i;
  discounted ← expr_div g R;
  p ← getitem price i;
  Ok {| lhs := Var (Var_ep i);
        rhs := Pow (Sub discounted (Const p)) 2 |}.

(** Everything [optimal_m] does before it calls the solver: the lattice,
    the subsets, the coefficient dicts and the model.  The index-to-subset
    dict is returned along with the model. *)
Definition build_model (n : nat) (alpha R : Q)
    (STOCK_stock : list Q) (STOCK_calls STOCK_puts : list quote)
    : result (ConcreteModel * gmap nat (list nat)) :=
  S1 ← S1_of STOCK_stock n;
  let I_singletons := I_singletons_of n in
  pw ← pop0 (powerset I_singletons);
  let I_vars := I_vars_of pw in
  let d_pw := d_pw_of pw in
  let I_calls := seq 0 (length STOCK_calls) in
  let I_puts := seq 0 (length STOCK_puts) in
  alpha_gamble_calls ←
    alpha_gamble_calls_of alpha d_pw S1 STOCK_calls I_calls I_vars;
  alpha_gamble_puts ←
    alpha_gamble_puts_of alpha d_pw S1 STOCK_puts I_puts I_vars;
  let alpha_price_calls := map (λ q, py_round (alpha_p alpha q) 6) STOCK_calls in
  let alpha_price_puts := map (λ q, py_round (alpha_p alpha q) 6) STOCK_puts in
  c_calls ← mapM_result
    (ConstrRuleCall alpha_gamble_calls alpha_price_calls I_vars R) I_calls;
  c_puts ← mapM_result
    (ConstrRulePut alpha_gamble_puts alpha_price_puts I_vars R) I_puts;
  Ok ({| model_I_vars := I_vars;
         model_I_calls := I_calls;
         model_I_puts := I_puts;
         model_alpha_price_calls := alpha_price_calls;
         model_alpha_price_puts := alpha_price_puts;
         model_alpha_gamble_calls := alpha_gamble_calls;
         model_alpha_gamble_puts := alpha_gamble_puts;
         model_m := map (declare_m I_singletons) I_vars;
         model_ec := map declare_free I_calls;
         model_ep := map declare_free I_puts;
         model_err :=
           {| within := NonNegativeReals; lower := None; upper := None |};
         model_o := (Var Var_err, minimize);
         model_c_norm :=
           {| lhs := py_sum (map (λ i, Var (Var_m i)) I_vars);
              rhs := Const 1 |};
         model_c_calls := c_calls;
         model_c_puts := c_puts;
         model_c_err :=
           {| lhs := Var Var_err;
              rhs := Add (py_sum (map (λ i, Var (Var_ec i)) I_calls))
                         (py_sum (map (λ i, Var (Var_ep i)) I_puts)) |}
      |}, d_pw).

(** *** Meaning of a model: the assignments it admits *)

Fixpoint eval (a : var → Q) (e : expr) : Q :=
  match e with
  | Const c => c
  | Var v => a v
  | Add x y => eval a x + eval a y
  | Sub x y => eval a x - eval a y
  | Mul x y => eval a x * eval a y
  | Div x y => eval a x / eval a y
  | Pow x k => eval a x ^ k
  end.

Definition holds (a : var → Q) (c : constraint) : Prop :=
  (eval a (lhs c) == eval a (rhs c))%Q.

Definition in_domain (d : Domain) (x : Q) : Prop :=
  match d with
  | Reals => True
  | NonNegativeReals => (0 <= x)%Q
  end.

Definition in_bounds (vd : VarData) (x : Q) : Prop :=
  in_domain (within vd) x
  ∧ (∀ l, lower vd = Some l → (l <= x)%Q)
  ∧ (∀ u, upper vd = Some u → (x <= u)%Q).

Definition feasible (model : ConcreteModel) (a : var → Q) : Prop :=
  Forall (λ d, in_bounds d.2 (a (Var_m d.1))) (model_m model)
  ∧ Forall (λ d, in_bounds d.2 (a (Var_ec d.1))) (model_ec model)
  ∧ Forall (λ d, in_bounds d.2 (a (Var_ep d.1))) (model_ep model)
  ∧ in_bounds (model_err model) (a Var_err)
  ∧ holds a (model_c_norm model)
  ∧ Forall (holds a) (model_c_calls model)
  ∧ Forall (holds a) (model_c_puts model)
  ∧ holds a (model_c_err model).

(** *** The solver and the rest of [optimal_m] (source lines 183-195) *)

Module SolverStatus.
Inductive t : Type := ok | warning | error | aborted | unknown.
End SolverStatus.

Module TerminationCondition.
Inductive t : Type :=
  | optimal | locallyOptimal | globallyOptimal
  | feasible | infeasible | unbounded | infeasibleOrUnbounded
  | maxIterations | maxTimeLimit | solverFailure | internalSolverError
  | other.
End TerminationCondition.

(** What a solve leaves behind: the results object and the values it
    loaded into the variables of the model (none where it loaded nothing). *)
Record SolverResults : Type := {
  solver_status : SolverStatus.t;
  termination_condition : TerminationCondition.t;
  loaded : var → option Q
}.

Definition check_optimal_termination (results : SolverResults) : bool :=
  match solver_status results, termination_condition results with
  | SolverStatus.ok, TerminationCondition.optimal
  | SolverStatus.ok, TerminationCondition.locallyOptimal
  | SolverStatus.ok, TerminationCondition.globallyOptimal => true
  | _, _ => false
  end.

Definition assert_optimal_termination (results : SolverResults) : result unit :=
  if check_optimal_termination results then Ok () else Raise RuntimeError.

(** [pyo.value(e)]: the value of an expression under the loaded values. *)
Fixpoint pyo_value (vals : var → option Q) (e : expr) : result Q :=
  match e with
  | Const c => Ok c
  | Var v => match vals v with Some x => Ok x | None => Raise ValueError end
  | Add x y => vx ← pyo_value vals x; vy ← pyo_value vals y; Ok (vx + vy)%Q
  | Sub x y => vx ← pyo_value vals x; vy ← pyo_value vals y; Ok (vx - vy)%Q
  | Mul x y => vx ← pyo_value vals x; vy ← pyo_value vals y; Ok (vx * vy)%Q
  | Div x y => vx ← pyo_value vals x; vy ← pyo_value vals y; py_div vx vy
  | Pow x k => vx ← pyo_value vals x; Ok (vx ^ k)%Q
  end.

Section Calibration.

(** The external solver, a black box: it either raises or returns its
    results object. *)
Variable solve : ConcreteModel → result SolverResults.

Definition optimal_m (n : nat) (alpha R : Q)
    (STOCK_stock : list Q) (STOCK_calls STOCK_puts : list quote)
    : result (Q * gmap nat Q * gmap nat (list nat)) :=
  built ← build_model n alpha R STOCK_stock STOCK_calls STOCK_puts;
  let model := built.1 in
  let d_pw := built.2 in
  status ← solve model;
  _ ← assert_optimal_termination status;
  opt_E ← pyo_value (loaded status) (model_o model).1;
  opt_m ← foldM (λ d i,
             v ← pyo_value (loaded status) (Var (Var_m i));
             Ok (<[i := v]> d)) (model_I_vars model) ∅;
  Ok (opt_E, opt_m, d_pw).

End Calibration.

(** ** The callers ([META_alpha_0_7.py], [META_alpha_tuning.py])

    Both scripts fix [n = 5] and compute [R = (1 + r) ** tau], a real power
    that is no rational: [R] stays a parameter here, and so does [n]. *)

(** The printing loop of [META_alpha_0_7.py] (lines 41-42), as the rows it
    prints: the subset as a set and the weight rounded to four decimals. *)
Definition report (opt_m : gmap nat Q) (d_pw : gmap nat (list nat))
    : result (list (gset nat * Q)) :=
  mapM_result
    (λ i, s ← getkey d_pw i;
          w ← getkey opt_m i;
          Ok (list_to_set s, py_round w 4))
    (seq 0 (size d_pw)).

(** A float of an array: a finite value, or what a division by zero leaves
    in an array instead of raising. *)
Inductive np_float : Type :=
  | np_finite (x : Q)
  | np_nan
  | np_inf
  | np_neg_inf.

(** [a / b] on array entries. *)
Definition np_div (a b : Q) : np_float :=
  if Qeq_bool b 0 then
    if Qeq_bool a 0 then np_nan else if Qltb 0 a then np_inf else np_neg_inf
  else np_finite (a / b).

(** The grid of mixing parameters of [META_alpha_tuning.py] (line 36):
    [np.round(np.arange(0, 1.1, 0.1), 1)]. *)
Definition alpha_grid : result (list Q) :=
  a ← np_arange 0 (11 # 10) (1 # 10);
  Ok (map (λ x, py_round x 1) a).

(** The normalized errors (line 51):
    [(errors - min(errors)) / (max(errors) - min(errors))]. *)
Definition n_errors_of (errors : list Q) : result (list np_float) :=
  lo ← py_min errors;
  hi ← py_max errors;
  lo' ← py_min errors;
  Ok (map (λ e, np_div (e - lo) (hi - lo')) errors).

Section Tuning.

Variable solve : ConcreteModel → result SolverResults.

(** The sweep over the grid (lines 39-47): [errors] starts as zeros and
    entry [i] receives the optimal error for [alpha[i]]. *)
Definition tuning_errors (n : nat) (R : Q) (alpha : list Q)
    (STOCK_stock : list Q) (STOCK_calls STOCK_puts : list quote)
    : result (list Q) :=
  foldM (λ errors i,
    a ← getitem alpha i;
    r ← optimal_m solve n a R STOCK_stock STOCK_calls STOCK_puts;
    Ok (<[i := r.1.1]> errors))
    (seq 0 (length alpha)) (replicate (length alpha) 0%Q).

Definition tuning (n : nat) (R : Q) (alpha : list Q)
    (STOCK_stock : list Q) (STOCK_calls STOCK_puts : list quote)
    : result (list np_float) :=
  errors ← tuning_errors n R alpha STOCK_stock STOCK_calls STOCK_puts;
  n_errors_of errors.

End Tuning.

(** * Vocabulary of the properties *)

(** The payoffs over a subset, and what it is to be their minimum or
    maximum. *)
Definition payoffs (payoff : nat → result Q) (S : list nat) : result (list Q) :=
  mapM_result payoff S.

Definition is_minimum (ps : list Q) (v : Q) : Prop :=
  (∃ x, x ∈ ps ∧ (v == x)%Q) ∧ ∀ x, x ∈ ps → (v <= x)%Q.

Definition is_maximum (ps : list Q) (v : Q) : Prop :=
  (∃ x, x ∈ ps ∧ (v == x)%Q) ∧ ∀ x, x ∈ ps → (x <= v)%Q.

Definition returns_minimum (payoff : nat → result Q) (S : list nat)
    (r : result Q) : Prop :=
  ∃ ps v, payoffs payoff S = Ok ps ∧ r = Ok v ∧ is_minimum ps v.

Definition returns_maximum (payoff : nat → result Q) (S : list nat)
    (r : result Q) : Prop :=
  ∃ ps v, payoffs payoff S = Ok ps ∧ r = Ok v ∧ is_maximum ps v.

(** A subset of state indices of a lattice. *)
Definition state_indices (S : list nat) (S1 : list Q) : Prop :=
  ∀ i, i ∈ S → i < length S1.

(** A price lattice holds prices: none is negative. *)
Definition price_lattice (S1 : list Q) : Prop :=
  ∀ x, x ∈ S1 → (0 <= x)%Q.

(** Lexicographic order on lists of state indices, and the order of the
    enumeration: by size first, lexicographic among subsets of one size. *)
Inductive lex_lt : list nat → list nat → Prop :=
  | lex_lt_nil y ys : lex_lt [] (y :: ys)
  | lex_lt_head x xs y ys : x < y → lex_lt (x :: xs) (y :: ys)
  | lex_lt_tail x xs ys : lex_lt xs ys → lex_lt (x :: xs) (x :: ys).

Definition subset_lt (a b : list nat) : Prop :=
  length a < length b ∨ (length a = length b ∧ lex_lt a b).

(** The number of combinations of sizes [0 .. k-1], for [k] beyond the
    length of the list: all of its sublists. *)
Definition count_upto {A} (l : list A) (k : nat) : nat :=
  list_sum (map (λ r, length (combinations l r)) (seq 0 k)).

(** The program in closed form.  [lb j] is the lower bound of weight [j];
    [gamble_calls], [gamble_puts] are the coefficient tables and
    [price_calls], [price_puts] the market prices the residuals are taken
    against. *)
Definition Qsum (l : list Q) : Q := fold_right Qplus 0%Q l.

Definition coef (gamble : gmap (nat * nat) Q) (i j : nat) : Q :=
  default 0%Q (gamble !! (i, j)).

Definition model_price (gamble : gmap (nat * nat) Q) (I_vars : list nat)
    (R : Q) (a : var → Q) (i : nat) : Q :=
  (Qsum (map (λ j, coef gamble i j * a (Var_m j)) I_vars) / R)%Q.

Record program (lb : nat → Q) (I_vars : list nat)
    (gamble_calls gamble_puts : gmap (nat * nat) Q)
    (price_calls price_puts : list Q) (R : Q) (a : var → Q) : Prop := {
  program_bounds : ∀ j, j ∈ I_vars → (lb j <= a (Var_m j))%Q;
  program_norm : (Qsum (map (λ j, a (Var_m j)) I_vars) == 1)%Q;
  program_calls : ∀ i p, price_calls !! i = Some p →
    (a (Var_ec i) == (model_price gamble_calls I_vars R a i - p) ^ 2)%Q;
  program_puts : ∀ i p, price_puts !! i = Some p →
    (a (Var_ep i) == (model_price gamble_puts I_vars R a i - p) ^ 2)%Q;
  program_err :
    (a Var_err == Qsum (map (λ i, a (Var_ec i)) (seq 0 (length price_calls)))
                  + Qsum (map (λ i, a (Var_ep i)) (seq 0 (length price_puts))))%Q
}.

(** The total squared pricing error of the weights of an assignment. *)
Definition squared_error (I_vars : list nat)
    (gamble_calls gamble_puts : gmap (nat * nat) Q)
    (price_calls price_puts : list Q) (R : Q) (a : var → Q) : Q :=
  (Qsum (map (λ i, (model_price gamble_calls I_vars R a i
                    - nth i price_calls 0) ^ 2)
             (seq 0 (length price_calls)))
   + Qsum (map (λ i, (model_price gamble_puts I_vars R a i
                      - nth i price_puts 0) ^ 2)
               (seq 0 (length price_puts))))%Q.

(** The lower bound by subset: [epsilon] for a singleton, 0 otherwise. *)
Definition lb_of (d_pw : gmap nat (list nat)) (j : nat) : Q :=
  match d_pw !! j with
  | Some s => if decide (length s = 1) then epsilon else 0%Q
  | None => 0%Q
  end.

(** The price tables of the model: the [alpha_p] column rounded to six
    decimals. *)
Definition rounded_prices (alpha : Q) (STOCK : list quote) : list Q :=
  map (λ q, py_round (alpha_p alpha q) 6) STOCK.

(** The [alpha_p] column itself. *)
Definition mixed_prices (alpha : Q) (STOCK : list quote) : list Q :=
  map (alpha_p alpha) STOCK.

(** A one-state market with one call quote, mixed with [alpha = 1/3]: the
    mixed price 1/3 * 1 + 2/3 * 2 = 5/3 has no finite decimal expansion. *)
Definition third_calls : list quote := [{| strike := 130; bid := 1; ask := 2 |}].

Definition third_assignment (v : var) : Q :=
  match v with
  | Var_m 0 => 1
  | Var_ec 0 | Var_err => (20 - (1666667 # 1000000)) ^ 2
  | _ => 0
  end%Q.

(** A put struck at 310 quoted on the lattice [125, 175]. *)
Definition deep_puts : list quote := [{| strike := 310; bid := 180; ask := 190 |}].

(** A solver that reports an infeasible problem and loads nothing. *)
Definition infeasible_results : SolverResults :=
  {| solver_status := SolverStatus.warning;
     termination_condition := TerminationCondition.infeasible;
     loaded := λ _, None |}.

Definition infeasible_solver (model : ConcreteModel) : result SolverResults :=
  Ok infeasible_results.

(** A solver that reports optimal termination and loads [third_assignment]. *)
Definition third_results : SolverResults :=
  {| solver_status := SolverStatus.ok;
     termination_condition := TerminationCondition.optimal;
     loaded := λ v, Some (third_assignment v) |}.

Definition third_solver (model : ConcreteModel) : result SolverResults :=
  Ok third_results.

(** Entry [(i, j)] of a table holds the coefficient of row [i] and subset
    index [j]. *)
Definition filled (min_f max_f : list nat → Q → list Q → result Q)
    (alpha : Q) (d_pw : gmap nat (list nat)) (S1 : list Q)
    (STOCK : list quote) (g : gmap (nat * nat) Q) (i j : nat) : Prop :=
  ∃ q c, STOCK !! i = Some q
         ∧ alpha_gamble_entry min_f max_f alpha d_pw S1 (strike q) j = Ok c
         ∧ g !! (i, j) = Some c.

(** Case analysis on membership in a list given by its items. *)
Ltac elems H :=
  repeat (apply elem_of_cons in H as [-> | H]); try (now inversion H).

(** * Properties *)

(** ** Basic facts *)

Lemma Qltb_true (x y : Q) : Qltb x y = true ↔ (x < y)%Q.
Proof.
  unfold Qltb. rewrite negb_true_iff.
  destruct (Qle_bool y x) eqn:E.
  - apply Qle_bool_iff in E. split; [discriminate | intros H; lra].
  - split; [intros _ | reflexivity].
    destruct (Qlt_le_dec x y) as [H | H]; [exact H |].
    apply Qle_bool_iff in H. congruence.
Qed.

Lemma Qltb_false (x y : Q) : Qltb x y = false ↔ (y <= x)%Q.
Proof.
  unfold Qltb. rewrite negb_false_iff. apply Qle_bool_iff.
Qed.

Lemma py_max2_nonneg (x : Q) : (0 <= py_max2 x 0)%Q.
Proof.
  unfold py_max2. destruct (Qltb x 0) eqn:E; [lra |].
  now apply Qltb_false in E.
Qed.

Lemma py_max2_ge (x : Q) : (x <= py_max2 x 0)%Q.
Proof.
  unfold py_max2. destruct (Qltb x 0) eqn:E; [| lra].
  apply Qltb_true in E. lra.
Qed.

Lemma py_max2_le (x b : Q) : (0 <= b)%Q → (x <= b)%Q → (py_max2 x 0 <= b)%Q.
Proof. intros Hb Hx. unfold py_max2. now destruct (Qltb x 0). Qed.

Lemma bind_Ok {A B} (r : result A) (f : A → result B) (b : B) :
  r ≫= f = Ok b ↔ ∃ a, r = Ok a ∧ f a = Ok b.
Proof.
  destruct r as [a | e]; simpl.
  - split; [intros H; eauto | intros (a' & [= <-] & H); exact H].
  - split; [discriminate | intros (a' & [=] & _)].
Qed.

Lemma getitem_Ok {A} (l : list A) (i : nat) (x : A) :
  getitem l i = Ok x ↔ l !! i = Some x.
Proof.
  unfold getitem. destruct (l !! i); split; congruence.
Qed.

Lemma getitem_lt {A} (l : list A) (i : nat) :
  i < length l → ∃ x, getitem l i = Ok x ∧ l !! i = Some x.
Proof.
  intros Hi. destruct (lookup_lt_is_Some_2 l i Hi) as [x Hx].
  exists x. split; [now apply getitem_Ok | exact Hx].
Qed.

Lemma mapM_result_Ok {A B} (f : A → result B) (l : list A) (ys : list B) :
  mapM_result f l = Ok ys ↔ Forall2 (λ x y, f x = Ok y) l ys.
Proof.
  revert ys. induction l as [| x l IH]; intros ys; simpl.
  - split; [intros [= <-]; constructor | intros H; now inversion H].
  - rewrite bind_Ok. split.
    + intros (y & Hy & H). apply bind_Ok in H as (ys' & Hys & [= <-]).
      constructor; [exact Hy | now apply IH].
    + intros H. inversion H as [| ? y ? ys' Hy Hys]; subst.
      exists y. split; [exact Hy |]. apply bind_Ok.
      exists ys'. split; [now apply IH | reflexivity].
Qed.

Lemma mapM_result_total {A B} (f : A → result B) (l : list A) :
  (∀ x, x ∈ l → is_Ok (f x)) → is_Ok (mapM_result f l).
Proof.
  induction l as [| x l IH]; intros H; simpl.
  - now exists [].
  - destruct (H x) as [y Hy]; [left |].
    destruct IH as [ys Hys]; [intros z Hz; apply H; now right |].
    exists (y :: ys). rewrite Hy; simpl. now rewrite Hys.
Qed.

(** ** Payoff evaluator *)

Section Scan.

Variable payoff : nat → result Q.

Lemma scan_step_Ok (better : Q → Q → bool) (val : Q) (i : nat) (p : Q) :
  payoff i = Ok p →
  scan_step payoff better val i = Ok (if better p val then p else val).
Proof.
  intros Hp. unfold scan_step. rewrite Hp; simpl.
  now destruct (better p val).
Qed.

(** The downward scan returns the least of the start value and the
    payoffs. *)
Lemma scan_min (S : list nat) (ps : list Q) (init : Q) :
  payoffs payoff S = Ok ps →
  ∃ v, scan payoff (λ p val, Qltb p val) S init = Ok v
       ∧ (v = init ∨ v ∈ ps) ∧ (v <= init)%Q ∧ ∀ x, x ∈ ps → (v <= x)%Q.
Proof.
  unfold payoffs, scan. revert ps init.
  induction S as [| i S IH]; intros ps init Hps; simpl in *.
  - injection Hps as <-. exists init.
    repeat split; [now left | lra | intros x Hx; inversion Hx].
  - apply bind_Ok in Hps as (p & Hp & Hps).
    apply bind_Ok in Hps as (ps' & Hps' & [= <-]).
    rewrite (scan_step_Ok _ _ _ _ Hp); simpl.
    destruct (Qltb p init) eqn:E.
    + apply Qltb_true in E.
      destruct (IH ps' p Hps') as (v & Hv & Hin & Hle & Hall).
      exists v. repeat split; [exact Hv | | lra |].
      * right. destruct Hin as [-> | Hin]; [left | now right].
      * intros x Hx. apply elem_of_cons in Hx as [-> | Hx]; [exact Hle | now apply Hall].
    + apply Qltb_false in E.
      destruct (IH ps' init Hps') as (v & Hv & Hin & Hle & Hall).
      exists v. repeat split; [exact Hv | | exact Hle |].
      * destruct Hin as [-> | Hin]; [now left | right; now right].
      * intros x Hx. apply elem_of_cons in Hx as [-> | Hx]; [lra | now apply Hall].
Qed.

(** The upward scan returns the greatest of the start value and the
    payoffs. *)
Lemma scan_max (S : list nat) (ps : list Q) (init : Q) :
  payoffs payoff S = Ok ps →
  ∃ v, scan payoff (λ p val, Qltb val p) S init = Ok v
       ∧ (v = init ∨ v ∈ ps) ∧ (init <= v)%Q ∧ ∀ x, x ∈ ps → (x <= v)%Q.
Proof.
  unfold payoffs, scan. revert ps init.
  induction S as [| i S IH]; intros ps init Hps; simpl in *.
  - injection Hps as <-. exists init.
    repeat split; [now left | lra | intros x Hx; inversion Hx].
  - apply bind_Ok in Hps as (p & Hp & Hps).
    apply bind_Ok in Hps as (ps' & Hps' & [= <-]).
    rewrite (scan_step_Ok _ _ _ _ Hp); simpl.
    destruct (Qltb init p) eqn:E.
    + apply Qltb_true in E.
      destruct (IH ps' p Hps') as (v & Hv & Hin & Hle & Hall).
      exists v. repeat split; [exact Hv | | lra |].
      * right. destruct Hin as [-> | Hin]; [left | now right].
      * intros x Hx. apply elem_of_cons in Hx as [-> | Hx]; [exact Hle | now apply Hall].
    + apply Qltb_false in E.
      destruct (IH ps' init Hps') as (v & Hv & Hin & Hle & Hall).
      exists v. repeat split; [exact Hv | | exact Hle |].
      * destruct Hin as [-> | Hin]; [now left | right; now right].
      * intros x Hx. apply elem_of_cons in Hx as [-> | Hx]; [lra | now apply Hall].
Qed.

End Scan.

Lemma py_max_from_spec (l : list Q) (m : Q) :
  py_max_from m l ∈ m :: l ∧ ∀ x, x ∈ m :: l → (x <= py_max_from m l)%Q.
Proof.
  revert m. induction l as [| y l IH]; intros m; simpl.
  - split; [left |]. intros x Hx. apply list_elem_of_singleton in Hx as ->. lra.
  - destruct (IH (if Qltb m y then y else m)) as [Hin Hall]. split.
    + apply elem_of_cons in Hin as [-> | Hin].
      * destruct (Qltb m y); [right; left | left].
      * right. now right.
    + intros x Hx.
      assert (Hstep : (m <= py_max_from (if Qltb m y then y else m) l)%Q
                      ∧ (y <= py_max_from (if Qltb m y then y else m) l)%Q).
      { pose proof (Hall _ (list_elem_of_here _ _)) as H0.
        destruct (Qltb m y) eqn:E.
        - apply Qltb_true in E. split; lra.
        - apply Qltb_false in E. split; lra. }
      apply elem_of_cons in Hx as [-> | Hx]; [apply Hstep |].
      apply elem_of_cons in Hx as [-> | Hx]; [apply Hstep |].
      apply Hall. now right.
Qed.

Lemma py_max_spec (l : list Q) :
  l ≠ [] → ∃ M, py_max l = Ok M ∧ M ∈ l ∧ ∀ x, x ∈ l → (x <= M)%Q.
Proof.
  destruct l as [| x l]; [congruence | intros _].
  exists (py_max_from x l). split; [reflexivity |]. apply py_max_from_spec.
Qed.

Lemma py_min_from_spec (l : list Q) (m : Q) :
  py_min_from m l ∈ m :: l ∧ ∀ x, x ∈ m :: l → (py_min_from m l <= x)%Q.
Proof.
  revert m. induction l as [| y l IH]; intros m; simpl.
  - split; [left |]. intros x Hx. apply list_elem_of_singleton in Hx as ->. lra.
  - destruct (IH (if Qltb y m then y else m)) as [Hin Hall]. split.
    + apply elem_of_cons in Hin as [-> | Hin].
      * destruct (Qltb y m); [right; left | left].
      * right. now right.
    + intros x Hx.
      assert (Hstep : (py_min_from (if Qltb y m then y else m) l <= m)%Q
                      ∧ (py_min_from (if Qltb y m then y else m) l <= y)%Q).
      { pose proof (Hall _ (list_elem_of_here _ _)) as H0.
        destruct (Qltb y m) eqn:E.
        - apply Qltb_true in E. split; lra.
        - apply Qltb_false in E. split; lra. }
      apply elem_of_cons in Hx as [-> | Hx]; [apply Hstep |].
      apply elem_of_cons in Hx as [-> | Hx]; [apply Hstep |].
      apply Hall. now right.
Qed.

Lemma py_min_spec (l : list Q) :
  l ≠ [] → ∃ M, py_min l = Ok M ∧ M ∈ l ∧ ∀ x, x ∈ l → (M <= x)%Q.
Proof.
  destruct l as [| x l]; [congruence | intros _].
  exists (py_min_from x l). split; [reflexivity |]. apply py_min_from_spec.
Qed.

(** Over valid state indices every payoff is defined; each is the payoff
    formula at a lattice value. *)
Lemma payoffs_defined (f : Q → Q) (S : list nat) (S1 : list Q) :
  state_indices S S1 →
  ∃ ps, payoffs (λ i, x ← getitem S1 i; Ok (f x)) S = Ok ps
        ∧ length ps = length S
        ∧ ∀ p, p ∈ ps → ∃ x, x ∈ S1 ∧ p = f x.
Proof.
  unfold payoffs. induction S as [| i S IH]; intros Hv; simpl.
  - exists []. repeat split. intros p Hp. inversion Hp.
  - destruct (getitem_lt S1 i) as (x & Hx & Hlk); [apply Hv; left |].
    destruct IH as (ps & Hps & Hlen & Hall); [intros j Hj; apply Hv; now right |].
    exists (f x :: ps). rewrite Hx; simpl. rewrite Hps; simpl.
    repeat split; [now rewrite Hlen |].
    intros p Hp. apply elem_of_cons in Hp as [-> | Hp]; [| now apply Hall].
    exists x. split; [| reflexivity]. now apply list_elem_of_lookup_2 in Hlk.
Qed.

Lemma nonempty_elem {A} (l : list A) : 0 < length l → ∃ x, x ∈ l.
Proof. destruct l as [| x l]; simpl; [lia | exists x; left]. Qed.

Lemma state_indices_lattice_nonempty (S : list nat) (S1 : list Q) :
  S ≠ [] → state_indices S S1 → S1 ≠ [].
Proof.
  destruct S as [| i S]; [congruence |]. intros _ Hv ->.
  specialize (Hv i (list_elem_of_here _ _)). simpl in Hv. lia.
Qed.

(** [max_call] and [max_put] return the maximum payoff over the subset. *)
Lemma max_call_maximum (S : list nat) (K : Q) (S1 : list Q) :
  S ≠ [] → state_indices S S1 →
  returns_maximum (λ i, call_payoff i K S1) S (max_call S K S1).
Proof.
  intros Hne Hv. unfold call_payoff, max_call.
  destruct (payoffs_defined (λ x, py_max2 (x - K) 0) S S1 Hv)
    as (ps & Hps & Hlen & Hform).
  destruct (scan_max _ S ps 0%Q Hps) as (v & Hv' & Hin & H0 & Hall).
  exists ps, v. repeat split; [exact Hps | exact Hv' | | exact Hall].
  destruct Hin as [-> | Hin]; [| exists v; split; [exact Hin | reflexivity]].
  destruct (nonempty_elem ps) as [p Hp].
  { rewrite Hlen. destruct S; [congruence | simpl; lia]. }
  exists p. split; [exact Hp |].
  destruct (Hform p Hp) as (x & _ & ->).
  pose proof (py_max2_nonneg (x - K)). specialize (Hall _ Hp). lra.
Qed.

Lemma max_put_maximum (S : list nat) (K : Q) (S1 : list Q) :
  S ≠ [] → state_indices S S1 →
  returns_maximum (λ i, put_payoff i K S1) S (max_put S K S1).
Proof.
  intros Hne Hv. unfold put_payoff, max_put.
  destruct (payoffs_defined (λ x, py_max2 (K - x) 0) S S1 Hv)
    as (ps & Hps & Hlen & Hform).
  destruct (scan_max _ S ps 0%Q Hps) as (v & Hv' & Hin & H0 & Hall).
  exists ps, v. repeat split; [exact Hps | exact Hv' | | exact Hall].
  destruct Hin as [-> | Hin]; [| exists v; split; [exact Hin | reflexivity]].
  destruct (nonempty_elem ps) as [p Hp].
  { rewrite Hlen. destruct S; [congruence | simpl; lia]. }
  exists p. split; [exact Hp |].
  destruct (Hform p Hp) as (x & _ & ->).
  pose proof (py_max2_nonneg (K - x)). specialize (Hall _ Hp). lra.
Qed.

(** [min_call] returns the minimum call payoff over the subset when the
    strike and the lattice prices are not negative: then no call payoff
    exceeds the start value [max(S1)]. *)
Lemma min_call_minimum (S : list nat) (K : Q) (S1 : list Q) :
  S ≠ [] → state_indices S S1 → price_lattice S1 → (0 <= K)%Q →
  returns_minimum (λ i, call_payoff i K S1) S (min_call S K S1).
Proof.
  intros Hne Hv Hpos HK. unfold call_payoff, min_call.
  destruct (payoffs_defined (λ x, py_max2 (x - K) 0) S S1 Hv)
    as (ps & Hps & Hlen & Hform).
  destruct (py_max_spec S1) as (M & HM & HMin & HMall);
    [now apply (state_indices_lattice_nonempty S) |].
  rewrite HM; simpl.
  destruct (scan_min _ S ps M Hps) as (v & Hv' & Hin & H0 & Hall).
  exists ps, v. repeat split; [exact Hps | exact Hv' | | exact Hall].
  destruct Hin as [-> | Hin]; [| exists v; split; [exact Hin | reflexivity]].
  destruct (nonempty_elem ps) as [p Hp].
  { rewrite Hlen. destruct S; [congruence | simpl; lia]. }
  exists p. split; [exact Hp |].
  destruct (Hform p Hp) as (x & Hx & ->).
  specialize (Hall _ Hp). specialize (HMall _ Hx). specialize (Hpos _ Hx).
  assert (py_max2 (x - K) 0 <= M)%Q by (apply py_max2_le; lra).
  lra.
Qed.

(** [min_put] returns the minimum put payoff over the subset when the
    strike does not exceed the top of the lattice. *)
Lemma min_put_minimum (S : list nat) (K M : Q) (S1 : list Q) :
  S ≠ [] → state_indices S S1 → price_lattice S1 →
  py_max S1 = Ok M → (K <= M)%Q →
  returns_minimum (λ i, put_payoff i K S1) S (min_put S K S1).
Proof.
  intros Hne Hv Hpos HM HK. unfold put_payoff, min_put.
  destruct (payoffs_defined (λ x, py_max2 (K - x) 0) S S1 Hv)
    as (ps & Hps & Hlen & Hform).
  destruct (py_max_spec S1) as (M' & HM' & HMin & HMall);
    [now apply (state_indices_lattice_nonempty S) |].
  rewrite HM in HM'. injection HM' as <-.
  rewrite HM; simpl.
  destruct (scan_min _ S ps M Hps) as (v & Hv' & Hin & H0 & Hall).
  exists ps, v. repeat split; [exact Hps | exact Hv' | | exact Hall].
  destruct Hin as [-> | Hin]; [| exists v; split; [exact Hin | reflexivity]].
  destruct (nonempty_elem ps) as [p Hp].
  { rewrite Hlen. destruct S; [congruence | simpl; lia]. }
  exists p. split; [exact Hp |].
  destruct (Hform p Hp) as (x & Hx & ->).
  specialize (Hall _ Hp). pose proof (Hpos _ HMin) as HM0. specialize (Hpos _ Hx).
  assert (py_max2 (K - x) 0 <= M)%Q by (apply py_max2_le; lra).
  lra.
Qed.

Section MinMax.

Variable f : Q → Q.
Hypothesis f_nonneg : ∀ x, (0 <= f x)%Q.

(** Both scans of a non-negative payoff, started as the source starts
    them: the downward one from [max(S1)], the upward one from [0]. *)
Lemma scans_ordered (S : list nat) (S1 : list Q) :
  S ≠ [] → state_indices S S1 → price_lattice S1 →
  ∃ M lo hi,
    py_max S1 = Ok M
    ∧ scan (λ i, x ← getitem S1 i; Ok (f x)) (λ p val, Qltb p val) S M = Ok lo
    ∧ scan (λ i, x ← getitem S1 i; Ok (f x)) (λ p val, Qltb val p) S 0%Q = Ok hi
    ∧ (lo <= hi)%Q ∧ (0 <= lo)%Q ∧ (0 <= hi)%Q.
Proof.
  intros Hne Hv Hpos.
  destruct (payoffs_defined f S S1 Hv) as (ps & Hps & Hlen & Hform).
  destruct (py_max_spec S1) as (M & HM & HMin & HMall);
    [now apply (state_indices_lattice_nonempty S) |].
  destruct (scan_min _ S ps M Hps) as (lo & Hlo & Hlo_in & Hlo_init & Hlo_all).
  destruct (scan_max _ S ps 0%Q Hps) as (hi & Hhi & Hhi_in & Hhi_init & Hhi_all).
  exists M, lo, hi. repeat split; try assumption.
  - destruct (nonempty_elem ps) as [p Hp].
    { rewrite Hlen. destruct S; [congruence | simpl; lia]. }
    specialize (Hlo_all _ Hp). specialize (Hhi_all _ Hp). lra.
  - destruct Hlo_in as [-> | Hin]; [now apply Hpos |].
    destruct (Hform _ Hin) as (x & _ & ->). apply f_nonneg.
Qed.

End MinMax.

(** When every put payoff over the subset exceeds [max(S1)], the scan of
    [min_put] never leaves its start value. *)
Lemma min_put_returns_top (S : list nat) (K M : Q) (S1 : list Q) :
  state_indices S S1 → py_max S1 = Ok M →
  (∀ i x, i ∈ S → S1 !! i = Some x → (M < K - x)%Q) →
  min_put S K S1 = Ok M.
Proof.
  intros Hv HM Hdeep. unfold min_put. rewrite HM. cbn [mbind result_bind].
  unfold scan. induction S as [| i S IH]; [reflexivity |].
  destruct (getitem_lt S1 i) as (x & Hx & Hlk); [apply Hv; left |].
  assert (Hp : put_payoff i K S1 = Ok (py_max2 (K - x) 0))
    by (unfold put_payoff; now rewrite Hx).
  simpl. rewrite (scan_step_Ok _ _ _ _ _ Hp).
  assert (Hge : Qltb (py_max2 (K - x) 0) M = false).
  { apply Qltb_false. pose proof (py_max2_ge (K - x)).
    specialize (Hdeep i x (list_elem_of_here _ _) Hlk). lra. }
  rewrite Hge. cbn [mbind result_bind]. apply IH.
  - intros j Hj. apply Hv. now right.
  - intros j y Hj. apply Hdeep. now right.
Qed.

(** C1, evaluated where the code departs from it: a put struck at 310 on
    the lattice [125, 175], over the subset {0}.  The only payoff is
    310 - 125 = 185, but [min_put] starts its scan from max(S1) = 175, a
    value no payoff is below, and returns it: the result is not the minimum
    of the payoffs over the subset. *)
Theorem min_put_not_minimum_above_lattice :
  state_indices [0] [125; 175]%Q
  ∧ price_lattice [125; 175]%Q
  ∧ payoffs (λ i, put_payoff i 310 [125; 175]%Q) [0] = Ok [185%Q]
  ∧ min_put [0] 310 [125; 175]%Q = Ok 175%Q
  ∧ ¬ returns_minimum (λ i, put_payoff i 310 [125; 175]%Q) [0]
        (min_put [0] 310 [125; 175]%Q).
Proof.
  split; [intros i Hi; elems Hi; simpl; lia |].
  split; [intros x Hx; elems Hx; lra |].
  split; [reflexivity |]. split; [reflexivity |].
  intros (ps & v & Hps & Hv & (x & Hx & Heq) & _).
  vm_compute in Hps. vm_compute in Hv.
  injection Hps as <-. injection Hv as <-.
  elems Hx. revert Heq. unfold Qeq; simpl. lia.
Qed.

(** The four values are ordered and not negative. *)
Lemma payoff_bounds_ordered (S : list nat) (K : Q) (S1 : list Q) :
  S ≠ [] → state_indices S S1 → price_lattice S1 →
  ∃ lo_c hi_c lo_p hi_p,
    min_call S K S1 = Ok lo_c ∧ max_call S K S1 = Ok hi_c
    ∧ min_put S K S1 = Ok lo_p ∧ max_put S K S1 = Ok hi_p
    ∧ (lo_c <= hi_c)%Q ∧ (lo_p <= hi_p)%Q
    ∧ (0 <= lo_c)%Q ∧ (0 <= hi_c)%Q ∧ (0 <= lo_p)%Q ∧ (0 <= hi_p)%Q.
Proof.
  intros Hne Hv Hpos.
  destruct (scans_ordered (λ x, py_max2 (x - K) 0)
              (λ x, py_max2_nonneg (x - K)) S S1 Hne Hv Hpos)
    as (M & lo_c & hi_c & HM & Hlo_c & Hhi_c & Hc & Hc0 & Hc1).
  destruct (scans_ordered (λ x, py_max2 (K - x) 0)
              (λ x, py_max2_nonneg (K - x)) S S1 Hne Hv Hpos)
    as (M' & lo_p & hi_p & HM' & Hlo_p & Hhi_p & Hp & Hp0 & Hp1).
  rewrite HM in HM'. injection HM' as <-.
  exists lo_c, hi_c, lo_p, hi_p.
  unfold min_call, max_call, min_put, max_put, call_payoff, put_payoff.
  rewrite HM; simpl. repeat split; assumption.
Qed.

(** C8: over a non-empty subset of state indices of a price lattice,
    [min_call <= max_call], [min_put <= max_put], and the four values are
    not negative. *)
Theorem min_le_max_nonneg (S : list nat) (K : Q) (S1 : list Q) :
  S ≠ [] → state_indices S S1 → price_lattice S1 →
  ∃ lo_c hi_c lo_p hi_p,
    min_call S K S1 = Ok lo_c ∧ max_call S K S1 = Ok hi_c
    ∧ min_put S K S1 = Ok lo_p ∧ max_put S K S1 = Ok hi_p
    ∧ (lo_c <= hi_c)%Q ∧ (lo_p <= hi_p)%Q
    ∧ (0 <= lo_c)%Q ∧ (0 <= hi_c)%Q ∧ (0 <= lo_p)%Q ∧ (0 <= hi_p)%Q.
Proof. apply payoff_bounds_ordered. Qed.

Lemma min_le_max_nonneg_witness :
  ∃ lo_c hi_c lo_p hi_p,
    min_call [0; 1] 130 [125; 175]%Q = Ok lo_c
    ∧ max_call [0; 1] 130 [125; 175]%Q = Ok hi_c
    ∧ min_put [0; 1] 130 [125; 175]%Q = Ok lo_p
    ∧ max_put [0; 1] 130 [125; 175]%Q = Ok hi_p
    ∧ (lo_c <= hi_c)%Q ∧ (lo_p <= hi_p)%Q
    ∧ (0 <= lo_c)%Q ∧ (0 <= hi_c)%Q ∧ (0 <= lo_p)%Q ∧ (0 <= hi_p)%Q.
Proof.
  apply (min_le_max_nonneg [0; 1] 130 [125; 175]%Q).
  - discriminate.
  - intros i Hi. elems Hi; simpl; lia.
  - intros x Hx. elems Hx; lra.
Defined.

(** ** Rounding and [arange] *)

#[global] Instance Qltb_comp : Proper (Qeq ==> Qeq ==> eq) Qltb.
Proof. intros x x' Hx y y' Hy. unfold Qltb. now rewrite Hx, Hy. Qed.

#[global] Instance round_half_even_comp : Proper (Qeq ==> eq) round_half_even.
Proof.
  intros x y Hxy. unfold round_half_even.
  rewrite (Qfloor_comp x y Hxy).
  assert (Hr : (x - inject_Z (Qfloor y) == y - inject_Z (Qfloor y))%Q)
    by now rewrite Hxy.
  cbv zeta.
  rewrite (Qltb_comp _ _ Hr _ _ (Qeq_refl (1 # 2))).
  now rewrite (Qltb_comp _ _ (Qeq_refl (1 # 2)) _ _ Hr).
Qed.

#[global] Instance py_round_comp : Proper (Qeq ==> eq ==> eq) py_round.
Proof.
  intros x y Hxy d d' <-. unfold py_round.
  assert (H : (x * inject_Z (10 ^ Z.of_nat d) == y * inject_Z (10 ^ Z.of_nat d))%Q)
    by now rewrite Hxy.
  now rewrite H.
Qed.

Lemma round_half_even_Z (z : Z) : round_half_even (inject_Z z) = z.
Proof.
  unfold round_half_even. rewrite Qfloor_Z.
  assert (H : Qltb (inject_Z z - inject_Z z) (1 # 2) = true)
    by (apply Qltb_true; lra).
  now rewrite H.
Qed.

Lemma round_half_even_int (x : Q) (z : Z) :
  (x == inject_Z z)%Q → round_half_even x = z.
Proof. intros ->. apply round_half_even_Z. Qed.

(** [round(x, 0)] is an integer. *)
Lemma py_round_0 (x : Q) : (py_round x 0 == inject_Z (round_half_even x))%Q.
Proof.
  unfold py_round. change (inject_Z (10 ^ Z.of_nat 0)) with 1%Q.
  assert (H : (x * 1 == x)%Q) by ring.
  rewrite H. field.
Qed.

(** Rounding to one decimal leaves the halves of integers unchanged. *)
Lemma py_round_1_half (x : Q) (s : Z) :
  (x == inject_Z s / 2)%Q → (py_round x 1 == x)%Q.
Proof.
  intros Hx. unfold py_round. change (inject_Z (10 ^ Z.of_nat 1)) with 10%Q.
  assert (H : (x * 10 == inject_Z (5 * s))%Q).
  { rewrite Hx, inject_Z_mult. change (inject_Z 5) with 5%Q. field. }
  rewrite (round_half_even_int _ _ H), Hx, inject_Z_mult.
  change (inject_Z 5) with 5%Q. field.
Qed.

Lemma Qceiling_unique (x : Q) (z : Z) :
  (inject_Z (z - 1) < x)%Q → (x <= inject_Z z)%Q → Qceiling x = z.
Proof.
  intros Hlo Hhi.
  pose proof (Qle_ceiling x) as H1. pose proof (Qceiling_lt x) as H2.
  assert (Ha : (inject_Z (Qceiling x - 1) < inject_Z z)%Q) by lra.
  assert (Hb : (inject_Z (z - 1) < inject_Z (Qceiling x))%Q) by lra.
  rewrite <- Zlt_Qlt in Ha, Hb. lia.
Qed.

Lemma py_div_Ok (a b : Q) : ¬ (b == 0)%Q → py_div a b = Ok (a / b)%Q.
Proof.
  intros Hb. unfold py_div.
  destruct (Qeq_bool b 0) eqn:E; [| reflexivity].
  now apply Qeq_bool_iff in E.
Qed.

Lemma py_div_zero (a b : Q) : (b == 0)%Q → py_div a b = Raise ZeroDivisionError.
Proof.
  intros Hb. unfold py_div. apply Qeq_bool_iff in Hb. now rewrite Hb.
Qed.

(** ** State-space discretizer *)

(** C2 as the code has it: when the rounded minimum equals the rounded
    maximum the bin width is 0 and no lattice is built, for any [n]: the
    division that gives the number of bin boundaries (or, for [n = 0], the
    one that gives the bin width) raises [ZeroDivisionError], and so does
    the calibration, whatever the quotes and the solver. *)
Theorem degenerate_range_raises (STOCK_stock : list Q) (n : nat)
    (S1_min S1_max : Q) :
  S1_min_of STOCK_stock = Ok S1_min →
  S1_max_of STOCK_stock = Ok S1_max →
  (S1_max == S1_min)%Q →
  S1_range_of STOCK_stock n = Raise ZeroDivisionError
  ∧ S1_of STOCK_stock n = Raise ZeroDivisionError
  ∧ ∀ solve alpha R STOCK_calls STOCK_puts,
      optimal_m solve n alpha R STOCK_stock STOCK_calls STOCK_puts
      = Raise ZeroDivisionError.
Proof.
  intros Hmin Hmax Heq.
  assert (Hrange : S1_range_of STOCK_stock n = Raise ZeroDivisionError).
  { unfold S1_range_of. rewrite Hmin, Hmax; simpl.
    destruct (Qeq_bool (inject_Z (Z.of_nat n)) 0) eqn:En.
    - unfold py_div. now rewrite En.
    - apply Qeq_bool_neq in En. rewrite (py_div_Ok _ _ En); simpl.
      unfold np_arange. rewrite py_div_zero; [reflexivity |].
      rewrite Heq. field. exact En. }
  assert (HS1 : S1_of STOCK_stock n = Raise ZeroDivisionError)
    by (unfold S1_of; now rewrite Hrange).
  split; [exact Hrange |]. split; [exact HS1 |].
  intros solve alpha R STOCK_calls STOCK_puts.
  unfold optimal_m, build_model. now rewrite HS1.
Qed.

Lemma degenerate_range_raises_witness :
  S1_range_of [100; 100]%Q 5 = Raise ZeroDivisionError
  ∧ S1_of [100; 100]%Q 5 = Raise ZeroDivisionError
  ∧ ∀ solve alpha R STOCK_calls STOCK_puts,
      optimal_m solve 5 alpha R [100; 100]%Q STOCK_calls STOCK_puts
      = Raise ZeroDivisionError.
Proof.
  apply (degenerate_range_raises [100; 100]%Q 5 (py_round 100 0) (py_round 100 0)).
  - reflexivity.
  - reflexivity.
  - reflexivity.
Defined.

(** A series of identical values is such a series. *)
Lemma constant_series_degenerate (STOCK_stock : list Q) (c : Q) :
  STOCK_stock ≠ [] → (∀ x, x ∈ STOCK_stock → (x == c)%Q) →
  S1_min_of STOCK_stock = Ok (py_round c 0)
  ∧ S1_max_of STOCK_stock = Ok (py_round c 0).
Proof.
  intros Hne Hc.
  destruct (py_min_spec _ Hne) as (lo & Hlo & Hlo_in & _).
  destruct (py_max_spec _ Hne) as (hi & Hhi & Hhi_in & _).
  unfold S1_min_of, S1_max_of. rewrite Hlo, Hhi. cbn [mbind result_bind].
  now rewrite (py_round_comp _ _ (Hc _ Hlo_in) 0 0 eq_refl),
    (py_round_comp _ _ (Hc _ Hhi_in) 0 0 eq_refl).
Qed.

(** C2 as stated fails on a constant series: the rounded minimum and
    maximum coincide, and the call raises [ZeroDivisionError], not
    [DegenerateRangeError]. *)
Lemma constant_series_not_DegenerateRangeError :
  S1_min_of [100; 100]%Q = S1_max_of [100; 100]%Q
  ∧ S1_of [100; 100]%Q 5 = Raise ZeroDivisionError
  ∧ S1_of [100; 100]%Q 5 ≠ Raise DegenerateRangeError.
Proof.
  split; [reflexivity |]. split; [reflexivity | discriminate].
Qed.

Lemma S1_min_of_int (STOCK_stock : list Q) (S1_min : Q) :
  S1_min_of STOCK_stock = Ok S1_min → ∃ z, (S1_min == inject_Z z)%Q.
Proof.
  unfold S1_min_of. intros H. apply bind_Ok in H as (a & _ & [= <-]).
  eexists. apply py_round_0.
Qed.

Lemma S1_max_of_int (STOCK_stock : list Q) (S1_max : Q) :
  S1_max_of STOCK_stock = Ok S1_max → ∃ z, (S1_max == inject_Z z)%Q.
Proof.
  unfold S1_max_of. intros H. apply bind_Ok in H as (a & _ & [= <-]).
  eexists. apply py_round_0.
Qed.

(** With one bin the boundaries are the rounded minimum and the rounded
    maximum. *)
Lemma single_bin_range (STOCK_stock : list Q) (S1_min S1_max : Q) :
  S1_min_of STOCK_stock = Ok S1_min →
  S1_max_of STOCK_stock = Ok S1_max →
  (S1_min < S1_max)%Q →
  ∃ b0 b1, S1_range_of STOCK_stock 1 = Ok [b0; b1]
           ∧ (b0 == S1_min)%Q ∧ (b1 == S1_max)%Q.
Proof.
  intros Hmin Hmax Hlt.
  destruct (S1_min_of_int _ _ Hmin) as [za Hza].
  destruct (S1_max_of_int _ _ Hmax) as [zb Hzb].
  assert (Hgap : (S1_min + 1 <= S1_max)%Q).
  { rewrite Hza, Hzb in Hlt |- *. rewrite <- Zlt_Qlt in Hlt.
    change 1%Q with (inject_Z 1). rewrite <- inject_Z_plus.
    rewrite <- Zle_Qle. lia. }
  unfold S1_range_of. rewrite Hmin, Hmax. cbn [mbind result_bind].
  change (inject_Z (Z.of_nat 1)) with 1%Q.
  rewrite py_div_Ok by (intros H; discriminate H). cbn [mbind result_bind].
  set (step := ((S1_max - S1_min) / 1)%Q).
  assert (Hstep : (step == S1_max - S1_min)%Q) by (unfold step; field).
  unfold np_arange. rewrite py_div_Ok by (rewrite Hstep; lra).
  cbn [mbind result_bind].
  assert (Hceil : Qceiling ((S1_max + 1 - S1_min) / step) = 2%Z).
  { apply Qceiling_unique.
    - change (inject_Z (2 - 1)) with 1%Q.
      apply Qlt_shift_div_l; [rewrite Hstep; lra |]. rewrite Hstep. lra.
    - change (inject_Z 2) with 2%Q.
      apply Qle_shift_div_r; [rewrite Hstep; lra |]. rewrite Hstep. lra. }
  rewrite Hceil. change (Z.to_nat 2) with 2%nat. cbn [seq map].
  eexists _, _. split; [reflexivity |].
  change (inject_Z (Z.of_nat 0)) with 0%Q.
  change (inject_Z (Z.of_nat 1)) with 1%Q.
  split; [ring | rewrite Hstep; ring].
Qed.

(** C3 as the code has it: with one bin, a series whose rounded minimum is
    below its rounded maximum gets exactly one representative value, the
    midpoint of the rounded minimum and the rounded maximum. *)
Theorem single_bin_midpoint (STOCK_stock : list Q) (S1_min S1_max : Q) :
  S1_min_of STOCK_stock = Ok S1_min →
  S1_max_of STOCK_stock = Ok S1_max →
  (S1_min < S1_max)%Q →
  ∃ v, S1_of STOCK_stock 1 = Ok [v] ∧ (v == (S1_min + S1_max) / 2)%Q.
Proof.
  intros Hmin Hmax Hlt.
  destruct (single_bin_range _ _ _ Hmin Hmax Hlt) as (b0 & b1 & Hr & Hb0 & Hb1).
  destruct (S1_min_of_int _ _ Hmin) as [za Hza].
  destruct (S1_max_of_int _ _ Hmax) as [zb Hzb].
  unfold S1_of. rewrite Hr. cbn.
  eexists. split; [reflexivity |].
  assert (Hmid : ((b1 + b0) / 2 == inject_Z (za + zb) / 2)%Q).
  { rewrite Hb0, Hb1, Hza, Hzb, inject_Z_plus. field. }
  rewrite (py_round_1_half _ _ Hmid), Hb0, Hb1. field.
Qed.

Lemma single_bin_midpoint_witness :
  ∃ v, S1_of [100; 200; 150]%Q 1 = Ok [v]
       ∧ (v == (py_round 100 0 + py_round 200 0) / 2)%Q.
Proof.
  apply (single_bin_midpoint [100; 200; 150]%Q (py_round 100 0) (py_round 200 0)).
  - reflexivity.
  - reflexivity.
  - reflexivity.
Defined.

(** C3 as stated fails on a series with minimum 100 and maximum 200: the
    single representative value is 150, the midpoint of (100, 200), while
    the midpoint of (100, 200 + 1) is 150.5. *)
Lemma single_bin_not_midpoint_of_max_plus_one :
  S1_min_of [100; 200]%Q = Ok (py_round 100 0)
  ∧ S1_max_of [100; 200]%Q = Ok (py_round 200 0)
  ∧ S1_of [100; 200]%Q 1 = Ok [py_round 150 1]
  ∧ (py_round 150 1 == 150)%Q
  ∧ ¬ (py_round 150 1 == (py_round 100 0 + (py_round 200 0 + 1)) / 2)%Q.
Proof.
  repeat split. intros H. vm_compute in H. discriminate H.
Qed.

(** ** Worked example *)

(** C9: for a series with minimum 100 and maximum 200 and [n = 2], the bin
    boundaries are [100, 150, 200], the lattice is [125, 175], the subsets
    are {0}, {1}, {0,1} under the indices 0, 1, 2, and for a call struck at
    130 the minimum over {0,1} is 0 and the maximum is 45. *)
Theorem worked_example (STOCK_stock : list Q) (lo hi : Q) :
  py_min STOCK_stock = Ok lo → py_max STOCK_stock = Ok hi →
  (lo == 100)%Q → (hi == 200)%Q →
  (∃ S1_range, S1_range_of STOCK_stock 2 = Ok S1_range
               ∧ Forall2 Qeq S1_range [100; 150; 200]%Q)
  ∧ (∃ S1, S1_of STOCK_stock 2 = Ok S1
           ∧ Forall2 Qeq S1 [125; 175]%Q
           ∧ ∃ pw, pw_of 2 = Ok pw
               ∧ pw = [[0]; [1]; [0; 1]]
               ∧ I_vars_of pw = [0; 1; 2]
               ∧ d_pw_of pw !! 0 = Some [0]
               ∧ d_pw_of pw !! 1 = Some [1]
               ∧ d_pw_of pw !! 2 = Some [0; 1]
               ∧ ∃ s lo_c hi_c,
                   getkey (d_pw_of pw) 2 = Ok s
                   ∧ min_call s 130 S1 = Ok lo_c ∧ (lo_c == 0)%Q
                   ∧ max_call s 130 S1 = Ok hi_c ∧ (hi_c == 45)%Q).
Proof.
  intros Hmin Hmax Hlo Hhi.
  assert (Hr : S1_range_of STOCK_stock 2 = S1_range_of [100; 200]%Q 2).
  { unfold S1_range_of, S1_min_of, S1_max_of. rewrite Hmin, Hmax.
    cbn [mbind result_bind].
    now rewrite (py_round_comp _ _ Hlo 0 0 eq_refl),
      (py_round_comp _ _ Hhi 0 0 eq_refl). }
  assert (Hs : S1_of STOCK_stock 2 = S1_of [100; 200]%Q 2)
    by (unfold S1_of; now rewrite Hr).
  split.
  - rewrite Hr. eexists. split; [vm_compute; reflexivity |].
    repeat constructor.
  - rewrite Hs. eexists. split; [vm_compute; reflexivity |].
    split; [repeat constructor |].
    eexists. split; [vm_compute; reflexivity |].
    repeat (split; [reflexivity |]).
    eexists _, _, _. split; [vm_compute; reflexivity |].
    split; [vm_compute; reflexivity |]. split; [reflexivity |].
    split; [vm_compute; reflexivity | reflexivity].
Qed.

Lemma worked_example_witness :
  (∃ S1_range, S1_range_of [150; 100; 200]%Q 2 = Ok S1_range
               ∧ Forall2 Qeq S1_range [100; 150; 200]%Q)
  ∧ (∃ S1, S1_of [150; 100; 200]%Q 2 = Ok S1
           ∧ Forall2 Qeq S1 [125; 175]%Q
           ∧ ∃ pw, pw_of 2 = Ok pw
               ∧ pw = [[0]; [1]; [0; 1]]
               ∧ I_vars_of pw = [0; 1; 2]
               ∧ d_pw_of pw !! 0 = Some [0]
               ∧ d_pw_of pw !! 1 = Some [1]
               ∧ d_pw_of pw !! 2 = Some [0; 1]
               ∧ ∃ s lo_c hi_c,
                   getkey (d_pw_of pw) 2 = Ok s
                   ∧ min_call s 130 S1 = Ok lo_c ∧ (lo_c == 0)%Q
                   ∧ max_call s 130 S1 = Ok hi_c ∧ (hi_c == 45)%Q).
Proof.
  apply (worked_example [150; 100; 200]%Q 100 200).
  - reflexivity.
  - reflexivity.
  - reflexivity.
  - reflexivity.
Defined.

(** ** Subset enumerator *)

Lemma lex_lt_irrefl (s : list nat) : ¬ lex_lt s s.
Proof.
  induction s as [| x s IH]; intros H; inversion H; subst; [lia | auto].
Qed.

Lemma subset_lt_irrefl (s : list nat) : ¬ subset_lt s s.
Proof.
  intros [H | [_ H]]; [lia | now apply lex_lt_irrefl in H].
Qed.

Lemma StronglySorted_NoDup {A} (R : relation A) (l : list A) :
  (∀ x, ¬ R x x) → StronglySorted R l → NoDup l.
Proof.
  intros Hirr. induction 1 as [| x l _ IH Hall]; constructor; [| exact IH].
  intros Hin. rewrite Forall_forall in Hall. now apply (Hirr x), Hall.
Qed.

Lemma StronglySorted_weaken {A} (R R' : relation A) (l : list A) :
  (∀ x y, x ∈ l → y ∈ l → R x y → R' x y) →
  StronglySorted R l → StronglySorted R' l.
Proof.
  intros Himp Hs. revert Himp.
  induction Hs as [| x l _ IH Hall]; intros Himp; constructor.
  - apply IH. intros a b Ha Hb. apply Himp; now right.
  - rewrite Forall_forall in Hall. rewrite Forall_forall. intros y Hy.
    apply Himp; [left | now right | now apply Hall].
Qed.

Lemma StronglySorted_map {A B} (f : A → B) (R : relation A) (R' : relation B)
    (l : list A) :
  (∀ x y, R x y → R' (f x) (f y)) →
  StronglySorted R l → StronglySorted R' (map f l).
Proof.
  intros Himp. induction 1 as [| x l _ IH Hall]; simpl; constructor; [exact IH |].
  rewrite Forall_forall in Hall. rewrite Forall_forall. intros y Hy.
  apply list_elem_of_In, in_map_iff in Hy as (a & <- & Ha).
  apply Himp, Hall. now apply list_elem_of_In.
Qed.

Lemma elem_of_map {A B} (f : A → B) (l : list A) (y : B) :
  y ∈ map f l ↔ ∃ x, y = f x ∧ x ∈ l.
Proof.
  rewrite list_elem_of_In, in_map_iff. split.
  - intros (x & <- & Hx). exists x. now rewrite list_elem_of_In.
  - intros (x & -> & Hx). exists x. now rewrite <- list_elem_of_In.
Qed.

Lemma elem_of_concat {A} (ls : list (list A)) (y : A) :
  y ∈ concat ls ↔ ∃ l, l ∈ ls ∧ y ∈ l.
Proof.
  rewrite list_elem_of_In, in_concat. split.
  - intros (l & Hl & Hy). exists l. now rewrite !list_elem_of_In.
  - intros (l & Hl & Hy). exists l. now rewrite <- !list_elem_of_In.
Qed.

Section Combinations.

Lemma combinations_0 {A} (l : list A) : combinations l 0 = [[]].
Proof. now destruct l. Qed.

Lemma combinations_1 {A} (l : list A) :
  combinations l 1 = map (λ x, [x]) l.
Proof.
  induction l as [| x l IH]; [reflexivity |].
  simpl. now rewrite combinations_0, IH.
Qed.

Lemma combinations_cons {A} (x : A) (l : list A) (r : nat) :
  combinations (x :: l) (S r)
  = map (cons x) (combinations l r) ++ combinations l (S r).
Proof. reflexivity. Qed.

Lemma elem_of_combinations_cons {A} (x : A) (l : list A) (r : nat) (s : list A) :
  s ∈ combinations (x :: l) (S r)
  ↔ (∃ s', s = x :: s' ∧ s' ∈ combinations l r) ∨ s ∈ combinations l (S r).
Proof.
  rewrite combinations_cons, elem_of_app, elem_of_map. reflexivity.
Qed.

(** A combination of [r] items has [r] items, all taken from [l]. *)
Lemma combinations_length {A} (l : list A) (r : nat) (s : list A) :
  s ∈ combinations l r → length s = r.
Proof.
  revert r s. induction l as [| x l IH]; intros [| r] s Hs.
  - apply list_elem_of_singleton in Hs as ->. reflexivity.
  - inversion Hs.
  - rewrite combinations_0 in Hs. apply list_elem_of_singleton in Hs as ->.
    reflexivity.
  - apply elem_of_combinations_cons in Hs as [(s' & -> & Hs') | Hs].
    + simpl. f_equal. now apply IH.
    + now apply IH.
Qed.

Lemma combinations_elem {A} (l : list A) (r : nat) (s : list A) (i : A) :
  s ∈ combinations l r → i ∈ s → i ∈ l.
Proof.
  revert r s. induction l as [| x l IH]; intros [| r] s Hs Hi.
  - apply list_elem_of_singleton in Hs as ->. inversion Hi.
  - inversion Hs.
  - rewrite combinations_0 in Hs. apply list_elem_of_singleton in Hs as ->.
    inversion Hi.
  - apply elem_of_combinations_cons in Hs as [(s' & -> & Hs') | Hs].
    + apply elem_of_cons in Hi as [-> | Hi]; [left | right; eauto].
    + right. eauto.
Qed.

Lemma combinations_overflow {A} (l : list A) (r : nat) :
  length l < r → combinations l r = [].
Proof.
  revert r. induction l as [| x l IH]; intros [| r] Hr; simpl in *; try lia.
  - reflexivity.
  - rewrite (IH r), (IH (S r)) by lia. reflexivity.
Qed.

(** The combinations of an increasing list are increasing lists, and come
    in lexicographic order. *)
Lemma combinations_increasing (l : list nat) (r : nat) (s : list nat) :
  StronglySorted lt l → s ∈ combinations l r → StronglySorted lt s.
Proof.
  intros Hl. revert r s. induction Hl as [| x l Hl IH Hx]; intros [| r] s Hs.
  - apply list_elem_of_singleton in Hs as ->. constructor.
  - inversion Hs.
  - rewrite combinations_0 in Hs. apply list_elem_of_singleton in Hs as ->.
    constructor.
  - apply elem_of_combinations_cons in Hs as [(s' & -> & Hs') | Hs]; [| eauto].
    constructor; [eauto |].
    rewrite Forall_forall in Hx. rewrite Forall_forall. intros i Hi.
    apply Hx. eapply combinations_elem; eauto.
Qed.

Lemma combinations_lex_sorted (l : list nat) (r : nat) :
  StronglySorted lt l → StronglySorted lex_lt (combinations l r).
Proof.
  intros Hl. revert r. induction Hl as [| x l Hl IH Hx]; intros [| r].
  - repeat constructor.
  - constructor.
  - rewrite combinations_0. repeat constructor.
  - rewrite combinations_cons. apply StronglySorted_app_2.
    + intros s t Hs Ht.
      apply elem_of_map in Hs as (s' & -> & Hs').
      destruct t as [| y t].
      { apply combinations_length in Ht. discriminate Ht. }
      apply lex_lt_head. rewrite Forall_forall in Hx. apply Hx.
      eapply combinations_elem; [exact Ht | left].
    + apply (StronglySorted_map _ lex_lt); [| apply IH].
      intros a b. apply lex_lt_tail.
    + apply IH.
Qed.

(** Every increasing list over the items of [l] is among the combinations
    of its length. *)
Lemma combinations_complete (l s : list nat) :
  StronglySorted lt l → StronglySorted lt s → (∀ i, i ∈ s → i ∈ l) →
  s ∈ combinations l (length s).
Proof.
  intros Hl. revert s. induction Hl as [| x l Hl IH Hx]; intros s Hs Hsub.
  - destruct s as [| y s]; [left |].
    specialize (Hsub y (list_elem_of_here _ _)). inversion Hsub.
  - destruct s as [| y s]; [rewrite combinations_0; left |].
    apply StronglySorted_inv in Hs as [Hs Hy].
    rewrite Forall_forall in Hx, Hy.
    simpl length. apply elem_of_combinations_cons.
    destruct (decide (y = x)) as [-> | Hne].
    + left. exists s. split; [reflexivity |]. apply IH; [exact Hs |].
      intros i Hi. specialize (Hy i Hi).
      specialize (Hsub i (list_elem_of_further _ _ _ Hi)).
      apply elem_of_cons in Hsub as [-> | Hsub]; [lia | exact Hsub].
    + right. assert (Hyl : y ∈ l).
      { specialize (Hsub y (list_elem_of_here _ _)).
        apply elem_of_cons in Hsub as [-> | Hsub]; [congruence | exact Hsub]. }
      specialize (Hx y Hyl).
      apply (IH (y :: s)).
      * constructor; [exact Hs | now apply Forall_forall].
      * intros i Hi. specialize (Hsub i Hi).
        apply elem_of_cons in Hsub as [-> | Hsub]; [| exact Hsub].
        apply elem_of_cons in Hi as [-> | Hi]; [lia |].
        specialize (Hy x Hi). lia.
Qed.

End Combinations.

Section Counting.

Context {A : Type}.

Lemma list_sum_map_add {B} (f g : B → nat) (l : list B) :
  list_sum (map (λ x, f x + g x) l) = list_sum (map f l) + list_sum (map g l).
Proof. induction l as [| x l IH]; simpl; lia. Qed.

Lemma count_upto_S (l : list A) (k : nat) :
  count_upto l (S k)
  = 1 + list_sum (map (λ r, length (combinations l (S r))) (seq 0 k)).
Proof.
  unfold count_upto. rewrite <- cons_seq, <- seq_shift. simpl map.
  rewrite map_map, combinations_0. reflexivity.
Qed.

Lemma count_upto_pow (l : list A) (k : nat) :
  length l < k → count_upto l k = 2 ^ length l.
Proof.
  revert k. induction l as [| x l IH]; intros k Hk.
  - destruct k as [| k]; [simpl in Hk; lia |].
    rewrite count_upto_S. simpl.
    assert (H0 : ∀ k', list_sum (map (λ _ : nat, 0) (seq 0 k')) = 0).
    { intros k'. generalize 0 at 2. induction k'; intros a; simpl; auto. }
    now rewrite H0.
  - destruct k as [| k]; [lia |]. simpl in Hk.
    rewrite count_upto_S.
    assert (Hsplit :
      list_sum (map (λ r, length (combinations (x :: l) (S r))) (seq 0 k))
      = count_upto l k
        + list_sum (map (λ r, length (combinations l (S r))) (seq 0 k))).
    { unfold count_upto. rewrite <- list_sum_map_add. f_equal.
      apply map_ext. intros r.
      now rewrite combinations_cons, length_app, length_map. }
    rewrite Hsplit.
    pose proof (count_upto_S l k) as HS.
    rewrite (IH k) by lia. rewrite (IH (S k)) in HS by lia.
    simpl. lia.
Qed.

Lemma length_powerset (l : list A) : length (powerset l) = 2 ^ length l.
Proof.
  unfold powerset. rewrite length_concat, map_map.
  apply count_upto_pow. lia.
Qed.

End Counting.

(** The subsets with the empty one removed: the combinations of sizes
    [1 .. n]. *)
Lemma pw_of_Ok (n : nat) :
  pw_of n = Ok (concat (map (combinations (seq 0 n)) (seq 1 n))).
Proof.
  unfold pw_of, powerset, I_singletons_of.
  rewrite length_seq, Nat.add_1_r, <- cons_seq. simpl map. simpl concat.
  now rewrite combinations_0.
Qed.

Lemma StronglySorted_seq (a n : nat) : StronglySorted lt (seq a n).
Proof.
  revert a. induction n as [| n IH]; intros a; simpl; constructor; [apply IH |].
  apply Forall_forall. intros i Hi. apply elem_of_seq in Hi. lia.
Qed.

(** Consecutive blocks of combinations are ordered by size, then
    lexicographically. *)
Lemma blocks_sorted (l : list nat) (a k : nat) :
  StronglySorted lt l →
  StronglySorted subset_lt (concat (map (combinations l) (seq a k))).
Proof.
  intros Hl. revert a. induction k as [| k IH]; intros a; simpl; [constructor |].
  apply StronglySorted_app_2; [| | apply IH].
  - intros s t Hs Ht. left.
    apply elem_of_concat in Ht as (b & Hb & Ht).
    apply elem_of_map in Hb as (r & -> & Hr).
    apply elem_of_seq in Hr.
    apply combinations_length in Hs, Ht. lia.
  - apply (StronglySorted_weaken lex_lt); [| now apply combinations_lex_sorted].
    intros s t Hs Ht Hst. right. split; [| exact Hst].
    apply combinations_length in Hs, Ht. congruence.
Qed.

Lemma elem_of_blocks (l : list nat) (a k : nat) (s : list nat) :
  s ∈ concat (map (combinations l) (seq a k))
  ↔ s ∈ combinations l (length s) ∧ a ≤ length s < a + k.
Proof.
  rewrite elem_of_concat. split.
  - intros (b & Hb & Hs). apply elem_of_map in Hb as (r & -> & Hr).
    apply elem_of_seq in Hr. pose proof (combinations_length _ _ _ Hs) as <-.
    split; [exact Hs | lia].
  - intros [Hs Hlen]. exists (combinations l (length s)). split; [| exact Hs].
    apply elem_of_map. exists (length s). split; [reflexivity |].
    apply elem_of_seq. lia.
Qed.

(** The index dict maps [j] to the [j]-th subset. *)
Lemma py_dict_zip_seq {A} (l : list A) (a : nat) (d : gmap nat A) (j : nat) :
  fold_left (λ d kv, <[kv.1 := kv.2]> d) (zip (seq a (length l)) l) d !! j
  = if decide (a ≤ j < a + length l) then l !! (j - a) else d !! j.
Proof.
  revert a d. induction l as [| x l IH]; intros a d; simpl.
  - case_decide; [lia | reflexivity].
  - rewrite IH. case_decide as H1; case_decide as H2; try lia.
    + replace (j - a) with (S (j - S a)) by lia. reflexivity.
    + assert (j = a) as -> by lia. rewrite lookup_insert_eq.
      now rewrite Nat.sub_diag.
    + rewrite lookup_insert_ne by lia. reflexivity.
Qed.

Lemma d_pw_of_lookup (pw : list (list nat)) (j : nat) :
  d_pw_of pw !! j = pw !! j.
Proof.
  unfold d_pw_of, py_dict, I_vars_of. rewrite py_dict_zip_seq.
  rewrite lookup_empty, Nat.sub_0_r.
  case_decide as H; [reflexivity |].
  symmetry. apply lookup_ge_None. lia.
Qed.

(** Increasing lists with the same items are the same list. *)
Lemma increasing_ext (s t : list nat) :
  StronglySorted lt s → StronglySorted lt t → (∀ i, i ∈ s ↔ i ∈ t) → s = t.
Proof.
  intros Hs Ht Hst.
  apply (StronglySorted_unique_strong lt); [intros; lia | exact Hs | exact Ht |].
  apply NoDup_Permutation; [| | exact Hst].
  - apply (StronglySorted_NoDup lt); [intros x; lia | exact Hs].
  - apply (StronglySorted_NoDup lt); [intros x; lia | exact Ht].
Qed.

Lemma lookup_map {A B} (f : A → B) (l : list A) (i : nat) :
  map f l !! i = f <$> l !! i.
Proof.
  revert i. induction l as [| x l IH]; intros [| i]; simpl; auto.
Qed.

Lemma elem_of_pw (n : nat) (s : list nat) :
  s ∈ concat (map (combinations (seq 0 n)) (seq 1 n))
  ↔ s ≠ [] ∧ StronglySorted lt s ∧ ∀ i, i ∈ s → i < n.
Proof.
  rewrite elem_of_blocks. split.
  - intros [Hs Hlen]. split; [intros ->; simpl in Hlen; lia |].
    split; [eapply combinations_increasing; [apply StronglySorted_seq | exact Hs] |].
    intros i Hi. pose proof (combinations_elem _ _ _ _ Hs Hi) as Hin.
    apply elem_of_seq in Hin. lia.
  - intros (Hne & Hs & Hlt).
    assert (Hin : s ∈ combinations (seq 0 n) (length s)).
    { apply combinations_complete; [apply StronglySorted_seq | exact Hs |].
      intros i Hi. apply elem_of_seq. specialize (Hlt i Hi). lia. }
    split; [exact Hin |]. split; [destruct s; [congruence | simpl; lia] |].
    destruct (decide (length s < 1 + n)) as [| Hge]; [assumption |].
    rewrite combinations_overflow in Hin by (rewrite length_seq; lia).
    inversion Hin.
Qed.

Lemma pw_of_length (n : nat) (pw : list (list nat)) :
  pw_of n = Ok pw → length pw = 2 ^ n - 1.
Proof.
  rewrite pw_of_Ok. intros [= <-].
  pose proof (length_powerset (seq 0 n)) as H.
  unfold powerset in H. rewrite length_seq, Nat.add_1_r, <- cons_seq in H.
  simpl map in H. simpl concat in H.
  rewrite combinations_0, length_app in H. simpl in H. lia.
Qed.

(** C5: the enumerator returns [2^n - 1] subsets.  Each is a non-empty
    increasing list of indices below [n]; different positions hold
    different sets; every such set is there; their union is all of
    [0 .. n-1]; the indices are [0 .. 2^n - 2], index [j] for the [j]-th
    subset; and the subsets come by increasing size, in lexicographic order
    within a size. *)
Theorem subset_enumerator (n : nat) :
  ∃ pw, pw_of n = Ok pw
    ∧ length pw = 2 ^ n - 1
    ∧ (∀ s, s ∈ pw → s ≠ [] ∧ StronglySorted lt s ∧ ∀ i, i ∈ s → i < n)
    ∧ (∀ j k s t, pw !! j = Some s → pw !! k = Some t →
                  (∀ i, i ∈ s ↔ i ∈ t) → j = k)
    ∧ (∀ s, s ≠ [] → StronglySorted lt s → (∀ i, i ∈ s → i < n) → s ∈ pw)
    ∧ (∀ i, i < n ↔ ∃ s, s ∈ pw ∧ i ∈ s)
    ∧ I_vars_of pw = seq 0 (2 ^ n - 1)
    ∧ (∀ j, d_pw_of pw !! j = pw !! j)
    ∧ StronglySorted subset_lt pw.
Proof.
  eexists. split; [apply pw_of_Ok |].
  set (pw := concat (map (combinations (seq 0 n)) (seq 1 n))).
  assert (Hlen : length pw = 2 ^ n - 1)
    by apply (pw_of_length n), pw_of_Ok.
  assert (Hsorted : StronglySorted subset_lt pw)
    by apply blocks_sorted, StronglySorted_seq.
  split; [exact Hlen |].
  split; [intros s Hs; now apply elem_of_pw |].
  split.
  { intros j k s t Hj Hk Hst.
    assert (s = t) as <-.
    { apply list_elem_of_lookup_2, elem_of_pw in Hj as (_ & Hs & _).
      apply list_elem_of_lookup_2, elem_of_pw in Hk as (_ & Ht & _).
      now apply increasing_ext. }
    eapply NoDup_lookup; [| exact Hj | exact Hk].
    eapply StronglySorted_NoDup; [apply subset_lt_irrefl | exact Hsorted]. }
  split; [intros s Hne Hs Hlt; now apply elem_of_pw |].
  split.
  { intros i. split.
    - intros Hi. exists [i]. split; [| left].
      apply elem_of_pw. split; [discriminate |].
      split; [repeat constructor |].
      intros k Hk. apply list_elem_of_singleton in Hk as ->. exact Hi.
    - intros (s & Hs & Hi). apply elem_of_pw in Hs as (_ & _ & Hlt). auto. }
  split; [unfold I_vars_of; now rewrite Hlen |].
  split; [apply d_pw_of_lookup | exact Hsorted].
Qed.

(** The first [n] subsets are the singletons in increasing order, and the
    later ones have at least two items. *)
Lemma pw_singletons (n : nat) :
  let pw := concat (map (combinations (seq 0 n)) (seq 1 n)) in
  (∀ k, k < n → pw !! k = Some [k])
  ∧ (∀ j s, pw !! j = Some s → n ≤ j → 2 ≤ length s).
Proof.
  destruct n as [| n]; [split; [intros k Hk; lia | intros j s Hj; inversion Hj] |].
  change (seq 1 (S n)) with (1 :: seq 2 n).
  rewrite map_cons, concat_cons, combinations_1.
  set (l := seq 0 (S n)).
  assert (Hl : length (map (λ x, [x]) l) = S n)
    by (unfold l; now rewrite length_map, length_seq).
  split.
  - intros k Hk. rewrite lookup_app_l by (rewrite Hl; exact Hk).
    rewrite lookup_map. unfold l. now rewrite lookup_seq_lt.
  - intros j s Hj Hge. rewrite lookup_app_r in Hj by (rewrite Hl; exact Hge).
    apply list_elem_of_lookup_2, elem_of_blocks in Hj. lia.
Qed.

Lemma BoundsIntializer_lt (n i : nat) :
  BoundsIntializer (I_singletons_of n) i
  = (if decide (i < n) then epsilon else 0%Q, None).
Proof.
  unfold BoundsIntializer, I_singletons_of. f_equal.
  case_decide as Hi.
  - assert (Hin : In i (seq 0 n)) by (apply in_seq; lia).
    apply (count_occ_In Nat.eq_dec) in Hin.
    destruct (count_occ Nat.eq_dec (seq 0 n) i); [lia | reflexivity].
  - assert (Hnin : ¬ In i (seq 0 n)) by (rewrite in_seq; lia).
    apply (count_occ_not_In Nat.eq_dec) in Hnin. now rewrite Hnin.
Qed.

Lemma pw_of_singleton_iff (n : nat) (pw : list (list nat)) (j : nat) (s : list nat) :
  pw_of n = Ok pw → d_pw_of pw !! j = Some s → (j < n ↔ length s = 1).
Proof.
  rewrite pw_of_Ok. intros [= <-] Hj.
  destruct (pw_singletons n) as [Hfirst Hlater].
  rewrite d_pw_of_lookup in Hj. split.
  - intros Hlt. rewrite (Hfirst j Hlt) in Hj. now injection Hj as <-.
  - intros Hone. destruct (decide (j < n)) as [| Hge]; [assumption |].
    specialize (Hlater j s Hj). lia.
Qed.

Lemma pw_of_bounds (n : nat) (pw : list (list nat)) (j : nat) (s : list nat) :
  pw_of n = Ok pw → d_pw_of pw !! j = Some s →
  BoundsIntializer (I_singletons_of n) j
  = (if decide (length s = 1) then epsilon else 0%Q, None).
Proof.
  intros Hpw Hj. rewrite BoundsIntializer_lt.
  pose proof (pw_of_singleton_iff n pw j s Hpw Hj) as Hiff.
  repeat case_decide; try reflexivity; tauto.
Qed.

(** ** Solver outcome *)

Lemma check_optimal_termination_true (status : SolverResults) :
  check_optimal_termination status = true
  ↔ solver_status status = SolverStatus.ok
    ∧ (termination_condition status = TerminationCondition.optimal
       ∨ termination_condition status = TerminationCondition.locallyOptimal
       ∨ termination_condition status = TerminationCondition.globallyOptimal).
Proof.
  unfold check_optimal_termination.
  destruct (solver_status status), (termination_condition status);
    split; try discriminate; try (intros [? [? | [? | ?]]]; discriminate);
    intros _; auto.
Qed.

Section CalibrationOutcome.

Variable solve : ConcreteModel → result SolverResults.
Variables (n : nat) (alpha R : Q).
Variables (STOCK_stock : list Q) (STOCK_calls STOCK_puts : list quote).

Local Abbreviation run :=
  (optimal_m solve n alpha R STOCK_stock STOCK_calls STOCK_puts).
Local Abbreviation built :=
  (build_model n alpha R STOCK_stock STOCK_calls STOCK_puts).

(** A returned triple comes from a solve that reported optimal
    termination, and holds the loaded values and the index dict. *)
Lemma optimal_m_Ok (opt_E : Q) (opt_m : gmap nat Q) (d_pw : gmap nat (list nat)) :
  run = Ok (opt_E, opt_m, d_pw) →
  ∃ model status,
    built = Ok (model, d_pw) ∧ solve model = Ok status
    ∧ check_optimal_termination status = true
    ∧ loaded status Var_err = Some opt_E.
Proof.
  unfold optimal_m. intros H.
  apply bind_Ok in H as ([model d] & Hb & H). simpl in H.
  apply bind_Ok in H as (status & Hs & H).
  apply bind_Ok in H as ([] & Ha & H).
  apply bind_Ok in H as (e & He & H).
  apply bind_Ok in H as (om & Hom & [= <- <- <-]).
  exists model, status. repeat split; try assumption.
  - unfold assert_optimal_termination in Ha.
    now destruct (check_optimal_termination status).
  - unfold build_model in Hb. 
    repeat (apply bind_Ok in Hb as (? & _ & Hb)).
    injection Hb as <- _. simpl in He.
    now destruct (loaded status Var_err); [injection He as -> |].
Qed.

(** C7: once the model is built and the solver has returned, a status
    that is not an optimal termination (infeasible and unbounded
    included) makes the call raise; and whatever triple the call returns
    was produced under an optimal termination. *)
Theorem non_optimal_never_returned (model : ConcreteModel)
    (d_pw : gmap nat (list nat)) (status : SolverResults) :
  built = Ok (model, d_pw) →
  solve model = Ok status →
  (check_optimal_termination status = false → run = Raise RuntimeError)
  ∧ (termination_condition status = TerminationCondition.infeasible
     ∨ termination_condition status = TerminationCondition.unbounded
     ∨ termination_condition status = TerminationCondition.infeasibleOrUnbounded
     ∨ termination_condition status = TerminationCondition.maxIterations
     ∨ solver_status status ≠ SolverStatus.ok →
     run = Raise RuntimeError)
  ∧ (∀ r, run = Ok r →
       check_optimal_termination status = true
       ∧ r.2 = d_pw
       ∧ loaded status Var_err = Some r.1.1).
Proof.
  intros Hb Hs.
  assert (Hfail : check_optimal_termination status = false → run = Raise RuntimeError).
  { intros Hc. unfold optimal_m. rewrite Hb. simpl.
    rewrite Hs. simpl. unfold assert_optimal_termination. now rewrite Hc. }
  split; [exact Hfail |]. split.
  - intros H. apply Hfail.
    destruct (check_optimal_termination status) eqn:E; [| reflexivity].
    apply check_optimal_termination_true in E as [Hok Hterm].
    destruct H as [H | [H | [H | [H | H]]]]; try congruence;
      rewrite H in Hterm; destruct Hterm as [? | [? | ?]]; discriminate.
  - intros [[opt_E opt_m] d] Hr.
    apply optimal_m_Ok in Hr as (model' & status' & Hb' & Hs' & Hc & He).
    rewrite Hb in Hb'. injection Hb' as <- <-.
    rewrite Hs in Hs'. injection Hs' as <-.
    simpl. auto.
Qed.

(** When the solver itself raises, so does the call. *)
Lemma solver_raise_propagates (model : ConcreteModel)
    (d_pw : gmap nat (list nat)) (e : exn) :
  built = Ok (model, d_pw) → solve model = Raise e → run = Raise e.
Proof.
  intros Hb Hs. unfold optimal_m. rewrite Hb. simpl.
  now rewrite Hs.
Qed.

End CalibrationOutcome.

(** ** The optimization program *)

Lemma eval_fold_Add (a : var → Q) (terms : list expr) (e0 : expr) :
  (eval a (fold_left Add terms e0) == eval a e0 + Qsum (map (eval a) terms))%Q.
Proof.
  revert e0. induction terms as [| t terms IH]; intros e0; simpl.
  - ring.
  - rewrite IH. simpl. ring.
Qed.

Lemma eval_py_sum (a : var → Q) (terms : list expr) :
  (eval a (py_sum terms) == Qsum (map (eval a) terms))%Q.
Proof. unfold py_sum. rewrite eval_fold_Add. simpl. ring. Qed.

Lemma Qsum_nonneg (l : list Q) : (∀ x, x ∈ l → (0 <= x)%Q) → (0 <= Qsum l)%Q.
Proof.
  induction l as [| x l IH]; intros H; simpl; [lra |].
  pose proof (H x (list_elem_of_here _ _)).
  assert (0 <= Qsum l)%Q by (apply IH; intros y Hy; apply H; now right).
  lra.
Qed.

Lemma Qsqr_nonneg' (x : Q) : (0 <= x ^ 2)%Q.
Proof. simpl. nra. Qed.

Lemma priced_gamble_eval (gamble : gmap (nat * nat) Q) (I_vars : list nat)
    (i : nat) (e : expr) (a : var → Q) :
  priced_gamble gamble I_vars i = Ok e →
  (eval a e == Qsum (map (λ j, coef gamble i j * a (Var_m j)) I_vars))%Q.
Proof.
  unfold priced_gamble. intros H.
  apply bind_Ok in H as (terms & Hterms & [= <-]).
  rewrite eval_py_sum. apply mapM_result_Ok in Hterms.
  induction Hterms as [| j t I_vars terms Hj _ IH]; simpl; [reflexivity |].
  rewrite IH. apply bind_Ok in Hj as (c & Hc & [= <-]).
  unfold getkey in Hc. unfold coef.
  destruct (gamble !! (i, j)) as [c' |]; [injection Hc as -> | discriminate].
  simpl. reflexivity.
Qed.

Lemma ConstrRuleCall_holds gamble price I_vars R i c (a : var → Q) :
  ConstrRuleCall gamble price I_vars R i = Ok c →
  ∃ p, price !! i = Some p
       ∧ (holds a c
          ↔ (a (Var_ec i) == (model_price gamble I_vars R a i - p) ^ 2)%Q).
Proof.
  unfold ConstrRuleCall. intros H.
  apply bind_Ok in H as (g & Hg & H).
  apply bind_Ok in H as (q & Hq & H).
  apply bind_Ok in H as (p & Hp & [= <-]).
  unfold expr_div in Hq.
  destruct (Qeq_bool R 0); [discriminate | injection Hq as <-].
  apply getitem_Ok in Hp. exists p. split; [exact Hp |].
  unfold holds, model_price. cbn [lhs rhs eval].
  now rewrite (priced_gamble_eval _ _ _ _ a Hg).
Qed.

Lemma ConstrRulePut_holds gamble price I_vars R i c (a : var → Q) :
  ConstrRulePut gamble price I_vars R i = Ok c →
  ∃ p, price !! i = Some p
       ∧ (holds a c
          ↔ (a (Var_ep i) == (model_price gamble I_vars R a i - p) ^ 2)%Q).
Proof.
  unfold ConstrRulePut. intros H.
  apply bind_Ok in H as (g & Hg & H).
  apply bind_Ok in H as (q & Hq & H).
  apply bind_Ok in H as (p & Hp & [= <-]).
  unfold expr_div in Hq.
  destruct (Qeq_bool R 0); [discriminate | injection Hq as <-].
  apply getitem_Ok in Hp. exists p. split; [exact Hp |].
  unfold holds, model_price. cbn [lhs rhs eval].
  now rewrite (priced_gamble_eval _ _ _ _ a Hg).
Qed.

(** A family of constraints built by a rule over [0 .. len-1] holds as a
    whole exactly when each residual equation does. *)
Lemma rule_family_holds (rule : nat → result constraint) (price : list Q)
    (residual : nat → Q → Prop) (a : var → Q) (cs : list constraint) :
  (∀ i c, rule i = Ok c →
     ∃ p, price !! i = Some p ∧ (holds a c ↔ residual i p)) →
  mapM_result rule (seq 0 (length price)) = Ok cs →
  Forall (holds a) cs ↔ ∀ i p, price !! i = Some p → residual i p.
Proof.
  intros Hrule Hcs. apply mapM_result_Ok in Hcs.
  rewrite Forall_lookup. split.
  - intros Hall i p Hp.
    assert (Hi : seq 0 (length price) !! i = Some i).
    { rewrite lookup_seq_lt; [reflexivity |]. now apply lookup_lt_Some in Hp. }
    destruct (Forall2_lookup_l _ _ _ _ _ Hcs Hi) as (c & Hc & Hr).
    destruct (Hrule _ _ Hr) as (p' & Hp' & Hiff).
    rewrite Hp in Hp'. injection Hp' as <-. apply Hiff. eauto.
  - intros Hres k c Hc.
    destruct (Forall2_lookup_r _ _ _ _ _ Hcs Hc) as (i & Hi & Hr).
    destruct (Hrule _ _ Hr) as (p & Hp & Hiff). apply Hiff. eauto.
Qed.

Lemma build_model_inv n alpha R STOCK_stock STOCK_calls STOCK_puts model d_pw :
  build_model n alpha R STOCK_stock STOCK_calls STOCK_puts = Ok (model, d_pw) →
  ∃ S1 pw c_calls c_puts,
    S1_of STOCK_stock n = Ok S1
    ∧ pw_of n = Ok pw
    ∧ d_pw = d_pw_of pw
    ∧ alpha_gamble_calls_of alpha d_pw S1 STOCK_calls
        (seq 0 (length STOCK_calls)) (I_vars_of pw)
      = Ok (model_alpha_gamble_calls model)
    ∧ alpha_gamble_puts_of alpha d_pw S1 STOCK_puts
        (seq 0 (length STOCK_puts)) (I_vars_of pw)
      = Ok (model_alpha_gamble_puts model)
    ∧ mapM_result
        (ConstrRuleCall (model_alpha_gamble_calls model)
           (rounded_prices alpha STOCK_calls) (I_vars_of pw) R)
        (seq 0 (length STOCK_calls)) = Ok c_calls
    ∧ mapM_result
        (ConstrRulePut (model_alpha_gamble_puts model)
           (rounded_prices alpha STOCK_puts) (I_vars_of pw) R)
        (seq 0 (length STOCK_puts)) = Ok c_puts
    ∧ model_I_vars model = I_vars_of pw
    ∧ model_alpha_price_calls model = rounded_prices alpha STOCK_calls
    ∧ model_alpha_price_puts model = rounded_prices alpha STOCK_puts
    ∧ model_m model = map (declare_m (I_singletons_of n)) (I_vars_of pw)
    ∧ model_ec model = map declare_free (seq 0 (length STOCK_calls))
    ∧ model_ep model = map declare_free (seq 0 (length STOCK_puts))
    ∧ model_err model
      = {| within := NonNegativeReals; lower := None; upper := None |}
    ∧ model_o model = (Var Var_err, minimize)
    ∧ model_c_norm model
      = {| lhs := py_sum (map (λ i, Var (Var_m i)) (I_vars_of pw));
           rhs := Const 1 |}
    ∧ model_c_calls model = c_calls
    ∧ model_c_puts model = c_puts
    ∧ model_c_err model
      = {| lhs := Var Var_err;
           rhs := Add (py_sum (map (λ i, Var (Var_ec i))
                                 (seq 0 (length STOCK_calls))))
                      (py_sum (map (λ i, Var (Var_ep i))
                                 (seq 0 (length STOCK_puts)))) |}.
Proof.
  unfold build_model. intros H.
  apply bind_Ok in H as (S1 & HS1 & H).
  apply bind_Ok in H as (pw & Hpw & H).
  apply bind_Ok in H as (gc & Hgc & H).
  apply bind_Ok in H as (gp & Hgp & H).
  apply bind_Ok in H as (c_calls & Hcc & H).
  apply bind_Ok in H as (c_puts & Hcp & H).
  injection H as <- <-.
  exists S1, pw, c_calls, c_puts. cbn.
  repeat split; assumption.
Qed.

Lemma in_bounds_lower (b x : Q) :
  (0 <= b)%Q →
  in_bounds {| within := NonNegativeReals; lower := Some b; upper := None |} x
  ↔ (b <= x)%Q.
Proof.
  intros Hb. unfold in_bounds; simpl. split.
  - intros (_ & Hl & _). now apply Hl.
  - intros Hx. split; [lra |]. split; [intros l [= <-]; exact Hx | discriminate].
Qed.

Lemma in_bounds_free (x : Q) :
  in_bounds {| within := NonNegativeReals; lower := None; upper := None |} x
  ↔ (0 <= x)%Q.
Proof.
  unfold in_bounds; simpl. split; [now intros [H _] |].
  intros H. split; [exact H |]. split; discriminate.
Qed.

Lemma Forall_declare_free (v : nat → var) (a : var → Q) (l : list nat) :
  Forall (λ d, in_bounds d.2 (a (v d.1))) (map declare_free l)
  ↔ ∀ i, i ∈ l → (0 <= a (v i))%Q.
Proof.
  rewrite Forall_forall. split.
  - intros H i Hi. apply (proj1 (in_bounds_free (a (v i)))).
    apply (H (declare_free i)), elem_of_map. eauto.
  - intros H d Hd. apply elem_of_map in Hd as (i & -> & Hi).
    apply (proj2 (in_bounds_free (a (v i)))). auto.
Qed.

Lemma epsilon_pos : (0 < epsilon)%Q.
Proof. reflexivity. Qed.

Lemma lb_of_nonneg (d_pw : gmap nat (list nat)) (j : nat) : (0 <= lb_of d_pw j)%Q.
Proof.
  unfold lb_of. destruct (d_pw !! j); [case_decide |]; try lra.
  pose proof epsilon_pos. lra.
Qed.

Lemma declare_m_lb (n : nat) (pw : list (list nat)) (j : nat) :
  pw_of n = Ok pw → j ∈ I_vars_of pw →
  declare_m (I_singletons_of n) j
  = (j, {| within := NonNegativeReals;
           lower := Some (lb_of (d_pw_of pw) j); upper := None |}).
Proof.
  intros Hpw Hj. unfold I_vars_of in Hj. apply elem_of_seq in Hj.
  destruct (lookup_lt_is_Some_2 pw j) as [s Hs]; [lia |].
  rewrite <- d_pw_of_lookup in Hs.
  unfold declare_m, lb_of. rewrite (pw_of_bounds n pw j s Hpw Hs), Hs.
  reflexivity.
Qed.

Lemma length_rounded_prices (alpha : Q) (STOCK : list quote) :
  length (rounded_prices alpha STOCK) = length STOCK.
Proof. unfold rounded_prices. apply length_map. Qed.

Lemma holds_c_norm (a : var → Q) (I_vars : list nat) :
  holds a {| lhs := py_sum (map (λ i, Var (Var_m i)) I_vars); rhs := Const 1 |}
  ↔ (Qsum (map (λ j, a (Var_m j)) I_vars) == 1)%Q.
Proof.
  unfold holds. cbn [lhs rhs eval]. now rewrite eval_py_sum, map_map.
Qed.

Lemma holds_c_err (a : var → Q) (I_calls I_puts : list nat) :
  holds a {| lhs := Var Var_err;
             rhs := Add (py_sum (map (λ i, Var (Var_ec i)) I_calls))
                        (py_sum (map (λ i, Var (Var_ep i)) I_puts)) |}
  ↔ (a Var_err == Qsum (map (λ i, a (Var_ec i)) I_calls)
                  + Qsum (map (λ i, a (Var_ep i)) I_puts))%Q.
Proof.
  unfold holds. cbn [lhs rhs eval]. now rewrite !eval_py_sum, !map_map.
Qed.

(** An error variable fixed to a squared residual is not negative. *)
Lemma residuals_nonneg (v : nat → var) (a : var → Q) (price : list Q)
    (f : nat → Q) (len : nat) :
  length price = len →
  (∀ i p, price !! i = Some p → (a (v i) == (f i - p) ^ 2)%Q) →
  ∀ i, i ∈ seq 0 len → (0 <= a (v i))%Q.
Proof.
  intros Hlen Hres i Hi. apply elem_of_seq in Hi.
  destruct (lookup_lt_is_Some_2 price i) as [p Hp]; [lia |].
  rewrite (Hres i p Hp). apply Qsqr_nonneg'.
Qed.

(** The structure of the model that [optimal_m] hands to the solver. *)
Lemma build_model_program n alpha R STOCK_stock STOCK_calls STOCK_puts
    model d_pw :
  build_model n alpha R STOCK_stock STOCK_calls STOCK_puts = Ok (model, d_pw) →
  model_I_vars model = seq 0 (2 ^ n - 1)
  ∧ (∀ j, j ∈ model_I_vars model → is_Some (d_pw !! j))
  ∧ model_m model
    = map (λ j, (j, {| within := NonNegativeReals;
                       lower := Some (lb_of d_pw j); upper := None |}))
          (model_I_vars model)
  ∧ model_o model = (Var Var_err, minimize)
  ∧ ∀ a, feasible model a
         ↔ program (lb_of d_pw) (model_I_vars model)
             (model_alpha_gamble_calls model) (model_alpha_gamble_puts model)
             (rounded_prices alpha STOCK_calls)
             (rounded_prices alpha STOCK_puts) R a.
Proof.
  intros Hb.
  destruct (build_model_inv _ _ _ _ _ _ _ _ Hb)
    as (S1 & pw & cc & cp & HS1 & Hpw & -> & Hgc & Hgp & Hcc & Hcp & HIv
        & Hpc & Hpp & Hm & Hec & Hep & Herr & Ho & Hnorm & Hccs & Hcps & Hcerr).
  assert (Hm' : model_m model
    = map (λ j, (j, {| within := NonNegativeReals;
                       lower := Some (lb_of (d_pw_of pw) j); upper := None |}))
          (model_I_vars model)).
  { rewrite Hm, HIv. apply map_ext_in. intros j Hj.
    apply declare_m_lb; [exact Hpw | now apply list_elem_of_In]. }
  split; [rewrite HIv; unfold I_vars_of; now rewrite (pw_of_length n pw Hpw) |].
  split.
  { intros j Hj. rewrite HIv in Hj. unfold I_vars_of in Hj.
    apply elem_of_seq in Hj. rewrite d_pw_of_lookup.
    apply lookup_lt_is_Some_2. lia. }
  split; [exact Hm' |]. split; [exact Ho |].
  intros a.
  assert (F1 : Forall (λ d, in_bounds d.2 (a (Var_m d.1))) (model_m model)
               ↔ ∀ j, j ∈ model_I_vars model
                      → (lb_of (d_pw_of pw) j <= a (Var_m j))%Q).
  { rewrite Hm', Forall_forall. split.
    - intros H j Hj.
      apply (proj1 (in_bounds_lower _ _ (lb_of_nonneg (d_pw_of pw) j))).
      apply (H (j, _)). apply elem_of_map. eauto.
    - intros H d Hd. apply elem_of_map in Hd as (j & -> & Hj).
      apply (proj2 (in_bounds_lower _ _ (lb_of_nonneg (d_pw_of pw) j))).
      simpl. auto. }
  assert (F6 : Forall (holds a) (model_c_calls model)
    ↔ ∀ i p, rounded_prices alpha STOCK_calls !! i = Some p →
        (a (Var_ec i)
         == (model_price (model_alpha_gamble_calls model) (model_I_vars model)
               R a i - p) ^ 2)%Q).
  { rewrite Hccs, HIv. rewrite <- (length_rounded_prices alpha) in Hcc.
    apply (rule_family_holds _ _ _ _ _ (λ i c, ConstrRuleCall_holds _ _ _ _ i c a) Hcc). }
  assert (F7 : Forall (holds a) (model_c_puts model)
    ↔ ∀ i p, rounded_prices alpha STOCK_puts !! i = Some p →
        (a (Var_ep i)
         == (model_price (model_alpha_gamble_puts model) (model_I_vars model)
               R a i - p) ^ 2)%Q).
  { rewrite Hcps, HIv. rewrite <- (length_rounded_prices alpha) in Hcp.
    apply (rule_family_holds _ _ _ _ _ (λ i c, ConstrRulePut_holds _ _ _ _ i c a) Hcp). }
  unfold feasible.
  rewrite F1, F6, F7, Hec, Hep, Herr, Hnorm, Hcerr, <- HIv.
  rewrite !Forall_declare_free, in_bounds_free, holds_c_norm, holds_c_err.
  rewrite <- !(length_rounded_prices alpha).
  split.
  - intros (Hbnd & _ & _ & _ & Hn & Hc & Hp & He). now constructor.
  - intros [Hbnd Hn Hc Hp He].
    pose proof (residuals_nonneg Var_ec a _ _ _ eq_refl Hc) as Hec0.
    pose proof (residuals_nonneg Var_ep a _ _ _ eq_refl Hp) as Hep0.
    repeat split; try assumption.
    rewrite He.
    assert (0 <= Qsum (map (λ i, a (Var_ec i))
                         (seq 0 (length (rounded_prices alpha STOCK_calls)))))%Q.
    { apply Qsum_nonneg. intros x Hx. apply elem_of_map in Hx as (i & -> & Hi). auto. }
    assert (0 <= Qsum (map (λ i, a (Var_ep i))
                         (seq 0 (length (rounded_prices alpha STOCK_puts)))))%Q.
    { apply Qsum_nonneg. intros x Hx. apply elem_of_map in Hx as (i & -> & Hi). auto. }
    lra.
Qed.

(** C10: the first [n] entries of the index map are the singletons
    {0}, ..., {n-1} in increasing order, no later entry is a singleton, and
    the lower bound of a weight is [epsilon] exactly when its subset is a
    singleton, and 0 otherwise: the bounds initializer returns it, every
    built model declares it for the weight variable of that index, with no
    upper bound, and every assignment the model admits respects it. *)
Theorem singletons_first (n : nat) :
  ∃ pw, pw_of n = Ok pw
    ∧ (∀ k, k < n → d_pw_of pw !! k = Some [k])
    ∧ (∀ j s, d_pw_of pw !! j = Some s → (j < n ↔ length s = 1))
    ∧ (∀ j s, d_pw_of pw !! j = Some s →
         BoundsIntializer (I_singletons_of n) j
         = (if decide (length s = 1) then epsilon else 0%Q, None))
    ∧ (∀ alpha R STOCK_stock STOCK_calls STOCK_puts model d_pw,
         build_model n alpha R STOCK_stock STOCK_calls STOCK_puts
         = Ok (model, d_pw) →
         d_pw = d_pw_of pw
         ∧ map fst (model_m model) = seq 0 (2 ^ n - 1)
         ∧ (∀ j vd, (j, vd) ∈ model_m model →
              ∃ s, d_pw !! j = Some s
                ∧ within vd = NonNegativeReals
                ∧ lower vd
                  = Some (if decide (length s = 1) then epsilon else 0%Q)
                ∧ upper vd = None
                ∧ (lower vd = Some epsilon ↔ j < n))
         ∧ (∀ a, feasible model a →
              ∀ j s, d_pw !! j = Some s →
                (lb_of d_pw j <= a (Var_m j))%Q
                ∧ lb_of d_pw j
                  = if decide (length s = 1) then epsilon else 0%Q)).
Proof.
  eexists. split; [apply pw_of_Ok |].
  destruct (pw_singletons n) as [Hfirst _].
  split; [intros k Hk; rewrite d_pw_of_lookup; now apply Hfirst |].
  split; [intros j s; apply pw_of_singleton_iff, pw_of_Ok |].
  split; [intros j s; apply pw_of_bounds, pw_of_Ok |].
  intros alpha R STOCK_stock STOCK_calls STOCK_puts model d_pw Hb.
  destruct (build_model_program _ _ _ _ _ _ _ _ Hb)
    as (HIv & Hkeys & Hm & _ & Hiff).
  destruct (build_model_inv _ _ _ _ _ _ _ _ Hb)
    as (_ & pw & _ & _ & _ & Hpw & Hd & _).
  pose proof Hpw as Hpw'. rewrite pw_of_Ok in Hpw'. injection Hpw' as Hpw'.
  rewrite Hpw'. split; [exact Hd |].
  split.
  { rewrite Hm, HIv, map_map. simpl. apply map_id. }
  split.
  - intros j vd Hin. rewrite Hm in Hin.
    apply elem_of_map in Hin as (j' & Heq & Hj'). injection Heq as <- ->.
    destruct (Hkeys j Hj') as [s Hs]. exists s.
    assert (Hlb : lb_of d_pw j = if decide (length s = 1) then epsilon else 0%Q)
      by (unfold lb_of; now rewrite Hs).
    simpl. rewrite Hlb.
    split; [exact Hs |]. split; [reflexivity |]. split; [reflexivity |].
    split; [reflexivity |].
    rewrite Hd in Hs.
    pose proof (pw_of_singleton_iff n pw j s Hpw Hs) as Hone.
    case_decide; split; intros H'; try tauto; discriminate H'.
  - intros a Hf j s Hs.
    apply Hiff in Hf as [Hbnd _ _ _ _].
    assert (Hj : j ∈ model_I_vars model).
    { rewrite HIv. apply elem_of_seq. split; [lia |]. simpl.
      rewrite Hd, d_pw_of_lookup in Hs. apply lookup_lt_Some in Hs.
      rewrite (pw_of_length n pw Hpw) in Hs. exact Hs. }
    split; [exact (Hbnd j Hj) |]. unfold lb_of. now rewrite Hs.
Qed.

Lemma singletons_first_witness :
  ∃ model d_pw,
    build_model 2 (1 # 2) 1 [100; 200]%Q third_calls deep_puts
    = Ok (model, d_pw)
    ∧ d_pw = d_pw_of [[0]; [1]; [0; 1]]
    ∧ map fst (model_m model) = seq 0 (2 ^ 2 - 1)
    ∧ ∀ j vd, (j, vd) ∈ model_m model →
        ∃ s, d_pw !! j = Some s
          ∧ within vd = NonNegativeReals
          ∧ lower vd = Some (if decide (length s = 1) then epsilon else 0%Q)
          ∧ upper vd = None
          ∧ (lower vd = Some epsilon ↔ j < 2).
Proof.
  destruct (singletons_first 2) as (pw & Hpw & _ & _ & _ & Hmodel).
  assert (Hpw2 : pw = [[0]; [1]; [0; 1]])
    by (vm_compute in Hpw; now injection Hpw as <-).
  assert (Hb : ∃ model d_pw,
    build_model 2 (1 # 2) 1 [100; 200]%Q third_calls deep_puts
    = Ok (model, d_pw)) by (eexists _, _; vm_compute; reflexivity).
  destruct Hb as (model & d_pw & Hb). exists model, d_pw.
  split; [exact Hb |].
  destruct (Hmodel _ _ _ _ _ _ _ Hb) as (Hd & Hkeys & Hdecl & _).
  rewrite Hpw2 in Hd.
  split; [exact Hd |]. split; [exact Hkeys |]. exact Hdecl.
Defined.

(** C4 as the code has it.  The model has one weight per subset index
    [0 .. 2^n - 2], each declared non-negative with lower bound [epsilon]
    if its subset is a singleton and 0 otherwise, and no upper bound; the
    objective minimizes the aggregate error variable; and an assignment is
    admitted exactly when the weights respect their lower bounds and sum to
    1, each call and put error variable equals the square of the discounted
    priced gamble minus the quote's mixed price rounded to six decimals, and
    the aggregate error is the sum of all the error variables. *)
Theorem optimization_program n alpha R STOCK_stock STOCK_calls STOCK_puts
    model d_pw :
  build_model n alpha R STOCK_stock STOCK_calls STOCK_puts = Ok (model, d_pw) →
  model_I_vars model = seq 0 (2 ^ n - 1)
  ∧ (∀ j, j ∈ model_I_vars model → is_Some (d_pw !! j))
  ∧ model_m model
    = map (λ j, (j, {| within := NonNegativeReals;
                       lower := Some (lb_of d_pw j); upper := None |}))
          (model_I_vars model)
  ∧ model_o model = (Var Var_err, minimize)
  ∧ ∀ a, feasible model a
         ↔ program (lb_of d_pw) (model_I_vars model)
             (model_alpha_gamble_calls model) (model_alpha_gamble_puts model)
             (rounded_prices alpha STOCK_calls)
             (rounded_prices alpha STOCK_puts) R a.
Proof. apply build_model_program. Qed.

Lemma third_model_built :
  ∃ model d_pw,
    build_model 1 (1 # 3) 1 [100; 200]%Q third_calls [] = Ok (model, d_pw).
Proof. eexists _, _. vm_compute. reflexivity. Qed.

Lemma optimization_program_witness :
  ∃ model d_pw,
    build_model 1 (1 # 3) 1 [100; 200]%Q third_calls [] = Ok (model, d_pw)
    ∧ model_I_vars model = seq 0 (2 ^ 1 - 1)
    ∧ (∀ j, j ∈ model_I_vars model → is_Some (d_pw !! j))
    ∧ model_m model
      = map (λ j, (j, {| within := NonNegativeReals;
                         lower := Some (lb_of d_pw j); upper := None |}))
            (model_I_vars model)
    ∧ model_o model = (Var Var_err, minimize)
    ∧ ∀ a, feasible model a
           ↔ program (lb_of d_pw) (model_I_vars model)
               (model_alpha_gamble_calls model) (model_alpha_gamble_puts model)
               (rounded_prices (1 # 3) third_calls)
               (rounded_prices (1 # 3) []) 1 a.
Proof.
  eexists _, _. split; [vm_compute; reflexivity |].
  apply (optimization_program 1 (1 # 3) 1 [100; 200]%Q third_calls []).
  vm_compute. reflexivity.
Defined.

(** C4 as stated fails there: the assignment with weight 1, call error
    (20 - 1.666667)^2 and the same aggregate error is admitted by the model,
    but its call error is not the squared distance to the mixed price 5/3
    itself. *)
Lemma program_not_against_mixed_prices :
  ∃ model d_pw,
    build_model 1 (1 # 3) 1 [100; 200]%Q third_calls [] = Ok (model, d_pw)
    ∧ feasible model third_assignment
    ∧ ¬ program (lb_of d_pw) (model_I_vars model)
          (model_alpha_gamble_calls model) (model_alpha_gamble_puts model)
          (mixed_prices (1 # 3) third_calls) (mixed_prices (1 # 3) []) 1
          third_assignment.
Proof.
  destruct third_model_built as (model & d_pw & Hb).
  exists model, d_pw. split; [exact Hb |].
  destruct (build_model_program _ _ _ _ _ _ _ _ Hb) as (_ & _ & _ & _ & Hiff).
  vm_compute in Hb. injection Hb as <- <-.
  split.
  - apply Hiff. constructor.
    + intros j Hj. elems Hj. vm_compute. discriminate.
    + vm_compute. reflexivity.
    + intros [| i] p Hp; [| destruct i; discriminate Hp].
      injection Hp as <-. vm_compute. reflexivity.
    + intros i p Hp. destruct i; discriminate Hp.
    + vm_compute. reflexivity.
  - intros [_ _ Hc _ _].
    specialize (Hc 0 _ eq_refl). vm_compute in Hc. discriminate Hc.
Qed.

(** ** Gamble builder *)

Section GambleBuilder.

Variables min_f max_f : list nat → Q → list Q → result Q.
Variables (alpha : Q) (d_pw : gmap nat (list nat)) (S1 : list Q).
Variable STOCK : list quote.

Local Abbreviation fill_row := (fill_row min_f max_f alpha d_pw S1).
Local Abbreviation filled := (filled min_f max_f alpha d_pw S1 STOCK).

Lemma fill_row_lookup (i : nat) (K : Q) (I_vars : list nat)
  (g0 g : gmap (nat * nat) Q) :
fill_row i K I_vars g0 = Ok g →
(∀ j, j ∈ I_vars →
   ∃ c, alpha_gamble_entry min_f max_f alpha d_pw S1 K j = Ok c
        ∧ g !! (i, j) = Some c)
∧ (∀ k, (∀ j, j ∈ I_vars → k ≠ (i, j)) → g !! k = g0 !! k).
Proof.
unfold fill_row. revert g0.
induction I_vars as [| j0 I_vars IH]; intros g0 H; simpl in H.
- injection H as <-. split; [intros j Hj; inversion Hj | reflexivity].
- apply bind_Ok in H as (g1 & Hg1 & H).
  apply bind_Ok in Hg1 as (c0 & Hc0 & [= <-]).
  destruct (IH _ H) as [Hin Hout]. split.
  + intros j Hj. destruct (decide (j ∈ I_vars)) as [Hj' | Hj'].
    * now apply Hin.
    * apply elem_of_cons in Hj as [-> | Hj]; [| contradiction].
      exists c0. split; [exact Hc0 |].
      rewrite Hout by (intros j Hj [= ->]; contradiction).
      apply lookup_insert_eq.
  + intros k Hk. rewrite Hout by (intros j Hj; apply Hk; now right).
    apply lookup_insert_ne. intros <-. apply (Hk j0); [left | reflexivity].
Qed.

Lemma fill_row_preserves (i' : nat) (q' : quote) (I_vars : list nat)
  (g0 g : gmap (nat * nat) Q) (i j : nat) :
STOCK !! i' = Some q' →
fill_row i' (strike q') I_vars g0 = Ok g →
filled g0 i j → filled g i j.
Proof.
intros Hq' H (q & c & Hq & Hc & Hg0).
destruct (fill_row_lookup _ _ _ _ _ H) as [Hin Hout].
exists q, c. split; [exact Hq |]. split; [exact Hc |].
destruct (decide (i' = i ∧ j ∈ I_vars)) as [[-> Hj] | Hno].
- destruct (Hin j Hj) as (c' & Hc' & Hg).
  rewrite Hq in Hq'. injection Hq' as <-.
  rewrite Hc in Hc'. now injection Hc' as <-.
- rewrite Hout; [exact Hg0 |]. intros j' Hj' [= <- <-]. tauto.
Qed.

Lemma fill_rows_preserve (I_rows I_vars : list nat)
  (g1 g : gmap (nat * nat) Q) (i j : nat) :
foldM (λ g i, q ← getitem STOCK i; fill_row i (strike q) I_vars g) I_rows g1
= Ok g →
filled g1 i j → filled g i j.
Proof.
revert g1. induction I_rows as [| i1 I_rows IH]; intros g1 H Hf; simpl in H.
- now injection H as <-.
- apply bind_Ok in H as (g2 & Hg2 & H).
  apply bind_Ok in Hg2 as (q1 & Hq1 & Hg2). apply getitem_Ok in Hq1.
  apply (IH _ H). eapply fill_row_preserves; eauto.
Qed.

(** After the loops every (row, subset index) pair holds its coefficient. *)
Lemma alpha_gamble_of_filled (I_rows I_vars : list nat) (g : gmap (nat * nat) Q) :
alpha_gamble_of min_f max_f alpha d_pw S1 STOCK I_rows I_vars = Ok g →
∀ i j, i ∈ I_rows → j ∈ I_vars → filled g i j.
Proof.
unfold alpha_gamble_of. generalize (∅ : gmap (nat * nat) Q) as g0.
induction I_rows as [| i0 I_rows IH]; intros g0 H i j Hi Hj; [inversion Hi |].
simpl in H. apply bind_Ok in H as (g1 & Hg1 & H).
apply bind_Ok in Hg1 as (q0 & Hq0 & Hg1).
apply getitem_Ok in Hq0. fold (fill_row i0 (strike q0) I_vars g0) in Hg1.
assert (Hrow : ∀ j, j ∈ I_vars → filled g1 i0 j).
{ intros j' Hj'. destruct (fill_row_lookup _ _ _ _ _ Hg1) as [Hin _].
  destruct (Hin j' Hj') as (c & Hc & Hg). now exists q0, c. }
assert (Hkeep : ∀ i j, filled g1 i j → filled g i j)
  by (intros i' j'; now apply (fill_rows_preserve I_rows I_vars)).
destruct (decide (i ∈ I_rows)) as [Hi' | Hi'].
- now apply (IH g1).
- apply elem_of_cons in Hi as [-> | Hi]; [| contradiction]. auto.
Qed.

End GambleBuilder.

(** What one coefficient is: the evaluator's minimum and maximum over the
    subset of the index, mixed by [alpha] and rounded to six decimals. *)
Lemma alpha_gamble_entry_Ok min_f max_f alpha (d_pw : gmap nat (list nat))
    S1 K j c :
  alpha_gamble_entry min_f max_f alpha d_pw S1 K j = Ok c
  ↔ ∃ s lo hi, d_pw !! j = Some s
       ∧ min_f s K S1 = Ok lo ∧ max_f s K S1 = Ok hi
       ∧ c = py_round (alpha * lo + (1 - alpha) * hi) 6.
Proof.
  unfold alpha_gamble_entry, getkey. split.
  - intros H. destruct (d_pw !! j) as [s |]; [| discriminate]. simpl in H.
    apply bind_Ok in H as (lo & Hlo & H).
    apply bind_Ok in H as (hi & Hhi & [= <-]). eauto 10.
  - intros (s & lo & hi & -> & Hlo & Hhi & ->). simpl.
    rewrite Hlo; simpl. now rewrite Hhi.
Qed.

(** The coefficient tables of a built model, entry by entry: for every
    quote row and subset index, [alpha] times what [min_call] ([min_put])
    returns for the subset plus [1 - alpha] times what [max_call]
    ([max_put]) returns, rounded to six decimals. *)
Lemma build_model_gambles n alpha R STOCK_stock STOCK_calls STOCK_puts
    model d_pw :
  build_model n alpha R STOCK_stock STOCK_calls STOCK_puts = Ok (model, d_pw) →
  ∃ S1, S1_of STOCK_stock n = Ok S1
    ∧ (∀ i j q, STOCK_calls !! i = Some q → j < 2 ^ n - 1 →
         ∃ s lo hi, d_pw !! j = Some s
           ∧ min_call s (strike q) S1 = Ok lo
           ∧ max_call s (strike q) S1 = Ok hi
           ∧ model_alpha_gamble_calls model !! (i, j)
             = Some (py_round (alpha * lo + (1 - alpha) * hi) 6))
    ∧ (∀ i j q, STOCK_puts !! i = Some q → j < 2 ^ n - 1 →
         ∃ s lo hi, d_pw !! j = Some s
           ∧ min_put s (strike q) S1 = Ok lo
           ∧ max_put s (strike q) S1 = Ok hi
           ∧ model_alpha_gamble_puts model !! (i, j)
             = Some (py_round (alpha * lo + (1 - alpha) * hi) 6)).
Proof.
  intros Hb.
  destruct (build_model_inv _ _ _ _ _ _ _ _ Hb)
    as (S1 & pw & cc & cp & HS1 & Hpw & -> & Hgc & Hgp & _).
  pose proof (pw_of_length n pw Hpw) as Hlen.
  exists S1. split; [exact HS1 |]. split.
  - intros i j q Hq Hj.
    destruct (alpha_gamble_of_filled _ _ _ _ _ _ _ _ _ Hgc i j)
      as (q' & c & Hq' & Hc & Hg).
    { apply elem_of_seq. apply lookup_lt_Some in Hq. lia. }
    { unfold I_vars_of. apply elem_of_seq. lia. }
    rewrite Hq in Hq'. injection Hq' as <-.
    apply alpha_gamble_entry_Ok in Hc as (s & lo & hi & Hs & Hlo & Hhi & ->).
    eauto 10.
  - intros i j q Hq Hj.
    destruct (alpha_gamble_of_filled _ _ _ _ _ _ _ _ _ Hgp i j)
      as (q' & c & Hq' & Hc & Hg).
    { apply elem_of_seq. apply lookup_lt_Some in Hq. lia. }
    { unfold I_vars_of. apply elem_of_seq. lia. }
    rewrite Hq in Hq'. injection Hq' as <-.
    apply alpha_gamble_entry_Ok in Hc as (s & lo & hi & Hs & Hlo & Hhi & ->).
    eauto 10.
Qed.

(** C6, evaluated where the code departs from it: [alpha = 1/2], the put
    struck at 310, the lattice [125, 175] and subset index 0, the subset
    {0}.  The only payoff over the subset is 185, so the mixture of the
    minimum and the maximum payoff is 185; the table holds
    1/2 * 175 + 1/2 * 185 = 180, because [min_put] returns 175. *)
Theorem put_coefficient_not_mixture_of_payoff_bounds :
  ∃ model d_pw S1 p c,
    build_model 2 (1 # 2) 1 [100; 200]%Q [] deep_puts = Ok (model, d_pw)
    ∧ S1_of [100; 200]%Q 2 = Ok S1
    ∧ d_pw !! 0 = Some [0]
    ∧ payoffs (λ i, put_payoff i 310 S1) [0] = Ok [p]
    ∧ (p == 185)%Q
    ∧ is_minimum [p] p ∧ is_maximum [p] p
    ∧ model_alpha_gamble_puts model !! (0, 0) = Some c
    ∧ (c == 180)%Q
    ∧ ¬ (c == py_round ((1 # 2) * p + (1 - (1 # 2)) * p) 6)%Q.
Proof.
  eexists _, _, _, _, _.
  split; [vm_compute; reflexivity |].
  split; [vm_compute; reflexivity |].
  split; [vm_compute; reflexivity |].
  split; [vm_compute; reflexivity |].
  split; [reflexivity |].
  split; [split; [eexists; split; [left | reflexivity] | intros x Hx; elems Hx; lra] |].
  split; [split; [eexists; split; [left | reflexivity] | intros x Hx; elems Hx; lra] |].
  split; [vm_compute; reflexivity |].
  split; [reflexivity |].
  intros H. vm_compute in H. discriminate H.
Qed.

Lemma non_optimal_never_returned_witness :
  (check_optimal_termination infeasible_results = false →
   optimal_m infeasible_solver 1 (1 # 3) 1 [100; 200]%Q third_calls []
   = Raise RuntimeError)
  ∧ (termination_condition infeasible_results = TerminationCondition.infeasible
     ∨ termination_condition infeasible_results = TerminationCondition.unbounded
     ∨ termination_condition infeasible_results
       = TerminationCondition.infeasibleOrUnbounded
     ∨ termination_condition infeasible_results
       = TerminationCondition.maxIterations
     ∨ solver_status infeasible_results ≠ SolverStatus.ok →
     optimal_m infeasible_solver 1 (1 # 3) 1 [100; 200]%Q third_calls []
     = Raise RuntimeError)
  ∧ (∀ r, optimal_m infeasible_solver 1 (1 # 3) 1 [100; 200]%Q third_calls []
          = Ok r →
       check_optimal_termination infeasible_results = true
       ∧ r.2 = d_pw_of [[0]]
       ∧ loaded infeasible_results Var_err = Some r.1.1).
Proof.
  eapply (non_optimal_never_returned infeasible_solver 1 (1 # 3) 1
            [100; 200]%Q third_calls [] _ (d_pw_of [[0]]) infeasible_results).
  - vm_compute. reflexivity.
  - reflexivity.
Defined.

(** ** The calibration reaches the solver *)

Lemma foldM_total {A B} (f : B → A → result B) (l : list A) (b : B) :
  (∀ b x, x ∈ l → ∃ b', f b x = Ok b') → ∃ b', foldM f l b = Ok b'.
Proof.
  revert b. induction l as [| x l IH]; intros b H; simpl; [eauto |].
  destruct (H b x) as [b1 Hb1]; [left |]. rewrite Hb1; simpl.
  apply IH. intros b0 y Hy. apply H. now right.
Qed.

Lemma mapM_result_length {A B} (f : A → result B) (l : list A) (ys : list B) :
  mapM_result f l = Ok ys → length ys = length l.
Proof.
  intros H. apply mapM_result_Ok in H. symmetry. exact (Forall2_length _ _ _ H).
Qed.

Lemma S1_of_length (STOCK_stock : list Q) (n : nat) (S1 : list Q) :
  S1_of STOCK_stock n = Ok S1 → length S1 = n.
Proof.
  unfold S1_of. intros H. apply bind_Ok in H as (S1_range & _ & H).
  apply mapM_result_length in H. now rewrite length_seq in H.
Qed.

(** A series whose rounded minimum is below its rounded maximum gets a
    lattice of [n] values. *)
Lemma S1_of_total (STOCK_stock : list Q) (n : nat) (S1_min S1_max : Q) :
  S1_min_of STOCK_stock = Ok S1_min →
  S1_max_of STOCK_stock = Ok S1_max →
  (S1_min < S1_max)%Q → 1 ≤ n →
  ∃ S1, S1_of STOCK_stock n = Ok S1 ∧ length S1 = n.
Proof.
  intros Hmin Hmax Hlt Hn.
  assert (Hn0 : (0 < inject_Z (Z.of_nat n))%Q).
  { change 0%Q with (inject_Z 0). rewrite <- Zlt_Qlt. lia. }
  unfold S1_of, S1_range_of. rewrite Hmin, Hmax. cbn [mbind result_bind].
  rewrite py_div_Ok by lra. cbn [mbind result_bind].
  set (step := ((S1_max - S1_min) / inject_Z (Z.of_nat n))%Q).
  assert (Hstep : (0 < step)%Q).
  { unfold step. apply Qlt_shift_div_l; [exact Hn0 | lra]. }
  unfold np_arange. rewrite py_div_Ok by lra. cbn [mbind result_bind].
  set (len := Z.to_nat (Qceiling ((S1_max + 1 - S1_min) / step))).
  assert (Hlen : n < len).
  { unfold len.
    assert (Hspan : (inject_Z (Z.of_nat n) < (S1_max + 1 - S1_min) / step)%Q).
    { apply Qlt_shift_div_l; [exact Hstep |].
      assert (Heq : (inject_Z (Z.of_nat n) * step == S1_max - S1_min)%Q)
        by (unfold step; field; lra).
      rewrite Heq. lra. }
    pose proof (Qle_ceiling ((S1_max + 1 - S1_min) / step)) as Hc.
    assert (Hz : (inject_Z (Z.of_nat n)
                  < inject_Z (Qceiling ((S1_max + 1 - S1_min) / step)))%Q) by lra.
    rewrite <- Zlt_Qlt in Hz. lia. }
  set (S1_range := map (λ i : nat, (S1_min + inject_Z (Z.of_nat i) * step)%Q)
                       (seq 0 len)).
  assert (Hrange : length S1_range = len)
    by (unfold S1_range; now rewrite length_map, length_seq).
  destruct (mapM_result_total
              (λ i, hi ← getitem S1_range (i + 1);
                    lo ← getitem S1_range i;
                    Ok (py_round ((hi + lo) / 2) 1)) (seq 0 n)) as [S1 HS1].
  { intros i Hi. apply elem_of_seq in Hi.
    destruct (getitem_lt S1_range (i + 1)) as (hi & Hhi & _); [lia |].
    destruct (getitem_lt S1_range i) as (lo & Hlo & _); [lia |].
    rewrite Hhi; simpl. rewrite Hlo; simpl. now eexists. }
  exists S1. split; [exact HS1 |].
  apply mapM_result_length in HS1. now rewrite length_seq in HS1.
Qed.

(** Over a lattice of [n] values the four scans return for every
    enumerated subset. *)
Lemma scans_total (n : nat) (pw : list (list nat)) (S1 : list Q) (s : list nat)
    (K : Q) :
  pw_of n = Ok pw → length S1 = n → s ∈ pw →
  (∃ v, min_call s K S1 = Ok v) ∧ (∃ v, max_call s K S1 = Ok v)
  ∧ (∃ v, min_put s K S1 = Ok v) ∧ (∃ v, max_put s K S1 = Ok v).
Proof.
  rewrite pw_of_Ok. intros [= <-] Hlen Hs.
  apply elem_of_pw in Hs as (Hne & _ & Hlt).
  assert (Hv : state_indices s S1) by (intros i Hi; rewrite Hlen; auto).
  destruct (py_max_spec S1) as (M & HM & _);
    [now apply (state_indices_lattice_nonempty s) |].
  destruct (payoffs_defined (λ x, py_max2 (x - K) 0) s S1 Hv) as (pc & Hpc & _).
  destruct (payoffs_defined (λ x, py_max2 (K - x) 0) s S1 Hv) as (pp & Hpp & _).
  destruct (scan_min _ s pc M Hpc) as (v1 & Hv1 & _).
  destruct (scan_max _ s pc 0%Q Hpc) as (v2 & Hv2 & _).
  destruct (scan_min _ s pp M Hpp) as (v3 & Hv3 & _).
  destruct (scan_max _ s pp 0%Q Hpp) as (v4 & Hv4 & _).
  unfold min_call, max_call, min_put, max_put, call_payoff, put_payoff.
  rewrite HM. cbn [mbind result_bind]. eauto 10.
Qed.

Lemma alpha_gamble_of_total min_f max_f alpha (pw : list (list nat)) S1
    (STOCK : list quote) :
  (∀ s K, s ∈ pw → (∃ v, min_f s K S1 = Ok v) ∧ (∃ v, max_f s K S1 = Ok v)) →
  ∃ g, alpha_gamble_of min_f max_f alpha (d_pw_of pw) S1 STOCK
         (seq 0 (length STOCK)) (I_vars_of pw) = Ok g.
Proof.
  intros Hscan. unfold alpha_gamble_of. apply foldM_total.
  intros g i Hi. apply elem_of_seq in Hi.
  destruct (getitem_lt STOCK i) as (q & Hq & _); [lia |].
  rewrite Hq. cbn [mbind result_bind]. unfold fill_row. apply foldM_total.
  intros g' j Hj. unfold I_vars_of in Hj. apply elem_of_seq in Hj.
  destruct (lookup_lt_is_Some_2 pw j) as [s Hs]; [lia |].
  destruct (Hscan s (strike q)) as [[lo Hlo] [hi Hhi]];
    [now apply list_elem_of_lookup_2 in Hs |].
  unfold alpha_gamble_entry, getkey. rewrite d_pw_of_lookup, Hs.
  cbn [mbind result_bind]. rewrite Hlo. cbn [mbind result_bind].
  rewrite Hhi. cbn [mbind result_bind]. now eexists.
Qed.

Lemma constraint_rules_total
    (min_f max_f : list nat → Q → list Q → result Q) (alpha : Q)
    (d_pw : gmap nat (list nat)) (S1 : list Q) (STOCK : list quote)
    (I_vars : list nat) (g : gmap (nat * nat) Q) (R : Q) :
  alpha_gamble_of min_f max_f alpha d_pw S1 STOCK
    (seq 0 (length STOCK)) I_vars = Ok g →
  ¬ (R == 0)%Q →
  (∃ cs, mapM_result (ConstrRuleCall g (rounded_prices alpha STOCK) I_vars R)
           (seq 0 (length STOCK)) = Ok cs)
  ∧ (∃ cs, mapM_result (ConstrRulePut g (rounded_prices alpha STOCK) I_vars R)
             (seq 0 (length STOCK)) = Ok cs).
Proof.
  intros Hg HR.
  assert (Hterms : ∀ i, i ∈ seq 0 (length STOCK) →
            ∃ e, priced_gamble g I_vars i = Ok e).
  { intros i Hi. unfold priced_gamble.
    destruct (mapM_result_total
      (λ j, c ← getkey g (i, j); Ok (Mul (Const c) (Var (Var_m j)))) I_vars)
      as [terms Hterms].
    - intros j Hj.
      destruct (alpha_gamble_of_filled _ _ _ _ _ _ _ _ _ Hg i j Hi Hj)
        as (q & c & _ & _ & Hc).
      unfold getkey. rewrite Hc. now eexists.
    - rewrite Hterms. now eexists. }
  assert (Hdiv : ∀ e, expr_div e R = Ok (Div e (Const R))).
  { intros e. unfold expr_div. destruct (Qeq_bool R 0) eqn:E; [| reflexivity].
    now apply Qeq_bool_iff in E. }
  assert (Hprice : ∀ i, i ∈ seq 0 (length STOCK) →
            ∃ p, getitem (rounded_prices alpha STOCK) i = Ok p).
  { intros i Hi. apply elem_of_seq in Hi.
    destruct (getitem_lt (rounded_prices alpha STOCK) i) as (p & Hp & _);
      [rewrite length_rounded_prices; lia | eauto]. }
  split; apply mapM_result_total; intros i Hi;
    destruct (Hterms i Hi) as [e He]; destruct (Hprice i Hi) as [p Hp];
    [unfold ConstrRuleCall | unfold ConstrRulePut];
    rewrite He; cbn [mbind result_bind]; rewrite Hdiv; cbn [mbind result_bind];
    rewrite Hp; cbn [mbind result_bind]; now eexists.
Qed.

(** Whenever the discretizer returns a lattice and [R] is not zero, the
    model is built and handed to the solver. *)
Lemma build_model_total n alpha R STOCK_stock STOCK_calls STOCK_puts S1 :
  S1_of STOCK_stock n = Ok S1 → ¬ (R == 0)%Q →
  ∃ model d_pw,
    build_model n alpha R STOCK_stock STOCK_calls STOCK_puts = Ok (model, d_pw).
Proof.
  intros HS1 HR. pose proof (S1_of_length _ _ _ HS1) as Hlen.
  pose proof (pw_of_Ok n) as Hpw.
  set (pw := concat (map (combinations (seq 0 n)) (seq 1 n))) in Hpw.
  destruct (alpha_gamble_of_total min_call max_call alpha pw S1 STOCK_calls)
    as [gc Hgc].
  { intros s K Hs. destruct (scans_total n pw S1 s K Hpw Hlen Hs)
      as (H1 & H2 & _). now split. }
  destruct (alpha_gamble_of_total min_put max_put alpha pw S1 STOCK_puts)
    as [gp Hgp].
  { intros s K Hs. destruct (scans_total n pw S1 s K Hpw Hlen Hs)
      as (_ & _ & H3 & H4). now split. }
  destruct (constraint_rules_total _ _ _ _ _ _ _ _ R Hgc HR) as [[cc Hcc] _].
  destruct (constraint_rules_total _ _ _ _ _ _ _ _ R Hgp HR) as [_ [cp Hcp]].
  unfold build_model. rewrite HS1. cbn [mbind result_bind].
  unfold pw_of in Hpw. rewrite Hpw. cbn [mbind result_bind].
  unfold alpha_gamble_calls_of, alpha_gamble_puts_of.
  rewrite Hgc. cbn [mbind result_bind]. rewrite Hgp. cbn [mbind result_bind].
  unfold rounded_prices in Hcc, Hcp.
  rewrite Hcc. cbn [mbind result_bind]. rewrite Hcp. cbn [mbind result_bind].
  now eexists _, _.
Qed.

(** ** The lattice of a positive series *)

Lemma round_half_even_floor (x : Q) :
  (Qfloor x <= round_half_even x <= Qfloor x + 1)%Z.
Proof.
  unfold round_half_even.
  repeat match goal with |- context [if ?b then _ else _] => destruct b end; lia.
Qed.

Lemma round_half_even_nonneg (x : Q) : (0 <= x)%Q → (0 <= round_half_even x)%Z.
Proof.
  intros Hx. pose proof (round_half_even_floor x).
  pose proof (Qfloor_resp_le _ _ Hx) as H0. change (Qfloor 0) with 0%Z in H0. lia.
Qed.

Lemma round_half_even_mono (x y : Q) :
  (x <= y)%Q → (round_half_even x <= round_half_even y)%Z.
Proof.
  intros Hxy. pose proof (Qfloor_resp_le _ _ Hxy) as Hf.
  pose proof (round_half_even_floor x). pose proof (round_half_even_floor y).
  destruct (Z.eq_dec (Qfloor x) (Qfloor y)) as [Heq | Hne]; [| lia].
  unfold round_half_even in *. rewrite Heq in *.
  set (f := Qfloor y) in *.
  destruct (Qltb (x - inject_Z f) (1 # 2)) eqn:E1;
    destruct (Qltb (y - inject_Z f) (1 # 2)) eqn:E2;
    destruct (Qltb (1 # 2) (x - inject_Z f)) eqn:E3;
    destruct (Qltb (1 # 2) (y - inject_Z f)) eqn:E4;
    destruct (Z.even f); try lia;
    rewrite ?Qltb_true, ?Qltb_false in *; lra.
Qed.

Lemma py_round_nonneg (x : Q) (d : nat) : (0 <= x)%Q → (0 <= py_round x d)%Q.
Proof.
  intros Hx. unfold py_round.
  assert (Hp : (0 < inject_Z (10 ^ Z.of_nat d))%Q).
  { change 0%Q with (inject_Z 0). rewrite <- Zlt_Qlt.
    apply Z.pow_pos_nonneg; lia. }
  apply Qle_shift_div_l; [exact Hp |]. rewrite Qmult_0_l.
  change 0%Q with (inject_Z 0). rewrite <- Zle_Qle.
  apply round_half_even_nonneg. nra.
Qed.

Lemma py_round_0_mono (x y : Q) :
  (x <= y)%Q → (py_round x 0 <= py_round y 0)%Q.
Proof.
  intros Hxy. rewrite !py_round_0, <- Zle_Qle. now apply round_half_even_mono.
Qed.

(** The lattice built from a series of positive prices is a price
    lattice. *)
Lemma S1_of_price_lattice (STOCK_stock : list Q) (n : nat) (S1 : list Q) :
  (∀ x, x ∈ STOCK_stock → (0 < x)%Q) →
  S1_of STOCK_stock n = Ok S1 → price_lattice S1.
Proof.
  intros Hpos H. unfold S1_of in H.
  apply bind_Ok in H as (S1_range & Hrange & HS1).
  unfold S1_range_of in Hrange.
  apply bind_Ok in Hrange as (S1_min & Hmin & Hrange).
  apply bind_Ok in Hrange as (S1_max & Hmax & Hrange).
  apply bind_Ok in Hrange as (step & Hstep & Hrange).
  unfold S1_min_of in Hmin. apply bind_Ok in Hmin as (lo & Hlo & [= <-]).
  unfold S1_max_of in Hmax. apply bind_Ok in Hmax as (hi & Hhi & [= <-]).
  assert (Hne : STOCK_stock ≠ []) by (intros ->; discriminate Hlo).
  destruct (py_min_spec _ Hne) as (lo' & Hlo' & Hlo_in & Hlo_le).
  destruct (py_max_spec _ Hne) as (hi' & Hhi' & Hhi_in & _).
  rewrite Hlo in Hlo'. injection Hlo' as <-.
  rewrite Hhi in Hhi'. injection Hhi' as <-.
  assert (Hmin0 : (0 <= py_round lo 0)%Q).
  { apply py_round_nonneg. specialize (Hpos _ Hlo_in). lra. }
  assert (Hord : (py_round lo 0 <= py_round hi 0)%Q)
    by (apply py_round_0_mono; auto).
  assert (Hstep0 : (0 <= step)%Q).
  { unfold py_div in Hstep.
    destruct (Qeq_bool (inject_Z (Z.of_nat n)) 0) eqn:En; [discriminate |].
    injection Hstep as <-. apply Qeq_bool_neq in En.
    assert (Hn : (0 < inject_Z (Z.of_nat n))%Q).
    { assert (Hn0 : (0 <= inject_Z (Z.of_nat n))%Q).
      { change 0%Q with (inject_Z 0). rewrite <- Zle_Qle. lia. }
      destruct (Qlt_le_dec 0 (inject_Z (Z.of_nat n))) as [| Hle]; [assumption |].
      exfalso. apply En. lra. }
    apply Qle_shift_div_l; [exact Hn | lra]. }
  assert (Hb : ∀ b, b ∈ S1_range → (0 <= b)%Q).
  { unfold np_arange in Hrange.
    apply bind_Ok in Hrange as (span & _ & [= <-]).
    intros b Hb. apply elem_of_map in Hb as (i & -> & _).
    assert (0 <= inject_Z (Z.of_nat i))%Q.
    { change 0%Q with (inject_Z 0). rewrite <- Zle_Qle. lia. }
    nra. }
  apply mapM_result_Ok in HS1.
  intros v Hv. apply list_elem_of_lookup_1 in Hv as [k Hk].
  destruct (Forall2_lookup_r _ _ _ _ _ HS1 Hk) as (i & _ & Hi).
  apply bind_Ok in Hi as (b1 & Hb1 & Hi).
  apply bind_Ok in Hi as (b0 & Hb0 & [= <-]).
  apply getitem_Ok, list_elem_of_lookup_2 in Hb1, Hb0.
  apply py_round_nonneg.
  specialize (Hb _ Hb1) as H1. specialize (Hb _ Hb0) as H0.
  apply Qle_shift_div_l; lra.
Qed.

(** On the lattice of a positive series, for every enumerated subset and
    every strike, the four scans return ordered, non-negative values. *)
Lemma enumerated_payoff_bounds (STOCK_stock : list Q) (n : nat) (S1 : list Q)
    (pw : list (list nat)) (s : list nat) (K : Q) :
  (∀ x, x ∈ STOCK_stock → (0 < x)%Q) →
  S1_of STOCK_stock n = Ok S1 → pw_of n = Ok pw → s ∈ pw →
  ∃ lo_c hi_c lo_p hi_p,
    min_call s K S1 = Ok lo_c ∧ max_call s K S1 = Ok hi_c
    ∧ min_put s K S1 = Ok lo_p ∧ max_put s K S1 = Ok hi_p
    ∧ (lo_c <= hi_c)%Q ∧ (lo_p <= hi_p)%Q
    ∧ (0 <= lo_c)%Q ∧ (0 <= hi_c)%Q ∧ (0 <= lo_p)%Q ∧ (0 <= hi_p)%Q.
Proof.
  intros Hpos HS1 Hpw Hs.
  pose proof (S1_of_length _ _ _ HS1) as Hlen.
  rewrite pw_of_Ok in Hpw. injection Hpw as <-.
  apply elem_of_pw in Hs as (Hne & _ & Hlt).
  apply payoff_bounds_ordered; [exact Hne | |].
  - intros i Hi. rewrite Hlen. auto.
  - eapply S1_of_price_lattice; eauto.
Qed.


(** * Further properties of the payoff evaluator *)

(** A payoff value over a subset is the payoff at one of its indices. *)
Lemma elem_of_payoffs (payoff : nat → result Q) (S : list nat) (ps : list Q)
    (v : Q) :
  payoffs payoff S = Ok ps → (v ∈ ps ↔ ∃ i, i ∈ S ∧ payoff i = Ok v).
Proof.
  unfold payoffs. intros H. apply mapM_result_Ok in H. split.
  - intros Hv. apply list_elem_of_lookup_1 in Hv as [k Hk].
    destruct (Forall2_lookup_r _ _ _ _ _ H Hk) as (i & Hi & Hp).
    exists i. split; [now apply list_elem_of_lookup_2 in Hi | exact Hp].
  - intros (i & Hi & Hp). apply list_elem_of_lookup_1 in Hi as [k Hk].
    destruct (Forall2_lookup_l _ _ _ _ _ H Hk) as (v' & Hv' & Hp').
    rewrite Hp in Hp'. injection Hp' as <-.
    now apply list_elem_of_lookup_2 in Hv'.
Qed.

(** Comparing two scans through their payoffs. *)
Lemma scan_min_le (pf pg : nat → result Q) (S T : list nat) (ps qs : list Q)
    (init vf vg : Q) :
  payoffs pf S = Ok ps → payoffs pg T = Ok qs →
  (∀ q, q ∈ qs → ∃ p, p ∈ ps ∧ (p <= q)%Q) →
  scan pf (λ p val, Qltb p val) S init = Ok vf →
  scan pg (λ p val, Qltb p val) T init = Ok vg →
  (vf <= vg)%Q.
Proof.
  intros Hps Hqs Hdom Hf Hg.
  destruct (scan_min pf S ps init Hps) as (vf' & Hf' & _ & Hf_init & Hf_all).
  destruct (scan_min pg T qs init Hqs) as (vg' & Hg' & Hg_in & _ & _).
  rewrite Hf in Hf'. injection Hf' as <-.
  rewrite Hg in Hg'. injection Hg' as <-.
  destruct Hg_in as [-> | Hin]; [exact Hf_init |].
  destruct (Hdom _ Hin) as (p & Hp & Hle). specialize (Hf_all _ Hp). lra.
Qed.

Lemma scan_max_le (pf pg : nat → result Q) (S T : list nat) (ps qs : list Q)
    (init vf vg : Q) :
  payoffs pf S = Ok ps → payoffs pg T = Ok qs →
  (∀ p, p ∈ ps → ∃ q, q ∈ qs ∧ (p <= q)%Q) →
  scan pf (λ p val, Qltb val p) S init = Ok vf →
  scan pg (λ p val, Qltb val p) T init = Ok vg →
  (vf <= vg)%Q.
Proof.
  intros Hps Hqs Hdom Hf Hg.
  destruct (scan_max pf S ps init Hps) as (vf' & Hf' & Hf_in & _ & _).
  destruct (scan_max pg T qs init Hqs) as (vg' & Hg' & _ & Hg_init & Hg_all).
  rewrite Hf in Hf'. injection Hf' as <-.
  rewrite Hg in Hg'. injection Hg' as <-.
  destruct Hf_in as [-> | Hin]; [exact Hg_init |].
  destruct (Hdom _ Hin) as (q & Hq & Hle). specialize (Hg_all _ Hq). lra.
Qed.

(** A scan over indices of which one is out of range raises [IndexError]. *)
Lemma scan_out_of_range (f : Q → Q) (better : Q → Q → bool) (S : list nat)
    (S1 : list Q) (init : Q) :
  ¬ state_indices S S1 →
  scan (λ i, x ← getitem S1 i; Ok (f x)) better S init = Raise IndexError.
Proof.
  unfold scan. revert init. induction S as [| i S IH]; intros init Hbad.
  - exfalso. apply Hbad. intros i Hi. inversion Hi.
  - simpl. destruct (decide (i < length S1)) as [Hi | Hi].
    + destruct (getitem_lt S1 i Hi) as (x & Hx & _).
      rewrite (scan_step_Ok _ better init i (f x)) by now rewrite Hx.
      cbn [mbind result_bind]. apply IH. intros Hv. apply Hbad.
      intros j Hj. apply elem_of_cons in Hj as [-> | Hj]; auto.
    + unfold scan_step, getitem.
      rewrite (lookup_ge_None_2 S1 i) by lia. reflexivity.
Qed.

Lemma scan_in_range (f : Q → Q) (better : Q → Q → bool) (S : list nat)
    (S1 : list Q) (init : Q) :
  state_indices S S1 →
  ∃ v, scan (λ i, x ← getitem S1 i; Ok (f x)) better S init = Ok v.
Proof.
  unfold scan. revert init. induction S as [| i S IH]; intros init Hv; simpl.
  - now eexists.
  - destruct (getitem_lt S1 i) as (x & Hx & _); [apply Hv; left |].
    rewrite (scan_step_Ok _ better init i (f x)) by now rewrite Hx.
    cbn [mbind result_bind]. apply IH. intros j Hj. apply Hv. now right.
Qed.

(** X1: the four scans return exactly when every index of the subset is in
    range (and, for the two minima, the lattice is not empty).  On an empty
    lattice the minima raise [ValueError]; otherwise an index out of range
    makes the scan raise [IndexError]. *)
Theorem scans_return_or_raise (S : list nat) (K : Q) (S1 : list Q) :
  (S1 = [] → min_call S K S1 = Raise ValueError
             ∧ min_put S K S1 = Raise ValueError)
  ∧ (state_indices S S1 →
       is_Ok (max_call S K S1) ∧ is_Ok (max_put S K S1)
       ∧ (S1 ≠ [] → is_Ok (min_call S K S1) ∧ is_Ok (min_put S K S1)))
  ∧ (¬ state_indices S S1 →
       max_call S K S1 = Raise IndexError ∧ max_put S K S1 = Raise IndexError
       ∧ (S1 ≠ [] → min_call S K S1 = Raise IndexError
                    ∧ min_put S K S1 = Raise IndexError)).
Proof.
  unfold min_call, max_call, min_put, max_put, call_payoff, put_payoff, is_Ok.
  split; [intros ->; split; reflexivity |]. split.
  - intros Hv. split; [apply scan_in_range, Hv |].
    split; [apply scan_in_range, Hv |]. intros Hne.
    destruct (py_max_spec S1 Hne) as (M & HM & _). rewrite HM.
    cbn [mbind result_bind]. split; apply scan_in_range, Hv.
  - intros Hbad. split; [now apply scan_out_of_range |].
    split; [now apply scan_out_of_range |]. intros Hne.
    destruct (py_max_spec S1 Hne) as (M & HM & _). rewrite HM.
    cbn [mbind result_bind]. split; now apply scan_out_of_range.
Qed.

(** X2: over a non-empty subset of state indices, [max_call] and [max_put]
    return the maximum of the payoffs over the subset, for every strike and
    every lattice. *)
Theorem max_scans_return_maximum (S : list nat) (K : Q) (S1 : list Q) :
  S ≠ [] → state_indices S S1 →
  returns_maximum (λ i, call_payoff i K S1) S (max_call S K S1)
  ∧ returns_maximum (λ i, put_payoff i K S1) S (max_put S K S1).
Proof.
  intros Hne Hv. split; [now apply max_call_maximum | now apply max_put_maximum].
Qed.

Lemma max_scans_return_maximum_witness :
  returns_maximum (λ i, call_payoff i 130 [125; 175]%Q) [0; 1]
    (max_call [0; 1] 130 [125; 175]%Q)
  ∧ returns_maximum (λ i, put_payoff i 130 [125; 175]%Q) [0; 1]
      (max_put [0; 1] 130 [125; 175]%Q).
Proof.
  apply (max_scans_return_maximum [0; 1] 130 [125; 175]%Q).
  - discriminate.
  - intros i Hi. elems Hi; simpl; lia.
Defined.

(** X3: over a non-empty subset of state indices of a price lattice and for
    a strike that is not negative, [min_call] returns the minimum of the call
    payoffs over the subset. *)
Theorem min_call_returns_minimum (S : list nat) (K : Q) (S1 : list Q) :
  S ≠ [] → state_indices S S1 → price_lattice S1 → (0 <= K)%Q →
  returns_minimum (λ i, call_payoff i K S1) S (min_call S K S1).
Proof. apply min_call_minimum. Qed.

Lemma min_call_returns_minimum_witness :
  returns_minimum (λ i, call_payoff i 130 [125; 175]%Q) [0; 1]
    (min_call [0; 1] 130 [125; 175]%Q).
Proof.
  apply (min_call_returns_minimum [0; 1] 130 [125; 175]%Q).
  - discriminate.
  - intros i Hi. elems Hi; simpl; lia.
  - intros x Hx. elems Hx; lra.
  - lra.
Defined.

(** X4: what [min_put] returns over a non-empty subset of state indices:
    a value below [max(S1)] and below every put payoff of the subset; the
    minimum payoff as soon as one payoff does not exceed [max(S1)]; and
    [max(S1)] itself when every payoff exceeds it. *)
Theorem min_put_returns (S : list nat) (K M : Q) (S1 : list Q) :
  S ≠ [] → state_indices S S1 → py_max S1 = Ok M →
  ∃ ps v,
    payoffs (λ i, put_payoff i K S1) S = Ok ps
    ∧ min_put S K S1 = Ok v
    ∧ (v <= M)%Q
    ∧ (∀ p, p ∈ ps → (v <= p)%Q)
    ∧ ((∃ p, p ∈ ps ∧ (p <= M)%Q) → is_minimum ps v)
    ∧ ((∀ p, p ∈ ps → (M < p)%Q) → v = M).
Proof.
  intros Hne Hv HM. unfold put_payoff, min_put.
  destruct (payoffs_defined (λ x, py_max2 (K - x) 0) S S1 Hv)
    as (ps & Hps & Hlen & _).
  rewrite HM. cbn [mbind result_bind].
  destruct (scan_min _ S ps M Hps) as (v & Hv' & Hin & HvM & Hall).
  exists ps, v.
  split; [exact Hps |]. split; [exact Hv' |]. split; [exact HvM |].
  split; [exact Hall |]. split.
  - intros (p & Hp & HpM). split; [| exact Hall].
    destruct Hin as [-> | Hin]; [| exists v; split; [exact Hin | reflexivity]].
    exists p. split; [exact Hp |]. specialize (Hall _ Hp). lra.
  - intros Hdeep. destruct Hin as [-> | Hin]; [reflexivity |].
    specialize (Hdeep _ Hin). lra.
Qed.

Lemma min_put_returns_witness :
  ∃ ps v,
    payoffs (λ i, put_payoff i 310 [125; 175]%Q) [0] = Ok ps
    ∧ min_put [0] 310 [125; 175]%Q = Ok v
    ∧ (v <= 175)%Q
    ∧ (∀ p, p ∈ ps → (v <= p)%Q)
    ∧ ((∃ p, p ∈ ps ∧ (p <= 175)%Q) → is_minimum ps v)
    ∧ ((∀ p, p ∈ ps → (175 < p)%Q) → v = 175%Q).
Proof.
  apply (min_put_returns [0] 310 175 [125; 175]%Q).
  - discriminate.
  - intros i Hi. elems Hi; simpl; lia.
  - reflexivity.
Defined.

Lemma py_max2_mono (x y : Q) : (x <= y)%Q → (py_max2 x 0 <= py_max2 y 0)%Q.
Proof.
  intros Hxy. unfold py_max2.
  destruct (Qltb x 0) eqn:Ex; destruct (Qltb y 0) eqn:Ey;
    rewrite ?Qltb_true, ?Qltb_false in *; lra.
Qed.

Section ScanOrder.

Variables (S1 : list Q) (M : Q).

Local Abbreviation payoff_of f := (λ i : nat, x ← getitem S1 i; Ok (f x)).
Local Abbreviation down f S := (scan (payoff_of f) (λ p val, Qltb p val) S M).
Local Abbreviation up f S := (scan (payoff_of f) (λ p val, Qltb val p) S 0%Q).

(** A larger subset has a smaller downward scan and a larger upward one. *)
Lemma scans_monotone_subset (f : Q → Q) (S T : list nat) :
  (∀ i, i ∈ S → i ∈ T) → state_indices T S1 →
  ∃ lo_S lo_T hi_S hi_T,
    down f S = Ok lo_S ∧ down f T = Ok lo_T
    ∧ up f S = Ok hi_S ∧ up f T = Ok hi_T
    ∧ (lo_T <= lo_S)%Q ∧ (hi_S <= hi_T)%Q.
Proof.
  intros Hsub HvT.
  assert (HvS : state_indices S S1) by (intros i Hi; auto).
  destruct (payoffs_defined f S S1 HvS) as (ps & Hps & _).
  destruct (payoffs_defined f T S1 HvT) as (qs & Hqs & _).
  destruct (scan_min _ S ps M Hps) as (lo_S & HloS & _).
  destruct (scan_min _ T qs M Hqs) as (lo_T & HloT & _).
  destruct (scan_max _ S ps 0%Q Hps) as (hi_S & HhiS & _).
  destruct (scan_max _ T qs 0%Q Hqs) as (hi_T & HhiT & _).
  assert (Hin : ∀ p, p ∈ ps → p ∈ qs).
  { intros p Hp. apply (elem_of_payoffs _ _ _ _ Hps) in Hp as (i & Hi & Hpi).
    apply (elem_of_payoffs _ _ _ _ Hqs). eauto. }
  exists lo_S, lo_T, hi_S, hi_T. repeat (split; [assumption |]). split.
  - eapply (scan_min_le _ _ T S qs ps); eauto.
    intros q Hq. exists q. split; [auto | lra].
  - eapply (scan_max_le _ _ S T ps qs); eauto.
    intros p Hp. exists p. split; [auto | lra].
Qed.

(** A pointwise smaller payoff has smaller scans. *)
Lemma scans_monotone_payoff (f g : Q → Q) (S : list nat) :
  (∀ x, (f x <= g x)%Q) → state_indices S S1 →
  ∃ lo_f lo_g hi_f hi_g,
    down f S = Ok lo_f ∧ down g S = Ok lo_g
    ∧ up f S = Ok hi_f ∧ up g S = Ok hi_g
    ∧ (lo_f <= lo_g)%Q ∧ (hi_f <= hi_g)%Q.
Proof.
  intros Hfg Hv.
  destruct (payoffs_defined f S S1 Hv) as (ps & Hps & _).
  destruct (payoffs_defined g S S1 Hv) as (qs & Hqs & _).
  destruct (scan_min _ S ps M Hps) as (lo_f & Hlof & _).
  destruct (scan_min _ S qs M Hqs) as (lo_g & Hlog & _).
  destruct (scan_max _ S ps 0%Q Hps) as (hi_f & Hhif & _).
  destruct (scan_max _ S qs 0%Q Hqs) as (hi_g & Hhig & _).
  assert (Hpair : ∀ i, i ∈ S →
            ∃ x, f x ∈ ps ∧ g x ∈ qs ∧ getitem S1 i = Ok x).
  { intros i Hi. destruct (getitem_lt S1 i (Hv i Hi)) as (x & Hx & _).
    exists x. split; [| split; [| exact Hx]].
    - apply (elem_of_payoffs _ _ _ _ Hps). exists i. now rewrite Hx.
    - apply (elem_of_payoffs _ _ _ _ Hqs). exists i. now rewrite Hx. }
  exists lo_f, lo_g, hi_f, hi_g. repeat (split; [assumption |]). split.
  - eapply (scan_min_le _ _ S S ps qs); eauto.
    intros q Hq. apply (elem_of_payoffs _ _ _ _ Hqs) in Hq as (i & Hi & Hqi).
    destruct (Hpair i Hi) as (x & Hfx & _ & Hx). rewrite Hx in Hqi.
    injection Hqi as <-. exists (f x). auto.
  - eapply (scan_max_le _ _ S S ps qs); eauto.
    intros p Hp. apply (elem_of_payoffs _ _ _ _ Hps) in Hp as (i & Hi & Hpi).
    destruct (Hpair i Hi) as (x & _ & Hgx & Hx). rewrite Hx in Hpi.
    injection Hpi as <-. exists (g x). auto.
Qed.

End ScanOrder.

(** X5: enlarging the subset lowers the minimum and raises the maximum:
    for [S] included in [T], [min_call T <= min_call S],
    [max_call S <= max_call T], and the same for the puts. *)
Theorem bounds_monotone_in_subset (S T : list nat) (K : Q) (S1 : list Q) :
  (∀ i, i ∈ S → i ∈ T) → state_indices T S1 → S1 ≠ [] →
  ∃ lo_S lo_T hi_S hi_T lo_S' lo_T' hi_S' hi_T',
    min_call S K S1 = Ok lo_S ∧ min_call T K S1 = Ok lo_T
    ∧ max_call S K S1 = Ok hi_S ∧ max_call T K S1 = Ok hi_T
    ∧ min_put S K S1 = Ok lo_S' ∧ min_put T K S1 = Ok lo_T'
    ∧ max_put S K S1 = Ok hi_S' ∧ max_put T K S1 = Ok hi_T'
    ∧ (lo_T <= lo_S)%Q ∧ (hi_S <= hi_T)%Q
    ∧ (lo_T' <= lo_S')%Q ∧ (hi_S' <= hi_T')%Q.
Proof.
  intros Hsub Hv Hne.
  destruct (py_max_spec S1 Hne) as (M & HM & _).
  destruct (scans_monotone_subset S1 M (λ x, py_max2 (x - K) 0) S T Hsub Hv)
    as (a1 & a2 & a3 & a4 & H1 & H2 & H3 & H4 & H5 & H6).
  destruct (scans_monotone_subset S1 M (λ x, py_max2 (K - x) 0) S T Hsub Hv)
    as (b1 & b2 & b3 & b4 & G1 & G2 & G3 & G4 & G5 & G6).
  exists a1, a2, a3, a4, b1, b2, b3, b4.
  unfold min_call, max_call, min_put, max_put, call_payoff, put_payoff.
  rewrite HM. cbn [mbind result_bind]. repeat split; assumption.
Qed.

Lemma bounds_monotone_in_subset_witness :
  ∃ lo_S lo_T hi_S hi_T lo_S' lo_T' hi_S' hi_T',
    min_call [1] 130 [125; 175]%Q = Ok lo_S
    ∧ min_call [0; 1] 130 [125; 175]%Q = Ok lo_T
    ∧ max_call [1] 130 [125; 175]%Q = Ok hi_S
    ∧ max_call [0; 1] 130 [125; 175]%Q = Ok hi_T
    ∧ min_put [1] 130 [125; 175]%Q = Ok lo_S'
    ∧ min_put [0; 1] 130 [125; 175]%Q = Ok lo_T'
    ∧ max_put [1] 130 [125; 175]%Q = Ok hi_S'
    ∧ max_put [0; 1] 130 [125; 175]%Q = Ok hi_T'
    ∧ (lo_T <= lo_S)%Q ∧ (hi_S <= hi_T)%Q
    ∧ (lo_T' <= lo_S')%Q ∧ (hi_S' <= hi_T')%Q.
Proof.
  apply (bounds_monotone_in_subset [1] [0; 1] 130 [125; 175]%Q).
  - intros i Hi. elems Hi. right; left.
  - intros i Hi. elems Hi; simpl; lia.
  - discriminate.
Defined.

(** X6: raising the strike lowers both call bounds and raises both put
    bounds: for [K <= K'], [min_call] and [max_call] at [K'] are at most
    those at [K], and [min_put] and [max_put] at [K] are at most those at
    [K']. *)
Theorem bounds_monotone_in_strike (S : list nat) (K K' : Q) (S1 : list Q) :
  (K <= K')%Q → state_indices S S1 → S1 ≠ [] →
  ∃ lo lo' hi hi' plo plo' phi phi',
    min_call S K S1 = Ok lo ∧ min_call S K' S1 = Ok lo'
    ∧ max_call S K S1 = Ok hi ∧ max_call S K' S1 = Ok hi'
    ∧ min_put S K S1 = Ok plo ∧ min_put S K' S1 = Ok plo'
    ∧ max_put S K S1 = Ok phi ∧ max_put S K' S1 = Ok phi'
    ∧ (lo' <= lo)%Q ∧ (hi' <= hi)%Q ∧ (plo <= plo')%Q ∧ (phi <= phi')%Q.
Proof.
  intros HK Hv Hne.
  destruct (py_max_spec S1 Hne) as (M & HM & _).
  destruct (scans_monotone_payoff S1 M
              (λ x, py_max2 (x - K') 0) (λ x, py_max2 (x - K) 0) S)
    as (a1 & a2 & a3 & a4 & H1 & H2 & H3 & H4 & H5 & H6);
    [intros x; apply py_max2_mono; lra | exact Hv |].
  destruct (scans_monotone_payoff S1 M
              (λ x, py_max2 (K - x) 0) (λ x, py_max2 (K' - x) 0) S)
    as (b1 & b2 & b3 & b4 & G1 & G2 & G3 & G4 & G5 & G6);
    [intros x; apply py_max2_mono; lra | exact Hv |].
  exists a2, a1, a4, a3, b1, b2, b3, b4.
  unfold min_call, max_call, min_put, max_put, call_payoff, put_payoff.
  rewrite HM. cbn [mbind result_bind]. repeat split; assumption.
Qed.

Lemma bounds_monotone_in_strike_witness :
  ∃ lo lo' hi hi' plo plo' phi phi',
    min_call [0; 1] 130 [125; 175]%Q = Ok lo
    ∧ min_call [0; 1] 150 [125; 175]%Q = Ok lo'
    ∧ max_call [0; 1] 130 [125; 175]%Q = Ok hi
    ∧ max_call [0; 1] 150 [125; 175]%Q = Ok hi'
    ∧ min_put [0; 1] 130 [125; 175]%Q = Ok plo
    ∧ min_put [0; 1] 150 [125; 175]%Q = Ok plo'
    ∧ max_put [0; 1] 130 [125; 175]%Q = Ok phi
    ∧ max_put [0; 1] 150 [125; 175]%Q = Ok phi'
    ∧ (lo' <= lo)%Q ∧ (hi' <= hi)%Q ∧ (plo <= plo')%Q ∧ (phi <= phi')%Q.
Proof.
  apply (bounds_monotone_in_strike [0; 1] 130 150 [125; 175]%Q).
  - lra.
  - intros i Hi. elems Hi; simpl; lia.
  - discriminate.
Defined.

(** * Further properties of the discretizer *)

Lemma S1_bounds_ordered (STOCK_stock : list Q) (S1_min S1_max : Q) :
  S1_min_of STOCK_stock = Ok S1_min → S1_max_of STOCK_stock = Ok S1_max →
  (S1_min <= S1_max)%Q.
Proof.
  unfold S1_min_of, S1_max_of. intros Hmin Hmax.
  apply bind_Ok in Hmin as (lo & Hlo & [= <-]).
  apply bind_Ok in Hmax as (hi & Hhi & [= <-]).
  assert (Hne : STOCK_stock ≠ []) by (intros ->; discriminate Hlo).
  destruct (py_min_spec _ Hne) as (lo' & Hlo' & _ & Hle).
  destruct (py_max_spec _ Hne) as (hi' & Hhi' & Hin & _).
  rewrite Hlo in Hlo'. injection Hlo' as <-.
  rewrite Hhi in Hhi'. injection Hhi' as <-.
  apply py_round_0_mono. auto.
Qed.

Lemma S1_of_zero_width (STOCK_stock : list Q) (n : nat) (S1_min S1_max : Q) :
  S1_min_of STOCK_stock = Ok S1_min → S1_max_of STOCK_stock = Ok S1_max →
  n = 0 ∨ (S1_max == S1_min)%Q →
  S1_of STOCK_stock n = Raise ZeroDivisionError.
Proof.
  intros Hmin Hmax Hcase. unfold S1_of, S1_range_of.
  rewrite Hmin, Hmax. cbn [mbind result_bind].
  destruct (Qeq_bool (inject_Z (Z.of_nat n)) 0) eqn:En.
  - unfold py_div. now rewrite En.
  - apply Qeq_bool_neq in En. destruct Hcase as [-> | Heq]; [now destruct En |].
    rewrite (py_div_Ok _ _ En). cbn [mbind result_bind].
    unfold np_arange. rewrite py_div_zero; [reflexivity |].
    rewrite Heq. field. exact En.
Qed.

(** X7: for a non-empty series the rounded minimum is at most the rounded
    maximum, and the discretizer returns a lattice of exactly [n] values
    when [n >= 1] and the rounded minimum is below the rounded maximum, and
    raises [ZeroDivisionError] when [n = 0] or the two coincide. *)
Theorem discretizer_outcome (STOCK_stock : list Q) (n : nat) :
  STOCK_stock ≠ [] →
  ∃ S1_min S1_max,
    S1_min_of STOCK_stock = Ok S1_min
    ∧ S1_max_of STOCK_stock = Ok S1_max
    ∧ (S1_min <= S1_max)%Q
    ∧ (1 ≤ n → (S1_min < S1_max)%Q →
         ∃ S1, S1_of STOCK_stock n = Ok S1 ∧ length S1 = n)
    ∧ (n = 0 ∨ (S1_max == S1_min)%Q →
         S1_of STOCK_stock n = Raise ZeroDivisionError).
Proof.
  intros Hne.
  destruct (py_min_spec _ Hne) as (lo & Hlo & _).
  destruct (py_max_spec _ Hne) as (hi & Hhi & _).
  assert (Hmin : S1_min_of STOCK_stock = Ok (py_round lo 0))
    by (unfold S1_min_of; now rewrite Hlo).
  assert (Hmax : S1_max_of STOCK_stock = Ok (py_round hi 0))
    by (unfold S1_max_of; now rewrite Hhi).
  exists (py_round lo 0), (py_round hi 0).
  split; [exact Hmin |]. split; [exact Hmax |].
  split; [exact (S1_bounds_ordered _ _ _ Hmin Hmax) |]. split.
  - intros Hn Hlt. exact (S1_of_total _ _ _ _ Hmin Hmax Hlt Hn).
  - exact (S1_of_zero_width _ _ _ _ Hmin Hmax).
Qed.

Lemma discretizer_outcome_witness :
  ∃ S1_min S1_max,
    S1_min_of [150; 100; 200]%Q = Ok S1_min
    ∧ S1_max_of [150; 100; 200]%Q = Ok S1_max
    ∧ (S1_min <= S1_max)%Q
    ∧ (1 ≤ 5 → (S1_min < S1_max)%Q →
         ∃ S1, S1_of [150; 100; 200]%Q 5 = Ok S1 ∧ length S1 = 5)
    ∧ (5 = 0 ∨ (S1_max == S1_min)%Q →
         S1_of [150; 100; 200]%Q 5 = Raise ZeroDivisionError).
Proof.
  apply (discretizer_outcome [150; 100; 200]%Q 5). discriminate.
Defined.

(** * Further properties of the quotes and the coefficient tables *)

(** The price table at the two ends of the mixture. *)
Lemma rounded_prices_endpoints (STOCK : list quote) (i : nat) (q : quote) :
  STOCK !! i = Some q →
  rounded_prices 1 STOCK !! i = Some (py_round (bid q) 6)
  ∧ rounded_prices 0 STOCK !! i = Some (py_round (ask q) 6).
Proof.
  intros Hq. unfold rounded_prices. rewrite !lookup_map, Hq. simpl.
  assert (H1 : (alpha_p 1 q == bid q)%Q) by (unfold alpha_p; ring).
  assert (H0 : (alpha_p 0 q == ask q)%Q) by (unfold alpha_p; ring).
  now rewrite (py_round_comp _ _ H1 6 6 eq_refl),
    (py_round_comp _ _ H0 6 6 eq_refl).
Qed.

Lemma mixture_endpoint_1 (lo hi : Q) (d : nat) :
  py_round (1 * lo + (1 - 1) * hi) d = py_round lo d.
Proof.
  assert (H : (1 * lo + (1 - 1) * hi == lo)%Q) by ring.
  now rewrite (py_round_comp _ _ H d d eq_refl).
Qed.

Lemma mixture_endpoint_0 (lo hi : Q) (d : nat) :
  py_round (0 * lo + (1 - 0) * hi) d = py_round hi d.
Proof.
  assert (H : (0 * lo + (1 - 0) * hi == hi)%Q) by ring.
  now rewrite (py_round_comp _ _ H d d eq_refl).
Qed.

(** X10: the two ends of the mixture.  The model built with [alpha = 1]
    prices every quote at its bid and every subset at the lower payoff
    bound, the model built with [alpha = 0] at the ask and the upper payoff
    bound, each rounded to six decimals; both are built over the same
    lattice and the same index dict. *)
Theorem mixture_endpoints n R STOCK_stock STOCK_calls STOCK_puts
    model_1 d_pw_1 model_0 d_pw_0 :
  build_model n 1 R STOCK_stock STOCK_calls STOCK_puts
  = Ok (model_1, d_pw_1) →
  build_model n 0 R STOCK_stock STOCK_calls STOCK_puts
  = Ok (model_0, d_pw_0) →
  d_pw_1 = d_pw_0
  ∧ ∃ S1, S1_of STOCK_stock n = Ok S1
    ∧ (∀ i q, STOCK_calls !! i = Some q →
         model_alpha_price_calls model_1 !! i = Some (py_round (bid q) 6)
         ∧ model_alpha_price_calls model_0 !! i = Some (py_round (ask q) 6))
    ∧ (∀ i q, STOCK_puts !! i = Some q →
         model_alpha_price_puts model_1 !! i = Some (py_round (bid q) 6)
         ∧ model_alpha_price_puts model_0 !! i = Some (py_round (ask q) 6))
    ∧ (∀ i j q, STOCK_calls !! i = Some q → j < 2 ^ n - 1 →
         ∃ s lo hi, d_pw_1 !! j = Some s
           ∧ min_call s (strike q) S1 = Ok lo
           ∧ max_call s (strike q) S1 = Ok hi
           ∧ model_alpha_gamble_calls model_1 !! (i, j)
             = Some (py_round lo 6)
           ∧ model_alpha_gamble_calls model_0 !! (i, j)
             = Some (py_round hi 6))
    ∧ (∀ i j q, STOCK_puts !! i = Some q → j < 2 ^ n - 1 →
         ∃ s lo hi, d_pw_1 !! j = Some s
           ∧ min_put s (strike q) S1 = Ok lo
           ∧ max_put s (strike q) S1 = Ok hi
           ∧ model_alpha_gamble_puts model_1 !! (i, j)
             = Some (py_round lo 6)
           ∧ model_alpha_gamble_puts model_0 !! (i, j)
             = Some (py_round hi 6)).
Proof.
  intros Hb1 Hb0.
  destruct (build_model_gambles _ _ _ _ _ _ _ _ Hb1) as (S1 & HS1 & Hc1 & Hp1).
  destruct (build_model_gambles _ _ _ _ _ _ _ _ Hb0) as (S1' & HS1' & Hc0 & Hp0).
  rewrite HS1 in HS1'. injection HS1' as <-.
  destruct (build_model_inv _ _ _ _ _ _ _ _ Hb1)
    as (_ & pw & _ & _ & _ & Hpw & Hd1 & _ & _ & _ & _ & _ & Hpc1 & Hpp1 & _).
  destruct (build_model_inv _ _ _ _ _ _ _ _ Hb0)
    as (_ & pw' & _ & _ & _ & Hpw' & Hd0 & _ & _ & _ & _ & _ & Hpc0 & Hpp0 & _).
  rewrite Hpw in Hpw'. injection Hpw' as <-.
  split; [congruence |]. exists S1. split; [exact HS1 |].
  split; [| split; [| split]].
  - intros i q Hq. rewrite Hpc1, Hpc0. now apply rounded_prices_endpoints.
  - intros i q Hq. rewrite Hpp1, Hpp0. now apply rounded_prices_endpoints.
  - intros i j q Hq Hj.
    destruct (Hc1 i j q Hq Hj) as (s & lo & hi & Hs & Hlo & Hhi & Hg1).
    destruct (Hc0 i j q Hq Hj) as (s' & lo' & hi' & Hs' & Hlo' & Hhi' & Hg0).
    rewrite Hd1 in Hs. rewrite Hd0 in Hs'. rewrite Hs in Hs'.
    injection Hs' as <-.
    rewrite Hlo in Hlo'. injection Hlo' as <-.
    rewrite Hhi in Hhi'. injection Hhi' as <-.
    exists s, lo, hi. rewrite Hd1.
    rewrite mixture_endpoint_1 in Hg1. rewrite mixture_endpoint_0 in Hg0.
    repeat split; assumption.
  - intros i j q Hq Hj.
    destruct (Hp1 i j q Hq Hj) as (s & lo & hi & Hs & Hlo & Hhi & Hg1).
    destruct (Hp0 i j q Hq Hj) as (s' & lo' & hi' & Hs' & Hlo' & Hhi' & Hg0).
    rewrite Hd1 in Hs. rewrite Hd0 in Hs'. rewrite Hs in Hs'.
    injection Hs' as <-.
    rewrite Hlo in Hlo'. injection Hlo' as <-.
    rewrite Hhi in Hhi'. injection Hhi' as <-.
    exists s, lo, hi. rewrite Hd1.
    rewrite mixture_endpoint_1 in Hg1. rewrite mixture_endpoint_0 in Hg0.
    repeat split; assumption.
Qed.

Lemma mixture_endpoints_witness :
  ∃ model_1 d_pw_1 model_0 d_pw_0,
    build_model 2 1 1 [100; 200]%Q third_calls deep_puts
    = Ok (model_1, d_pw_1)
    ∧ build_model 2 0 1 [100; 200]%Q third_calls deep_puts
      = Ok (model_0, d_pw_0)
    ∧ d_pw_1 = d_pw_0
    ∧ ∃ S1, S1_of [100; 200]%Q 2 = Ok S1
      ∧ (∀ i q, third_calls !! i = Some q →
           model_alpha_price_calls model_1 !! i = Some (py_round (bid q) 6)
           ∧ model_alpha_price_calls model_0 !! i = Some (py_round (ask q) 6))
      ∧ (∀ i q, deep_puts !! i = Some q →
           model_alpha_price_puts model_1 !! i = Some (py_round (bid q) 6)
           ∧ model_alpha_price_puts model_0 !! i = Some (py_round (ask q) 6))
      ∧ (∀ i j q, third_calls !! i = Some q → j < 2 ^ 2 - 1 →
           ∃ s lo hi, d_pw_1 !! j = Some s
             ∧ min_call s (strike q) S1 = Ok lo
             ∧ max_call s (strike q) S1 = Ok hi
             ∧ model_alpha_gamble_calls model_1 !! (i, j)
               = Some (py_round lo 6)
             ∧ model_alpha_gamble_calls model_0 !! (i, j)
               = Some (py_round hi 6))
      ∧ (∀ i j q, deep_puts !! i = Some q → j < 2 ^ 2 - 1 →
           ∃ s lo hi, d_pw_1 !! j = Some s
             ∧ min_put s (strike q) S1 = Ok lo
             ∧ max_put s (strike q) S1 = Ok hi
             ∧ model_alpha_gamble_puts model_1 !! (i, j)
               = Some (py_round lo 6)
             ∧ model_alpha_gamble_puts model_0 !! (i, j)
               = Some (py_round hi 6)).
Proof.
  eexists _, _, _, _. split; [vm_compute; reflexivity |].
  split; [vm_compute; reflexivity |].
  apply (mixture_endpoints 2 1 [100; 200]%Q third_calls deep_puts).
  - vm_compute. reflexivity.
  - vm_compute. reflexivity.
Defined.

(** The keys a filled table can hold. *)
Lemma fill_rows_keys (min_f max_f : list nat → Q → list Q → result Q)
    (alpha : Q) (d_pw : gmap nat (list nat))
    (S1 : list Q) (STOCK : list quote) (I_rows I_vars : list nat)
    (g0 g : gmap (nat * nat) Q) (i j : nat) :
  foldM (λ g i,
    q ← getitem STOCK i;
    fill_row min_f max_f alpha d_pw S1 i (strike q) I_vars g) I_rows g0
  = Ok g →
  is_Some (g !! (i, j)) → (i ∈ I_rows ∧ j ∈ I_vars) ∨ is_Some (g0 !! (i, j)).
Proof.
  revert g0. induction I_rows as [| i0 I_rows IH]; intros g0 H Hsome; simpl in H.
  - injection H as <-. now right.
  - apply bind_Ok in H as (g1 & Hg1 & H).
    apply bind_Ok in Hg1 as (q0 & _ & Hg1).
    destruct (IH _ H Hsome) as [[Hi Hj] | Hsome1].
    { left. split; [now right | exact Hj]. }
    destruct (fill_row_lookup _ _ _ _ _ _ _ _ _ _ Hg1) as [_ Hout].
    destruct (decide (i = i0 ∧ j ∈ I_vars)) as [[-> Hj] | Hno].
    + left. split; [left | exact Hj].
    + right. rewrite <- (Hout (i, j)); [exact Hsome1 |].
      intros j' Hj' [= -> ->]. tauto.
Qed.

Lemma build_model_keys n alpha R STOCK_stock STOCK_calls STOCK_puts model d_pw :
  build_model n alpha R STOCK_stock STOCK_calls STOCK_puts = Ok (model, d_pw) →
  ∀ i j,
    (is_Some (model_alpha_gamble_calls model !! (i, j))
     ↔ i < length STOCK_calls ∧ j < 2 ^ n - 1)
    ∧ (is_Some (model_alpha_gamble_puts model !! (i, j))
       ↔ i < length STOCK_puts ∧ j < 2 ^ n - 1).
Proof.
  intros Hb i j.
  destruct (build_model_gambles _ _ _ _ _ _ _ _ Hb) as (S1 & _ & Hc & Hp).
  destruct (build_model_inv _ _ _ _ _ _ _ _ Hb)
    as (S1' & pw & _ & _ & _ & Hpw & -> & Hgc & Hgp & _).
  pose proof (pw_of_length n pw Hpw) as Hlen.
  unfold alpha_gamble_calls_of, alpha_gamble_puts_of, alpha_gamble_of in Hgc, Hgp.
  split; split.
  - intros Hsome.
    destruct (fill_rows_keys _ _ _ _ _ _ _ _ _ _ i j Hgc Hsome) as [[Hi Hj] | H0].
    + apply elem_of_seq in Hi. unfold I_vars_of in Hj. apply elem_of_seq in Hj. lia.
    + rewrite lookup_empty in H0. now destruct H0.
  - intros [Hi Hj]. destruct (lookup_lt_is_Some_2 STOCK_calls i Hi) as [q Hq].
    destruct (Hc i j q Hq Hj) as (s & lo & hi & _ & _ & _ & Hg). eauto.
  - intros Hsome.
    destruct (fill_rows_keys _ _ _ _ _ _ _ _ _ _ i j Hgp Hsome) as [[Hi Hj] | H0].
    + apply elem_of_seq in Hi. unfold I_vars_of in Hj. apply elem_of_seq in Hj. lia.
    + rewrite lookup_empty in H0. now destruct H0.
  - intros [Hi Hj]. destruct (lookup_lt_is_Some_2 STOCK_puts i Hi) as [q Hq].
    destruct (Hp i j q Hq Hj) as (s & lo & hi & _ & _ & _ & Hg). eauto.
Qed.

(** X12: the coefficient tables of a built model hold an entry for exactly
    the pairs of a quote row and a subset index, [i] below the number of
    quotes and [j] below [2^n - 1]: the parameters of the model are never
    read at a missing key. *)
Theorem gamble_tables_keys n alpha R STOCK_stock STOCK_calls STOCK_puts
    model d_pw :
  build_model n alpha R STOCK_stock STOCK_calls STOCK_puts = Ok (model, d_pw) →
  ∀ i j,
    (is_Some (model_alpha_gamble_calls model !! (i, j))
     ↔ i < length STOCK_calls ∧ j < 2 ^ n - 1)
    ∧ (is_Some (model_alpha_gamble_puts model !! (i, j))
       ↔ i < length STOCK_puts ∧ j < 2 ^ n - 1).
Proof. apply build_model_keys. Qed.

Lemma gamble_tables_keys_witness :
  ∃ model d_pw,
    build_model 2 (1 # 2) 1 [100; 200]%Q third_calls deep_puts
    = Ok (model, d_pw)
    ∧ ∀ i j,
        (is_Some (model_alpha_gamble_calls model !! (i, j))
         ↔ i < length third_calls ∧ j < 2 ^ 2 - 1)
        ∧ (is_Some (model_alpha_gamble_puts model !! (i, j))
           ↔ i < length deep_puts ∧ j < 2 ^ 2 - 1).
Proof.
  eexists _, _. split; [vm_compute; reflexivity |].
  apply (gamble_tables_keys 2 (1 # 2) 1 [100; 200]%Q third_calls deep_puts
           _ (d_pw_of [[0]; [1]; [0; 1]])).
  vm_compute. reflexivity.
Defined.

(** Every coefficient of a built model is the rounded mixture of two values
    that are not negative. *)
Lemma build_model_gambles_nonneg n alpha R STOCK_stock STOCK_calls STOCK_puts
    model d_pw :
  (∀ x, x ∈ STOCK_stock → (0 < x)%Q) → (0 <= alpha <= 1)%Q →
  build_model n alpha R STOCK_stock STOCK_calls STOCK_puts = Ok (model, d_pw) →
  (∀ i j c, model_alpha_gamble_calls model !! (i, j) = Some c → (0 <= c)%Q)
  ∧ (∀ i j c, model_alpha_gamble_puts model !! (i, j) = Some c → (0 <= c)%Q).
Proof.
  intros Hpos Ha Hb.
  destruct (build_model_gambles _ _ _ _ _ _ _ _ Hb) as (S1 & HS1 & Hc & Hp).
  destruct (build_model_inv _ _ _ _ _ _ _ _ Hb)
    as (S1' & pw & _ & _ & HS1' & Hpw & -> & _).
  rewrite HS1 in HS1'. injection HS1' as <-.
  assert (Hbounds : ∀ j s K, d_pw_of pw !! j = Some s →
    ∃ lo_c hi_c lo_p hi_p,
      min_call s K S1 = Ok lo_c ∧ max_call s K S1 = Ok hi_c
      ∧ min_put s K S1 = Ok lo_p ∧ max_put s K S1 = Ok hi_p
      ∧ (lo_c <= hi_c)%Q ∧ (lo_p <= hi_p)%Q
      ∧ (0 <= lo_c)%Q ∧ (0 <= hi_c)%Q ∧ (0 <= lo_p)%Q ∧ (0 <= hi_p)%Q).
  { intros j s K Hs. rewrite d_pw_of_lookup in Hs.
    apply list_elem_of_lookup_2 in Hs.
    exact (enumerated_payoff_bounds _ _ _ _ _ K Hpos HS1 Hpw Hs). }
  pose proof (build_model_keys _ _ _ _ _ _ _ _ Hb) as Hkeys.
  split.
  - intros i j c Hg.
    destruct (proj1 (proj1 (Hkeys i j)) (mk_is_Some _ _ Hg)) as [Hi Hj].
    destruct (lookup_lt_is_Some_2 STOCK_calls i Hi) as [q Hq].
    destruct (Hc i j q Hq Hj) as (s & lo & hi & Hs & Hlo & Hhi & Hg').
    destruct (Hbounds j s (strike q) Hs)
      as (lo' & hi' & _ & _ & Hlo' & Hhi' & _ & _ & _ & _ & H0 & H1 & _).
    rewrite Hlo in Hlo'. injection Hlo' as <-.
    rewrite Hhi in Hhi'. injection Hhi' as <-.
    rewrite Hg in Hg'. injection Hg' as ->.
    apply py_round_nonneg. nra.
  - intros i j c Hg.
    destruct (proj1 (proj2 (Hkeys i j)) (mk_is_Some _ _ Hg)) as [Hi Hj].
    destruct (lookup_lt_is_Some_2 STOCK_puts i Hi) as [q Hq].
    destruct (Hp i j q Hq Hj) as (s & lo & hi & Hs & Hlo & Hhi & Hg').
    destruct (Hbounds j s (strike q) Hs)
      as (_ & _ & lo' & hi' & _ & _ & Hlo' & Hhi' & _ & _ & _ & _ & H0 & H1).
    rewrite Hlo in Hlo'. injection Hlo' as <-.
    rewrite Hhi in Hhi'. injection Hhi' as <-.
    rewrite Hg in Hg'. injection Hg' as ->.
    apply py_round_nonneg. nra.
Qed.

(** X11: for a series of positive prices and a mixing parameter in [0, 1],
    no coefficient of a built model is negative, in the call table and in
    the put table, whatever the strikes. *)
Theorem gamble_coefficients_nonneg n alpha R STOCK_stock STOCK_calls STOCK_puts
    model d_pw :
  (∀ x, x ∈ STOCK_stock → (0 < x)%Q) → (0 <= alpha <= 1)%Q →
  build_model n alpha R STOCK_stock STOCK_calls STOCK_puts = Ok (model, d_pw) →
  (∀ i j c, model_alpha_gamble_calls model !! (i, j) = Some c → (0 <= c)%Q)
  ∧ (∀ i j c, model_alpha_gamble_puts model !! (i, j) = Some c → (0 <= c)%Q).
Proof. apply build_model_gambles_nonneg. Qed.

Lemma gamble_coefficients_nonneg_witness :
  ∃ model d_pw,
    build_model 2 (1 # 2) 1 [100; 200]%Q third_calls deep_puts
    = Ok (model, d_pw)
    ∧ (∀ i j c, model_alpha_gamble_calls model !! (i, j) = Some c →
         (0 <= c)%Q)
    ∧ (∀ i j c, model_alpha_gamble_puts model !! (i, j) = Some c →
         (0 <= c)%Q).
Proof.
  eexists _, _. split; [vm_compute; reflexivity |].
  eapply (gamble_coefficients_nonneg 2 (1 # 2) 1 [100; 200]%Q third_calls
            deep_puts).
  - intros x Hx. elems Hx; reflexivity.
  - split; discriminate.
  - vm_compute. reflexivity.
Defined.

(** * Further properties of the optimization model *)

Lemma Qsum_ext {A} (f g : A → Q) (l : list A) :
  (∀ x, x ∈ l → (f x == g x)%Q) → (Qsum (map f l) == Qsum (map g l))%Q.
Proof.
  induction l as [| x l IH]; intros H; simpl; [reflexivity |].
  rewrite (H x (list_elem_of_here _ _)), IH; [reflexivity |].
  intros y Hy. apply H. now right.
Qed.

Lemma Qsum_elem_le (l : list Q) (x : Q) :
  (∀ y, y ∈ l → (0 <= y)%Q) → x ∈ l → (x <= Qsum l)%Q.
Proof.
  induction l as [| y l IH]; intros Hpos Hx; [inversion Hx |]. simpl.
  assert (Hl : (0 <= Qsum l)%Q)
    by (apply Qsum_nonneg; intros z Hz; apply Hpos; now right).
  pose proof (Hpos y (list_elem_of_here _ _)) as Hy.
  apply elem_of_cons in Hx as [-> | Hx]; [lra |].
  assert (x <= Qsum l)%Q by (apply IH; [intros z Hz; apply Hpos; now right | exact Hx]).
  lra.
Qed.

Lemma model_price_ext (gamble : gmap (nat * nat) Q) (I_vars : list nat) (R : Q)
    (a b : var → Q) (i : nat) :
  (∀ j, j ∈ I_vars → (a (Var_m j) == b (Var_m j))%Q) →
  (model_price gamble I_vars R a i == model_price gamble I_vars R b i)%Q.
Proof.
  intros Hab. unfold model_price.
  rewrite (Qsum_ext (λ j, coef gamble i j * a (Var_m j))%Q
             (λ j, coef gamble i j * b (Var_m j))%Q);
    [reflexivity |].
  intros j Hj. now rewrite (Hab j Hj).
Qed.

Lemma squared_error_ext (I_vars : list nat) (gc gp : gmap (nat * nat) Q)
    (pc pp : list Q) (R : Q) (a b : var → Q) :
  (∀ j, j ∈ I_vars → (a (Var_m j) == b (Var_m j))%Q) →
  (squared_error I_vars gc gp pc pp R a == squared_error I_vars gc gp pc pp R b)%Q.
Proof.
  intros Hab. unfold squared_error.
  rewrite (Qsum_ext
    (λ i, (model_price gc I_vars R a i - nth i pc 0) ^ 2)%Q
    (λ i, (model_price gc I_vars R b i - nth i pc 0) ^ 2)%Q),
   (Qsum_ext
    (λ i, (model_price gp I_vars R a i - nth i pp 0) ^ 2)%Q
    (λ i, (model_price gp I_vars R b i - nth i pp 0) ^ 2)%Q);
    [reflexivity | |];
    intros i _; now rewrite (model_price_ext _ _ _ a b i Hab).
Qed.

(** In the closed-form program the aggregate error is the total squared
    pricing error of the weights. *)
Lemma program_squared_error (lb : nat → Q) (I_vars : list nat)
    (gc gp : gmap (nat * nat) Q) (pc pp : list Q) (R : Q) (a : var → Q) :
  program lb I_vars gc gp pc pp R a →
  (a Var_err == squared_error I_vars gc gp pc pp R a)%Q.
Proof.
  intros [_ _ Hc Hp He]. rewrite He. unfold squared_error.
  rewrite (Qsum_ext (λ i, a (Var_ec i))
             (λ i, (model_price gc I_vars R a i - nth i pc 0) ^ 2)%Q),
          (Qsum_ext (λ i, a (Var_ep i))
             (λ i, (model_price gp I_vars R a i - nth i pp 0) ^ 2)%Q);
    [reflexivity | |].
  - intros i Hi. apply elem_of_seq in Hi.
    destruct (lookup_lt_is_Some_2 pp i) as [p Hpi]; [lia |].
    rewrite (nth_lookup_Some _ _ 0%Q _ Hpi). now apply Hp.
  - intros i Hi. apply elem_of_seq in Hi.
    destruct (lookup_lt_is_Some_2 pc i) as [p Hpi]; [lia |].
    rewrite (nth_lookup_Some _ _ 0%Q _ Hpi). now apply Hc.
Qed.

Lemma squared_error_nonneg (I_vars : list nat) (gc gp : gmap (nat * nat) Q)
    (pc pp : list Q) (R : Q) (a : var → Q) :
  (0 <= squared_error I_vars gc gp pc pp R a)%Q.
Proof.
  unfold squared_error.
  assert (H : ∀ (f : nat → Q) l, (0 <= Qsum (map (λ i, f i ^ 2) l))%Q).
  { intros f l. apply Qsum_nonneg. intros x Hx.
    apply elem_of_map in Hx as (i & -> & _). apply Qsqr_nonneg'. }
  pose proof (H (λ i, model_price gc I_vars R a i - nth i pc 0)%Q
                (seq 0 (length pc))).
  pose proof (H (λ i, model_price gp I_vars R a i - nth i pp 0)%Q
                (seq 0 (length pp))).
  simpl in *. lra.
Qed.

Lemma feasible_weights n alpha R STOCK_stock STOCK_calls STOCK_puts model d_pw
    (a : var → Q) :
  build_model n alpha R STOCK_stock STOCK_calls STOCK_puts = Ok (model, d_pw) →
  feasible model a →
  (∀ j, j < 2 ^ n - 1 → (0 <= a (Var_m j) <= 1)%Q)
  ∧ (∀ k, k < n → (epsilon <= a (Var_m k))%Q)
  ∧ (Qsum (map (λ j, a (Var_m j)) (seq 0 (2 ^ n - 1))) == 1)%Q.
Proof.
  intros Hb Hf.
  destruct (build_model_program _ _ _ _ _ _ _ _ Hb) as (HIv & _ & _ & _ & Hiff).
  apply Hiff in Hf as [Hbnd Hnorm _ _ _]. rewrite HIv in Hbnd, Hnorm.
  destruct (build_model_inv _ _ _ _ _ _ _ _ Hb)
    as (_ & pw & _ & _ & _ & Hpw & -> & _).
  pose proof (pw_of_length n pw Hpw) as Hlen.
  assert (H0 : ∀ j, j < 2 ^ n - 1 → (0 <= a (Var_m j))%Q).
  { intros j Hj. pose proof (lb_of_nonneg (d_pw_of pw) j).
    assert (lb_of (d_pw_of pw) j <= a (Var_m j))%Q
      by (apply Hbnd, elem_of_seq; lia). lra. }
  split; [| split; [| exact Hnorm]].
  - intros j Hj. split; [now apply H0 |]. rewrite <- Hnorm.
    apply Qsum_elem_le.
    + intros y Hy. apply elem_of_map in Hy as (k & -> & Hk).
      apply H0. apply elem_of_seq in Hk. lia.
    + apply elem_of_map. exists j. split; [reflexivity |].
      apply elem_of_seq. lia.
  - intros k Hk.
    assert (Hlt : k < 2 ^ n - 1).
    { pose proof (Nat.pow_gt_lin_r 2 n). lia. }
    destruct (lookup_lt_is_Some_2 pw k) as [s Hs]; [lia |].
    rewrite <- d_pw_of_lookup in Hs.
    pose proof (proj1 (pw_of_singleton_iff n pw k s Hpw Hs) Hk) as Hone.
    assert (Hlb : (lb_of (d_pw_of pw) k <= a (Var_m k))%Q)
      by (apply Hbnd, elem_of_seq; lia).
    unfold lb_of in Hlb. rewrite Hs in Hlb.
    now rewrite decide_True in Hlb.
Qed.

(** X13: every assignment a built model admits gives each weight a value
    in [0, 1], each weight of a singleton subset (the indices below [n]) at
    least [epsilon], and weights that sum to 1. *)
Theorem feasible_weights_invariants n alpha R STOCK_stock STOCK_calls
    STOCK_puts model d_pw (a : var → Q) :
  build_model n alpha R STOCK_stock STOCK_calls STOCK_puts = Ok (model, d_pw) →
  feasible model a →
  (∀ j, j < 2 ^ n - 1 → (0 <= a (Var_m j) <= 1)%Q)
  ∧ (∀ k, k < n → (epsilon <= a (Var_m k))%Q)
  ∧ (Qsum (map (λ j, a (Var_m j)) (seq 0 (2 ^ n - 1))) == 1)%Q.
Proof. apply feasible_weights. Qed.

Lemma third_assignment_feasible :
  ∃ model d_pw,
    build_model 1 (1 # 3) 1 [100; 200]%Q third_calls [] = Ok (model, d_pw)
    ∧ feasible model third_assignment.
Proof.
  destruct third_model_built as (model & d_pw & Hb).
  exists model, d_pw. split; [exact Hb |].
  destruct (build_model_program _ _ _ _ _ _ _ _ Hb) as (_ & _ & _ & _ & Hiff).
  vm_compute in Hb. injection Hb as <- <-.
  apply Hiff. constructor.
  - intros j Hj. elems Hj. vm_compute. discriminate.
  - vm_compute. reflexivity.
  - intros [| i] p Hp; [| destruct i; discriminate Hp].
    injection Hp as <-. vm_compute. reflexivity.
  - intros i p Hp. destruct i; discriminate Hp.
  - vm_compute. reflexivity.
Qed.

Lemma feasible_weights_invariants_witness :
  (∀ j, j < 2 ^ 1 - 1 → (0 <= third_assignment (Var_m j) <= 1)%Q)
  ∧ (∀ k, k < 1 → (epsilon <= third_assignment (Var_m k))%Q)
  ∧ (Qsum (map (λ j, third_assignment (Var_m j)) (seq 0 (2 ^ 1 - 1))) == 1)%Q.
Proof.
  destruct third_assignment_feasible as (model & d_pw & Hb & Hf).
  exact (feasible_weights_invariants 1 (1 # 3) 1 [100; 200]%Q third_calls []
           model d_pw third_assignment Hb Hf).
Defined.

Lemma feasible_error n alpha R STOCK_stock STOCK_calls STOCK_puts model d_pw
    (a : var → Q) :
  build_model n alpha R STOCK_stock STOCK_calls STOCK_puts = Ok (model, d_pw) →
  feasible model a →
  (a Var_err
   == squared_error (seq 0 (2 ^ n - 1))
        (model_alpha_gamble_calls model) (model_alpha_gamble_puts model)
        (rounded_prices alpha STOCK_calls) (rounded_prices alpha STOCK_puts)
        R a)%Q
  ∧ (0 <= a Var_err)%Q
  ∧ ∀ b, feasible model b →
      (∀ j, j < 2 ^ n - 1 → (a (Var_m j) == b (Var_m j))%Q) →
      (a Var_err == b Var_err)%Q.
Proof.
  intros Hb Hf.
  destruct (build_model_program _ _ _ _ _ _ _ _ Hb) as (HIv & _ & _ & _ & Hiff).
  assert (Hclosed : ∀ c, feasible model c →
    (c Var_err
     == squared_error (seq 0 (2 ^ n - 1))
          (model_alpha_gamble_calls model) (model_alpha_gamble_puts model)
          (rounded_prices alpha STOCK_calls) (rounded_prices alpha STOCK_puts)
          R c)%Q).
  { intros c Hc. apply Hiff in Hc. rewrite HIv in Hc.
    exact (program_squared_error _ _ _ _ _ _ _ _ Hc). }
  split; [now apply Hclosed |]. split.
  - rewrite (Hclosed a Hf). apply squared_error_nonneg.
  - intros b Hfb Hab. rewrite (Hclosed a Hf), (Hclosed b Hfb).
    apply squared_error_ext. intros j Hj. apply Hab.
    apply elem_of_seq in Hj. lia.
Qed.

(** X14: at every assignment a built model admits, the aggregate error
    variable equals the total squared distance between the discounted
    priced gambles and the six-decimal mixed prices, over all call and put
    quotes; it is not negative, and two admitted assignments with the same
    weights have the same aggregate error. *)
Theorem aggregate_error_is_squared_error n alpha R STOCK_stock STOCK_calls
    STOCK_puts model d_pw (a : var → Q) :
  build_model n alpha R STOCK_stock STOCK_calls STOCK_puts = Ok (model, d_pw) →
  feasible model a →
  (a Var_err
   == squared_error (seq 0 (2 ^ n - 1))
        (model_alpha_gamble_calls model) (model_alpha_gamble_puts model)
        (rounded_prices alpha STOCK_calls) (rounded_prices alpha STOCK_puts)
        R a)%Q
  ∧ (0 <= a Var_err)%Q
  ∧ ∀ b, feasible model b →
      (∀ j, j < 2 ^ n - 1 → (a (Var_m j) == b (Var_m j))%Q) →
      (a Var_err == b Var_err)%Q.
Proof. apply feasible_error. Qed.

Lemma aggregate_error_is_squared_error_witness :
  ∃ model d_pw,
    build_model 1 (1 # 3) 1 [100; 200]%Q third_calls [] = Ok (model, d_pw)
    ∧ (third_assignment Var_err
       == squared_error (seq 0 (2 ^ 1 - 1))
            (model_alpha_gamble_calls model) (model_alpha_gamble_puts model)
            (rounded_prices (1 # 3) third_calls) (rounded_prices (1 # 3) [])
            1 third_assignment)%Q
    ∧ (0 <= third_assignment Var_err)%Q
    ∧ ∀ b, feasible model b →
        (∀ j, j < 2 ^ 1 - 1 → (third_assignment (Var_m j) == b (Var_m j))%Q) →
        (third_assignment Var_err == b Var_err)%Q.
Proof.
  destruct third_assignment_feasible as (model & d_pw & Hb & Hf).
  exists model, d_pw. split; [exact Hb |].
  exact (aggregate_error_is_squared_error 1 (1 # 3) 1 [100; 200]%Q third_calls []
           model d_pw third_assignment Hb Hf).
Defined.

(** * Further properties of the calibration call and its callers *)

(** The dict of optimal weights: one entry per index of the loop, holding
    the loaded value of the weight. *)
Lemma opt_m_lookup (vals : var → option Q) (l : list nat) (d0 m : gmap nat Q) :
  foldM (λ d i, v ← pyo_value vals (Var (Var_m i)); Ok (<[i := v]> d)) l d0
  = Ok m →
  (∀ j, j ∈ l → is_Some (vals (Var_m j)) ∧ m !! j = vals (Var_m j))
  ∧ (∀ j, j ∉ l → m !! j = d0 !! j).
Proof.
  revert d0. induction l as [| i l IH]; intros d0 H; simpl in H.
  - injection H as <-. split; [intros j Hj; inversion Hj | reflexivity].
  - apply bind_Ok in H as (d1 & Hd1 & H).
    apply bind_Ok in Hd1 as (v & Hv & [= <-]).
    destruct (vals (Var_m i)) as [v' |] eqn:Hi; [| discriminate].
    injection Hv as ->.
    destruct (IH _ H) as [Hin Hout]. split.
    + intros j Hj. destruct (decide (j ∈ l)) as [Hj' | Hj']; [now apply Hin |].
      apply elem_of_cons in Hj as [-> | Hj]; [| contradiction].
      rewrite Hi. split; [eauto |].
      rewrite (Hout i Hj'). apply lookup_insert_eq.
    + intros j Hj. rewrite not_elem_of_cons in Hj. destruct Hj as [Hne Hj].
      rewrite (Hout j Hj). now apply lookup_insert_ne.
Qed.

Lemma d_pw_of_map_seq (pw : list (list nat)) : d_pw_of pw = map_seq 0 pw.
Proof.
  apply map_eq. intros j. now rewrite d_pw_of_lookup, lookup_map_seq_0.
Qed.

Lemma size_map_seq {A} (start : nat) (xs : list A) :
  size (map_seq start xs : gmap nat A) = length xs.
Proof.
  induction xs as [| x xs IH] using rev_ind; [reflexivity |].
  rewrite map_seq_snoc, map_size_insert_None, IH, length_app; [simpl; lia |].
  apply lookup_map_seq_None. lia.
Qed.

Lemma size_d_pw_of (pw : list (list nat)) : size (d_pw_of pw) = length pw.
Proof. rewrite d_pw_of_map_seq. apply size_map_seq. Qed.

Section CalibrationResult.

Variable solve : ConcreteModel → result SolverResults.
Variables (n : nat) (alpha R : Q).
Variables (STOCK_stock : list Q) (STOCK_calls STOCK_puts : list quote).

Local Abbreviation run :=
  (optimal_m solve n alpha R STOCK_stock STOCK_calls STOCK_puts).
Local Abbreviation built :=
  (build_model n alpha R STOCK_stock STOCK_calls STOCK_puts).

Lemma optimal_m_result (opt_E : Q) (opt_m : gmap nat Q)
    (d_pw : gmap nat (list nat)) :
  run = Ok (opt_E, opt_m, d_pw) →
  (∀ j, is_Some (opt_m !! j) ↔ j < 2 ^ n - 1)
  ∧ (∀ j, is_Some (d_pw !! j) ↔ j < 2 ^ n - 1)
  ∧ size d_pw = 2 ^ n - 1
  ∧ ∃ model status,
      built = Ok (model, d_pw) ∧ solve model = Ok status
      ∧ loaded status Var_err = Some opt_E
      ∧ ∀ j, j < 2 ^ n - 1 → opt_m !! j = loaded status (Var_m j).
Proof.
  unfold optimal_m. intros H.
  apply bind_Ok in H as ([model d] & Hb & H). simpl in H.
  apply bind_Ok in H as (status & Hs & H).
  apply bind_Ok in H as ([] & _ & H).
  apply bind_Ok in H as (e & He & H).
  apply bind_Ok in H as (om & Hom & [= <- <- <-]).
  destruct (build_model_program _ _ _ _ _ _ _ _ Hb) as (HIv & _ & _ & Ho & _).
  destruct (build_model_inv _ _ _ _ _ _ _ _ Hb)
    as (_ & pw & _ & _ & _ & Hpw & -> & _).
  pose proof (pw_of_length _ _ Hpw) as Hlen.
  rewrite HIv in Hom. destruct (opt_m_lookup _ _ _ _ Hom) as [Hin Hout].
  split; [| split; [| split]].
  - intros j. destruct (decide (j < 2 ^ n - 1)) as [Hj | Hj].
    + destruct (Hin j) as [Hsome Heq]; [apply elem_of_seq; lia |].
      rewrite Heq. tauto.
    + rewrite Hout by (rewrite elem_of_seq; lia). rewrite lookup_empty.
      split; [intros [? [=]] | lia].
  - intros j. rewrite d_pw_of_lookup, <- Hlen. apply lookup_lt_is_Some.
  - now rewrite size_d_pw_of.
  - exists model, status. split; [exact Hb |]. split; [exact Hs |]. split.
    + rewrite Ho in He. simpl in He.
      now destruct (loaded status Var_err); [injection He as -> |].
    + intros j Hj. apply Hin, elem_of_seq. lia.
Qed.

Lemma report_total (opt_E : Q) (opt_m : gmap nat Q)
    (d_pw : gmap nat (list nat)) :
  run = Ok (opt_E, opt_m, d_pw) →
  ∃ rows, report opt_m d_pw = Ok rows
    ∧ length rows = 2 ^ n - 1
    ∧ ∀ j s w, d_pw !! j = Some s → opt_m !! j = Some w →
        rows !! j = Some (list_to_set s, py_round w 4).
Proof.
  intros Hrun.
  destruct (optimal_m_result _ _ _ Hrun) as (Hm & Hd & Hsize & _).
  unfold report. rewrite Hsize.
  destruct (mapM_result_total
    (λ i, s ← getkey d_pw i; w ← getkey opt_m i;
          Ok (list_to_set s : gset nat, py_round w 4))
    (seq 0 (2 ^ n - 1))) as [rows Hrows].
  { intros i Hi. apply elem_of_seq in Hi.
    destruct (proj2 (Hm i)) as [w Hw]; [lia |].
    destruct (proj2 (Hd i)) as [s Hs]; [lia |].
    unfold getkey. rewrite Hs, Hw. now eexists. }
  exists rows. split; [exact Hrows |].
  split; [apply mapM_result_length in Hrows; now rewrite length_seq in Hrows |].
  intros j s w Hs Hw.
  assert (Hj : j < 2 ^ n - 1) by (apply Hd; eauto).
  apply mapM_result_Ok in Hrows.
  destruct (Forall2_lookup_l _ _ _ _ _ Hrows (lookup_seq_lt 0 _ j Hj))
    as (row & Hrow & Hval).
  simpl in Hval. unfold getkey in Hval. rewrite Hs, Hw in Hval.
  now injection Hval as <-.
Qed.

End CalibrationResult.

(** X15: a returned triple holds the loaded value of the aggregate error,
    a dict of weights and the index dict with the same keys, exactly the
    indices [0 .. 2^n - 2], and each weight is the value the solver loaded
    for that index. *)
Theorem optimal_m_returns (solve : ConcreteModel → result SolverResults)
    n alpha R STOCK_stock STOCK_calls STOCK_puts
    (opt_E : Q) (opt_m : gmap nat Q) (d_pw : gmap nat (list nat)) :
  optimal_m solve n alpha R STOCK_stock STOCK_calls STOCK_puts
  = Ok (opt_E, opt_m, d_pw) →
  (∀ j, is_Some (opt_m !! j) ↔ j < 2 ^ n - 1)
  ∧ (∀ j, is_Some (d_pw !! j) ↔ j < 2 ^ n - 1)
  ∧ size d_pw = 2 ^ n - 1
  ∧ ∃ model status,
      build_model n alpha R STOCK_stock STOCK_calls STOCK_puts
      = Ok (model, d_pw)
      ∧ solve model = Ok status
      ∧ loaded status Var_err = Some opt_E
      ∧ ∀ j, j < 2 ^ n - 1 → opt_m !! j = loaded status (Var_m j).
Proof. apply optimal_m_result. Qed.

Lemma optimal_m_returns_witness :
  ∃ opt_E opt_m d_pw,
    optimal_m third_solver 1 (1 # 3) 1 [100; 200]%Q third_calls []
    = Ok (opt_E, opt_m, d_pw)
    ∧ (∀ j, is_Some (opt_m !! j) ↔ j < 2 ^ 1 - 1)
    ∧ (∀ j, is_Some (d_pw !! j) ↔ j < 2 ^ 1 - 1)
    ∧ size d_pw = 2 ^ 1 - 1
    ∧ ∃ model status,
        build_model 1 (1 # 3) 1 [100; 200]%Q third_calls [] = Ok (model, d_pw)
        ∧ third_solver model = Ok status
        ∧ loaded status Var_err = Some opt_E
        ∧ ∀ j, j < 2 ^ 1 - 1 → opt_m !! j = loaded status (Var_m j).
Proof.
  eexists _, _, _. split; [vm_compute; reflexivity |].
  apply (optimal_m_returns third_solver 1 (1 # 3) 1 [100; 200]%Q third_calls []).
  vm_compute. reflexivity.
Defined.

(** X16: after a successful calibration the printing loop of the caller
    never meets a missing key: it produces [2^n - 1] rows, row [j] holding
    the [j]-th subset as a set and its weight rounded to four decimals. *)
Theorem report_rows (solve : ConcreteModel → result SolverResults)
    n alpha R STOCK_stock STOCK_calls STOCK_puts
    (opt_E : Q) (opt_m : gmap nat Q) (d_pw : gmap nat (list nat)) :
  optimal_m solve n alpha R STOCK_stock STOCK_calls STOCK_puts
  = Ok (opt_E, opt_m, d_pw) →
  ∃ rows, report opt_m d_pw = Ok rows
    ∧ length rows = 2 ^ n - 1
    ∧ ∀ j s w, d_pw !! j = Some s → opt_m !! j = Some w →
        rows !! j = Some (list_to_set s, py_round w 4).
Proof. apply report_total. Qed.

Lemma report_rows_witness :
  ∃ opt_E opt_m d_pw,
    optimal_m third_solver 1 (1 # 3) 1 [100; 200]%Q third_calls []
    = Ok (opt_E, opt_m, d_pw)
    ∧ ∃ rows, report opt_m d_pw = Ok rows
      ∧ length rows = 2 ^ 1 - 1
      ∧ ∀ j s w, d_pw !! j = Some s → opt_m !! j = Some w →
          rows !! j = Some (list_to_set s, py_round w 4).
Proof.
  eexists _, _, _. split; [vm_compute; reflexivity |].
  apply (report_rows third_solver 1 (1 # 3) 1 [100; 200]%Q third_calls []
           (third_assignment Var_err)).
  vm_compute. reflexivity.
Defined.

Lemma build_model_reached n alpha R STOCK_stock STOCK_calls STOCK_puts
    (S1_min S1_max : Q) :
  S1_min_of STOCK_stock = Ok S1_min → S1_max_of STOCK_stock = Ok S1_max →
  (S1_min < S1_max)%Q → 1 ≤ n → ¬ (R == 0)%Q →
  ∃ model d_pw,
    build_model n alpha R STOCK_stock STOCK_calls STOCK_puts = Ok (model, d_pw)
    ∧ ∀ solve,
        (∀ e, solve model = Raise e →
           optimal_m solve n alpha R STOCK_stock STOCK_calls STOCK_puts
           = Raise e)
        ∧ (∀ status, solve model = Ok status →
             check_optimal_termination status = true →
             (∀ v, is_Some (loaded status v)) →
             is_Ok (optimal_m solve n alpha R STOCK_stock STOCK_calls
                      STOCK_puts)).
Proof.
  intros Hmin Hmax Hlt Hn HR.
  destruct (S1_of_total _ _ _ _ Hmin Hmax Hlt Hn) as (S1 & HS1 & _).
  destruct (build_model_total n alpha R _ STOCK_calls STOCK_puts _ HS1 HR)
    as (model & d_pw & Hb).
  exists model, d_pw. split; [exact Hb |]. intros solve. split.
  - intros e He. now apply (solver_raise_propagates _ _ _ _ _ _ _ model d_pw).
  - intros status Hs Hc Hvals. unfold optimal_m, is_Ok.
    rewrite Hb. cbn [mbind result_bind fst snd]. rewrite Hs.
    cbn [mbind result_bind]. unfold assert_optimal_termination. rewrite Hc.
    cbn [mbind result_bind].
    destruct (build_model_program _ _ _ _ _ _ _ _ Hb) as (_ & _ & _ & Ho & _).
    rewrite Ho. cbn [fst].
    destruct (Hvals Var_err) as [e He].
    assert (Herr : pyo_value (loaded status) (Var Var_err) = Ok e)
      by (simpl; now rewrite He).
    rewrite Herr. cbn [mbind result_bind].
    destruct (foldM_total
      (λ d i, v ← pyo_value (loaded status) (Var (Var_m i)); Ok (<[i := v]> d))
      (model_I_vars model) (∅ : gmap nat Q)) as [om Hom].
    { intros d i _. simpl. destruct (Hvals (Var_m i)) as [v Hv]. rewrite Hv.
      now eexists. }
    rewrite Hom. cbn [mbind result_bind]. now eexists.
Qed.

(** X17: for a series whose rounded minimum is below its rounded maximum,
    [n >= 1] and a non-zero [R], the calibration always builds its model and
    reaches the solver, with no lookup or index error on the way; it then
    raises what the solver raises, and returns a triple when the solver
    reports an optimal termination with every variable loaded. *)
Theorem calibration_reaches_solver n alpha R STOCK_stock STOCK_calls STOCK_puts
    (S1_min S1_max : Q) :
  S1_min_of STOCK_stock = Ok S1_min → S1_max_of STOCK_stock = Ok S1_max →
  (S1_min < S1_max)%Q → 1 ≤ n → ¬ (R == 0)%Q →
  ∃ model d_pw,
    build_model n alpha R STOCK_stock STOCK_calls STOCK_puts = Ok (model, d_pw)
    ∧ ∀ solve,
        (∀ e, solve model = Raise e →
           optimal_m solve n alpha R STOCK_stock STOCK_calls STOCK_puts
           = Raise e)
        ∧ (∀ status, solve model = Ok status →
             check_optimal_termination status = true →
             (∀ v, is_Some (loaded status v)) →
             is_Ok (optimal_m solve n alpha R STOCK_stock STOCK_calls
                      STOCK_puts)).
Proof. apply build_model_reached. Qed.

Lemma calibration_reaches_solver_witness :
  ∃ model d_pw,
    build_model 2 (7 # 10) 1 [100; 200]%Q third_calls deep_puts
    = Ok (model, d_pw)
    ∧ ∀ solve,
        (∀ e, solve model = Raise e →
           optimal_m solve 2 (7 # 10) 1 [100; 200]%Q third_calls deep_puts
           = Raise e)
        ∧ (∀ status, solve model = Ok status →
             check_optimal_termination status = true →
             (∀ v, is_Some (loaded status v)) →
             is_Ok (optimal_m solve 2 (7 # 10) 1 [100; 200]%Q third_calls
                      deep_puts)).
Proof.
  apply (calibration_reaches_solver 2 (7 # 10) 1 [100; 200]%Q third_calls
           deep_puts (py_round 100 0) (py_round 200 0)).
  - reflexivity.
  - reflexivity.
  - reflexivity.
  - lia.
  - discriminate.
Defined.

(** ** The sweep over the mixing parameters *)

Section Sweep.

Variable solve : ConcreteModel → result SolverResults.
Variables (n : nat) (R : Q) (alpha : list Q).
Variables (STOCK_stock : list Q) (STOCK_calls STOCK_puts : list quote).

Local Abbreviation calibrate a :=
  (optimal_m solve n a R STOCK_stock STOCK_calls STOCK_puts).
Local Abbreviation sweep_step :=
  (λ (errors : list Q) (i : nat),
     a ← getitem alpha i;
     r ← calibrate a;
     Ok (<[i := r.1.1]> errors)).

Lemma sweep_entries (c k : nat) (errs0 errs : list Q) :
  foldM sweep_step (seq k c) errs0 = Ok errs →
  length errs = length errs0
  ∧ (∀ i, k ≤ i < k + c → i < length errs0 →
       ∃ a E m d, alpha !! i = Some a ∧ calibrate a = Ok (E, m, d)
                  ∧ errs !! i = Some E)
  ∧ (∀ i, ¬ (k ≤ i < k + c) → errs !! i = errs0 !! i).
Proof.
  revert k errs0. induction c as [| c IH]; intros k errs0 H; simpl in H.
  - injection H as <-. split; [reflexivity |]. split; [intros i Hi; lia | reflexivity].
  - apply bind_Ok in H as (errs1 & H1 & H).
    apply bind_Ok in H1 as (a & Ha & H1).
    apply bind_Ok in H1 as ([[E m] d] & Hr & [= <-]).
    apply getitem_Ok in Ha.
    destruct (IH _ _ H) as (Hlen & Hin & Hout).
    rewrite length_insert in Hlen, Hin.
    split; [exact Hlen |]. split.
    + intros i Hi Hlt. destruct (decide (i = k)) as [-> | Hne].
      * exists a, E, m, d. split; [exact Ha |]. split; [exact Hr |].
        rewrite Hout by lia. now apply list_lookup_insert_eq.
      * apply Hin; lia.
    + intros i Hi. rewrite Hout by lia. apply list_lookup_insert_ne. lia.
Qed.

Lemma sweep_raises (c k i : nat) (errs0 : list Q) (a : Q) (e : exn) :
  k ≤ i < k + c → alpha !! i = Some a → calibrate a = Raise e →
  (∀ i' a', k ≤ i' < i → alpha !! i' = Some a' → is_Ok (calibrate a')) →
  k + c ≤ length alpha →
  foldM sweep_step (seq k c) errs0 = Raise e.
Proof.
  revert k errs0. induction c as [| c IH]; intros k errs0 Hi Ha He Hbefore Hlen;
    [lia |].
  simpl. destruct (decide (i = k)) as [-> | Hne].
  - unfold getitem. rewrite Ha. cbn [mbind result_bind]. now rewrite He.
  - destruct (lookup_lt_is_Some_2 alpha k) as [a' Ha']; [lia |].
    destruct (Hbefore k a') as [r Hr]; [lia | exact Ha' |].
    unfold getitem. rewrite Ha'. cbn [mbind result_bind]. rewrite Hr.
    cbn [mbind result_bind]. apply IH; try assumption; try lia.
    intros i' a'' Hi'. apply Hbefore. lia.
Qed.

End Sweep.

(** X18: when the sweep returns, [errors] has one entry per mixing
    parameter, and entry [i] is the optimal error returned by the
    calibration for [alpha[i]]: every calibration of the grid succeeded. *)
Theorem tuning_errors_entries (solve : ConcreteModel → result SolverResults)
    (n : nat) (R : Q) (alpha : list Q)
    (STOCK_stock : list Q) (STOCK_calls STOCK_puts : list quote)
    (errors : list Q) :
  tuning_errors solve n R alpha STOCK_stock STOCK_calls STOCK_puts = Ok errors →
  length errors = length alpha
  ∧ ∀ i a, alpha !! i = Some a →
      ∃ E m d,
        optimal_m solve n a R STOCK_stock STOCK_calls STOCK_puts = Ok (E, m, d)
        ∧ errors !! i = Some E.
Proof.
  unfold tuning_errors. intros H.
  destruct (sweep_entries _ _ _ _ _ _ _ _ _ _ _ H) as (Hlen & Hin & _).
  rewrite length_replicate in Hlen, Hin. split; [exact Hlen |].
  intros i a Ha. pose proof (lookup_lt_Some _ _ _ Ha) as Hi.
  destruct (Hin i) as (a' & E & m & d & Ha' & Hr & He); [lia | lia |].
  rewrite Ha in Ha'. injection Ha' as <-. eauto.
Qed.

Lemma tuning_errors_entries_witness :
  ∃ errors,
    tuning_errors third_solver 1 1 [0; 1 # 3; 1]%Q [100; 200]%Q third_calls []
    = Ok errors
    ∧ length errors = length [0; 1 # 3; 1]%Q
    ∧ ∀ i a, [0; 1 # 3; 1]%Q !! i = Some a →
        ∃ E m d,
          optimal_m third_solver 1 a 1 [100; 200]%Q third_calls []
          = Ok (E, m, d)
          ∧ errors !! i = Some E.
Proof.
  eexists. split; [vm_compute; reflexivity |].
  apply (tuning_errors_entries third_solver 1 1 [0; 1 # 3; 1]%Q [100; 200]%Q
           third_calls []).
  vm_compute. reflexivity.
Defined.

(** X19: the sweep stops at the first mixing parameter whose calibration
    raises, and the script raises that exception: no normalized errors are
    produced. *)
Theorem tuning_raises_first_failure
    (solve : ConcreteModel → result SolverResults)
    (n : nat) (R : Q) (alpha : list Q)
    (STOCK_stock : list Q) (STOCK_calls STOCK_puts : list quote)
    (i : nat) (a : Q) (e : exn) :
  alpha !! i = Some a →
  optimal_m solve n a R STOCK_stock STOCK_calls STOCK_puts = Raise e →
  (∀ i' a', i' < i → alpha !! i' = Some a' →
     is_Ok (optimal_m solve n a' R STOCK_stock STOCK_calls STOCK_puts)) →
  tuning_errors solve n R alpha STOCK_stock STOCK_calls STOCK_puts = Raise e
  ∧ tuning solve n R alpha STOCK_stock STOCK_calls STOCK_puts = Raise e.
Proof.
  intros Ha He Hbefore.
  assert (H : tuning_errors solve n R alpha STOCK_stock STOCK_calls STOCK_puts
              = Raise e).
  { unfold tuning_errors. pose proof (lookup_lt_Some _ _ _ Ha) as Hi.
    apply (sweep_raises _ _ _ _ _ _ _ _ 0 i _ a e); try assumption; try lia.
    intros i' a' Hi'. apply Hbefore. lia. }
  split; [exact H |]. unfold tuning. now rewrite H.
Qed.

Lemma tuning_raises_first_failure_witness :
  tuning_errors infeasible_solver 1 1 [0; 1 # 3; 1]%Q [100; 200]%Q third_calls []
  = Raise RuntimeError
  ∧ tuning infeasible_solver 1 1 [0; 1 # 3; 1]%Q [100; 200]%Q third_calls []
    = Raise RuntimeError.
Proof.
  apply (tuning_raises_first_failure infeasible_solver 1 1 [0; 1 # 3; 1]%Q
           [100; 200]%Q third_calls [] 0 0 RuntimeError).
  - reflexivity.
  - vm_compute. reflexivity.
  - intros i' a' Hi'. lia.
Defined.

(** ** The normalized errors *)

Lemma n_errors_of_Ok (errors : list Q) (lo hi : Q) :
  py_min errors = Ok lo → py_max errors = Ok hi →
  n_errors_of errors = Ok (map (λ e, np_div (e - lo) (hi - lo)) errors).
Proof.
  intros Hlo Hhi. unfold n_errors_of. rewrite Hlo, Hhi. reflexivity.
Qed.

Lemma min_max_bounds (errors : list Q) (lo hi : Q) :
  py_min errors = Ok lo → py_max errors = Ok hi →
  lo ∈ errors ∧ hi ∈ errors ∧ ∀ e, e ∈ errors → (lo <= e <= hi)%Q.
Proof.
  intros Hlo Hhi.
  assert (Hne : errors ≠ []) by (intros ->; discriminate Hlo).
  destruct (py_min_spec _ Hne) as (lo' & Hlo' & Hlo_in & Hlo_le).
  destruct (py_max_spec _ Hne) as (hi' & Hhi' & Hhi_in & Hhi_le).
  rewrite Hlo in Hlo'. injection Hlo' as <-.
  rewrite Hhi in Hhi'. injection Hhi' as <-.
  split; [exact Hlo_in |]. split; [exact Hhi_in |]. intros e He. split; auto.
Qed.

(** X20: when the errors are not all equal, every normalized error is a
    finite number in [0, 1], namely [(e - min) / (max - min)]; the smallest
    error is sent to 0 and the largest to 1, and the order of the errors is
    kept. *)
Theorem normalized_errors (errors : list Q) (lo hi : Q) :
  py_min errors = Ok lo → py_max errors = Ok hi → (lo < hi)%Q →
  n_errors_of errors
  = Ok (map (λ e, np_finite ((e - lo) / (hi - lo))) errors)
  ∧ (∀ e, e ∈ errors → (0 <= (e - lo) / (hi - lo) <= 1)%Q)
  ∧ (∃ e, e ∈ errors ∧ ((e - lo) / (hi - lo) == 0)%Q)
  ∧ (∃ e, e ∈ errors ∧ ((e - lo) / (hi - lo) == 1)%Q)
  ∧ (∀ e e', (e <= e')%Q → ((e - lo) / (hi - lo) <= (e' - lo) / (hi - lo))%Q).
Proof.
  intros Hlo Hhi Hlt.
  destruct (min_max_bounds _ _ _ Hlo Hhi) as (Hlo_in & Hhi_in & Hb).
  assert (Hpos : (0 < hi - lo)%Q) by lra.
  split.
  - rewrite (n_errors_of_Ok _ _ _ Hlo Hhi). f_equal. apply map_ext. intros e.
    unfold np_div. destruct (Qeq_bool (hi - lo) 0) eqn:E; [| reflexivity].
    apply Qeq_bool_iff in E. lra.
  - split; [| split; [| split]].
    + intros e He. specialize (Hb e He). split.
      * apply Qle_shift_div_l; [exact Hpos | lra].
      * apply Qle_shift_div_r; [exact Hpos | lra].
    + exists lo. split; [exact Hlo_in | field; lra].
    + exists hi. split; [exact Hhi_in | field; lra].
    + intros e e' Hee. apply Qmult_le_compat_r; [lra |].
      apply Qlt_le_weak, Qinv_lt_0_compat, Hpos.
Qed.

Lemma normalized_errors_witness :
  n_errors_of [3; 1; 2]%Q
  = Ok (map (λ e, np_finite ((e - 1) / (3 - 1))) [3; 1; 2]%Q)
  ∧ (∀ e, e ∈ [3; 1; 2]%Q → (0 <= (e - 1) / (3 - 1) <= 1)%Q)
  ∧ (∃ e, e ∈ [3; 1; 2]%Q ∧ ((e - 1) / (3 - 1) == 0)%Q)
  ∧ (∃ e, e ∈ [3; 1; 2]%Q ∧ ((e - 1) / (3 - 1) == 1)%Q)
  ∧ (∀ e e', (e <= e')%Q → ((e - 1) / (3 - 1) <= (e' - 1) / (3 - 1))%Q).
Proof.
  apply (normalized_errors [3; 1; 2]%Q 1 3).
  - reflexivity.
  - reflexivity.
  - reflexivity.
Defined.

(** X21: when all the errors are equal the normalization divides zero by
    zero in every entry: the script raises nothing and every normalized
    error is [nan]. *)
Theorem normalized_errors_all_equal (errors : list Q) (lo hi : Q) :
  py_min errors = Ok lo → py_max errors = Ok hi → (hi == lo)%Q →
  n_errors_of errors = Ok (replicate (length errors) np_nan).
Proof.
  intros Hlo Hhi Heq.
  destruct (min_max_bounds _ _ _ Hlo Hhi) as (_ & _ & Hb).
  rewrite (n_errors_of_Ok _ _ _ Hlo Hhi). f_equal.
  assert (Hd : Qeq_bool (hi - lo) 0 = true) by (apply Qeq_bool_iff; lra).
  clear Hlo Hhi. induction errors as [| e errors IH]; [reflexivity |].
  simpl. f_equal.
  - unfold np_div. rewrite Hd.
    assert (He : Qeq_bool (e - lo) 0 = true).
    { apply Qeq_bool_iff. specialize (Hb e (list_elem_of_here _ _)). lra. }
    now rewrite He.
  - apply IH. intros x Hx. apply Hb. now right.
Qed.

Lemma normalized_errors_all_equal_witness :
  n_errors_of [3; 3; 3]%Q = Ok (replicate (length [3; 3; 3]%Q) np_nan).
Proof.
  apply (normalized_errors_all_equal [3; 3; 3]%Q 3 3).
  - reflexivity.
  - reflexivity.
  - reflexivity.
Defined.

(** * Further properties of the subset enumerator *)

Lemma combinations_all {A} (l : list A) : combinations l (length l) = [l].
Proof.
  induction l as [| x l IH]; [reflexivity |].
  simpl length. rewrite combinations_cons, IH.
  rewrite (combinations_overflow l (S (length l))) by lia. reflexivity.
Qed.

Lemma combinations_upto_S {A} (l : list A) (m : nat) :
  concat (map (combinations l) (seq 1 (S m)))
  = concat (map (combinations l) (seq 1 m)) ++ combinations l (S m).
Proof.
  rewrite seq_S, map_app, concat_app. simpl. now rewrite app_nil_r.
Qed.

Lemma pw_last (n : nat) (pw : list (list nat)) :
  1 ≤ n → pw_of n = Ok pw → pw !! (2 ^ n - 2) = Some (seq 0 n).
Proof.
  intros Hn Hpw. pose proof (pw_of_length _ _ Hpw) as Hlen.
  rewrite pw_of_Ok in Hpw. injection Hpw as <-.
  destruct n as [| n]; [lia |].
  rewrite combinations_upto_S in Hlen |- *.
  assert (Hall : combinations (seq 0 (S n)) (S n) = [seq 0 (S n)]).
  { rewrite <- (length_seq (S n) 0) at 2. apply combinations_all. }
  rewrite Hall in Hlen |- *.
  rewrite length_app in Hlen. change (length [seq 0 (S n)]) with 1 in Hlen.
  rewrite lookup_app_r by lia.
  replace (2 ^ S n - 2 - _) with 0 by lia. reflexivity.
Qed.

(** X22: for [n >= 1] the last subset of the index dict, under the index
    [2^n - 2], is the whole state index set [0 .. n-1]. *)
Theorem full_set_is_last (n : nat) (pw : list (list nat)) :
  1 ≤ n → pw_of n = Ok pw → d_pw_of pw !! (2 ^ n - 2) = Some (seq 0 n).
Proof. intros Hn Hpw. rewrite d_pw_of_lookup. now apply pw_last. Qed.

Lemma full_set_is_last_witness :
  d_pw_of [[0]; [1]; [2]; [0; 1]; [0; 2]; [1; 2]; [0; 1; 2]] !! (2 ^ 3 - 2)
  = Some (seq 0 3).
Proof.
  apply (full_set_is_last 3).
  - lia.
  - reflexivity.
Defined.
